(** * MIDI to Scratch converter: a shallow embedding of [midi_to_scratch_gui.py]

    The conversion core of the program ([gm_to_scratch_instrument],
    [round_to_musical_beat], [midi_to_scratch]) is transcribed as Rocq
    functions and the properties of its specification are proved about them.

    Modelling conventions.
    - Python [int] is [Z].
    - Python [float] (binary64) is modelled by the rationals that have a
      53-bit significand: every literal and every division is rounded to
      the nearest such value, ties to even ([Float.fl]); comparisons are
      exact.  The exponent range is not bounded, so overflow, subnormal
      numbers, infinities and NaN are outside the model.
    - A division by zero raises [ZeroDivisionError]; the error is explicit
      in the model ([Raise]).
    - The set [processed_times] is a [gset Z]; the dictionary
      [tempo_changes] is an insertion-ordered association list, because the
      program iterates over it.
    - The MIDI reader and the file system are a record [world]; the files
      are a finite map from paths to contents. *)

From Stdlib Require Import ZArith QArith Qabs Qround Qpower Lqa String Ascii List Lia Bool.
From Stdlib Require Import DecimalString Sorted.
From stdpp Require Import gmap strings.

Import ListNotations.
Local Open Scope string_scope.
Local Open Scope Z_scope.

(* ===================================================================== *)
(** * Instrument mapper *)
(* ===================================================================== *)

Module Instrument.

(** [range(lo, hi)] as the pair of its bounds; [hi] is excluded. *)
Definition range : Type := (Z * Z)%type.

(** [x in range(lo, hi)] *)
Definition in_range (x : Z) (r : range) : bool :=
  (fst r <=? x) && (x <? snd r).

(** The dictionary literal of [gm_to_scratch_instrument], in the order in
    which its items are written (and iterated). *)
Definition instrument_map : list (range * Z) :=
  [ ((0, 2), 1);      ((2, 8), 2);      ((8, 9), 16);
    ((9, 11), 17);    ((11, 16), 19);   ((16, 24), 3);
    ((24, 28), 4);    ((28, 32), 5);    ((32, 40), 6);
    ((40, 44), 8);    ((44, 48), 7);    ((48, 52), 8);
    ((52, 56), 15);   ((56, 64), 9);    ((64, 68), 11);
    ((68, 72), 10);   ((72, 74), 12);   ((74, 80), 13);
    ((80, 88), 20);   ((88, 96), 21);   ((96, 104), 21);
    ((104, 108), 13); ((108, 112), 4);  ((112, 116), 18);
    ((116, 120), 19); ((120, 128), 21) ].

(** The [for] loop over the items: the first range that contains the
    program decides; [None] when the loop runs to its end. *)
Fixpoint lookup_range (gm_program : Z) (items : list (range * Z)) : option Z :=
  match items with
  | [] => None
  | (program_range, scratch_inst) :: rest =>
      if in_range gm_program program_range then Some scratch_inst
      else lookup_range gm_program rest
  end.

Definition gm_to_scratch_instrument (gm_program : Z) : Z :=
  match lookup_range gm_program instrument_map with
  | Some scratch_inst => scratch_inst
  | None => 1
  end.

(** Two ranges have no common element. *)
Definition disjoint_ranges (r1 r2 : range) : Prop :=
  forall x : Z, ~ (in_range x r1 = true /\ in_range x r2 = true).

(** Disjointness of two ranges, decided on the bounds. *)
Definition apart (r1 r2 : range) : bool :=
  (snd r1 <=? fst r2) || (snd r2 <=? fst r1).

(** The same for every pair of a list. *)
Fixpoint all_apart (rs : list range) : bool :=
  match rs with
  | [] => true
  | r :: rest => forallb (apart r) rest && all_apart rest
  end.

End Instrument.
Export Instrument.

(* ===================================================================== *)
(** * Python numbers *)
(* ===================================================================== *)

Module Float.

Local Open Scope Q_scope.

(** [x < y] and [x <= y] on exact values, as booleans. *)
Definition Qltb (x y : Q) : bool := negb (Qle_bool y x).
Definition Qleb (x y : Q) : bool := Qle_bool x y.

(** Nearest integer, ties to the even one. *)
Definition round_half_even (q : Q) : Z :=
  let f := Qfloor q in
  let r := q - inject_Z f in
  if Qltb r (1 # 2) then f
  else if Qltb (1 # 2) r then (f + 1)%Z
  else if Z.even f then f else (f + 1)%Z.

(** [floor (log2 q)] for [0 < q]. *)
Definition floor_log2 (q : Q) : Z :=
  let k := (Z.log2 (Qnum q) - Z.log2 (Zpos (Qden q)))%Z in
  if Qleb (2 ^ k) q then k else (k - 1)%Z.

(** A binary64 value is a rational with a significand of 53 bits; [fl q]
    is the one nearest to [q], ties to the even significand.  The exponent
    range is not bounded: overflow, subnormal numbers, infinities and NaN
    are outside the model. *)
Definition fl (q : Q) : Q :=
  if Qeq_bool q 0 then 0
  else
    let a := Qabs q in
    let e := (floor_log2 a - 52)%Z in
    let m := round_half_even (a * 2 ^ (- e)) in
    let v := Qred (inject_Z m * 2 ^ e) in
    if Qltb q 0 then Qred (- v) else v.

(** A float literal of the source text. *)
Definition lit (q : Q) : Q := fl q.

(** True division [x / y] of two floats (or of two ints, which Python
    rounds correctly as well); [None] is [ZeroDivisionError]. *)
Definition div (x y : Q) : option Q :=
  if Qeq_bool y 0 then None else Some (fl (x / y)).

(** [round(x, ndigits)] for a float [x] and [0 <= ndigits]: the decimal
    with [ndigits] places nearest to the exact value of [x], ties to even,
    read back as a float. *)
Definition round (x : Q) (ndigits : Z) : Q :=
  let s := inject_Z (10 ^ ndigits) in
  fl (inject_Z (round_half_even (x * s)) / s).

End Float.

(** The result of [round_to_musical_beat] is an [int] on some branches
    and a [float] on the others; the two print differently. *)
Inductive number : Type :=
| Int (z : Z)
| Float (q : Q).

(** The value of a number. *)
Definition number_value (n : number) : Q :=
  match n with
  | Int z => inject_Z z
  | Float q => q
  end.

(** Python's [==] between numbers compares values. *)
Definition number_eq (a b : number) : Prop :=
  (number_value a == number_value b)%Q.

(* ===================================================================== *)
(** * Printing: [str] of an int, [repr] of a float *)
(* ===================================================================== *)

Module Show.

Import Float.

(** [str(z)] for an int. *)
Definition str_int (z : Z) : string := NilZero.string_of_int (Z.to_int z).

Fixpoint zeros (n : nat) : string :=
  match n with
  | O => ""
  | S k => "0" ++ zeros k
  end.

(** The least [k' >= k] with [1 <= a * 10^k'], looking at [fuel] values. *)
Fixpoint find_exp (fuel : nat) (a : Q) (k : Z) : Z :=
  match fuel with
  | O => k
  | S f => if Qleb 1 (a * 10 ^ k)%Q then k else find_exp f a (k + 1)
  end.

(** [floor (log10 a)] for [0 < a]. *)
Definition floor_log10 (a : Q) : Z :=
  if Qleb 1 a
  then Z.of_nat (String.length (str_int (Qfloor a))) - 1
  else - find_exp (String.length (str_int (Zpos (Qden a)))) a 1.

(** Drop the trailing zeros of [m], counting them into the exponent. *)
Fixpoint strip_zeros (fuel : nat) (m s : Z) : Z * Z :=
  match fuel with
  | O => (m, s)
  | S f =>
      if (m mod 10 =? 0) && negb (m =? 0)
      then strip_zeros f (m / 10) (s + 1)
      else (m, s)
  end.

(** [a] rounded to [n] significant decimal digits: the pair [(m, s)]
    stands for [m * 10^s]. *)
Definition round_digits (a : Q) (n : Z) : Z * Z :=
  let s := floor_log10 a - n + 1 in
  (round_half_even (a * 10 ^ (- s))%Q, s).

Definition decimal_value (ms : Z * Z) : Q :=
  (inject_Z (fst ms) * 10 ^ (snd ms))%Q.

(** The decimal of [n] significant digits on the other side of [a]:
    the one above when rounding went down, the one below when it went up. *)
Definition other_digits (a : Q) (n : Z) : Z * Z :=
  let s := floor_log10 a - n + 1 in
  let m := round_half_even (a * 10 ^ (- s))%Q in
  (if Qltb (inject_Z m) (a * 10 ^ (- s))%Q then m + 1 else m - 1, s).

(** The shortest decimal that reads back as the float [a]: the first
    precision, from [n] on, at which one of the two decimals next to [a]
    does, the nearer one when both do (17 digits always do). *)
Fixpoint shortest (fuel : nat) (a : Q) (n : Z) : Z * Z :=
  let ms := round_digits a n in
  match fuel with
  | O => ms
  | S f =>
      if Qeq_bool (fl (decimal_value ms)) a then ms
      else
        let ms' := other_digits a n in
        if Qeq_bool (fl (decimal_value ms')) a then ms'
        else shortest f a (n + 1)
  end.

(** Layout of [repr]: digits [ds] with the decimal point after [decpt] of
    them; plain notation when [-4 < decpt <= 16], exponent notation
    otherwise. *)
Definition layout (ds : string) (decpt : Z) : string :=
  let len := Z.of_nat (String.length ds) in
  if (-4 <? decpt) && (decpt <=? 16) then
    if decpt <=? 0 then "0." ++ zeros (Z.to_nat (- decpt)) ++ ds
    else if len <=? decpt then ds ++ zeros (Z.to_nat (decpt - len)) ++ ".0"
    else String.substring 0 (Z.to_nat decpt) ds ++ "."
         ++ String.substring (Z.to_nat decpt) (Z.to_nat (len - decpt)) ds
  else
    let e := decpt - 1 in
    let mant :=
      if len <=? 1 then ds
      else String.substring 0 1 ds ++ "."
           ++ String.substring 1 (Z.to_nat (len - 1)) ds in
    let ex := str_int (Z.abs e) in
    mant ++ "e" ++ (if e <? 0 then "-" else "+")
         ++ (if Z.abs e <? 10 then "0" else "") ++ ex.

(** [repr(x)] (also [str(x)] and [f"{x}"]) for a float [x]. *)
Definition repr_float (x : Q) : string :=
  if Qeq_bool x 0 then "0.0"
  else
    let a := Qabs x in
    let '(m, s) := shortest 16 a 1 in
    let '(m', s') := strip_zeros 17 m s in
    let ds := str_int m' in
    (if Qltb x 0 then "-" else "")
      ++ layout ds (s' + Z.of_nat (String.length ds)).

(** [str] of a number. *)
Definition str_number (n : number) : string :=
  match n with
  | Int z => str_int z
  | Float q => repr_float q
  end.

End Show.

(* ===================================================================== *)
(** * Beat quantizer *)
(* ===================================================================== *)

Module Quantizer.

Import Float.
Local Open Scope Q_scope.

Definition round_to_musical_beat (beat_value : Q) : number :=
  if Qltb beat_value (lit 0.027) then Float (lit 0.03125)
  else if Qltb beat_value (lit 0.035) then Float (lit 0.04)
  else if Qltb beat_value (lit 0.045) then Float (lit 0.05)
  else if Qltb beat_value (lit 0.0615) then Float (lit 0.0625)
  else if Qltb beat_value (lit 0.0825) then Float (lit 0.0833)
  else if Qltb beat_value (lit 0.05) then Float (lit 0.1)
  else if Qltb beat_value (lit 0.1) then Float (lit 0.125)
  else if Qltb beat_value (lit 0.15) then Float (lit 0.166)
  else if Qltb beat_value (lit 0.2) then Float (lit 0.25)
  else if Qltb beat_value (lit 0.3) then Float (lit 0.33)
  else if Qltb beat_value (lit 0.4) then Float (lit 0.5)
  else if Qltb beat_value (lit 0.6) then Float (lit 0.75)
  else if Qltb beat_value (lit 0.8) then Int 1
  else if Qltb beat_value (lit 1.3) then Float (lit 1.5)
  else if Qltb beat_value (lit 2.5) then Int 2
  else if Qltb beat_value (lit 3.5) then Int 3
  else if Qltb beat_value (lit 4.5) then Int 4
  else if Qltb beat_value (lit 6.5) then Int 6
  else if Qltb beat_value (lit 7.5) then Int 7
  else if Qltb beat_value (lit 8.5) then Int 8
  else if Qltb beat_value (lit 10.5) then Int 10
  else if Qltb beat_value (lit 11.5) then Int 11
  else if Qltb beat_value (lit 12.5) then Int 12
  else if Qltb beat_value (lit 14.5) then Int 14
  else if Qltb beat_value (lit 15.5) then Int 15
  else if Qltb beat_value (lit 16.5) then Int 16
  else Float (round beat_value 2).

(** The same thresholds as a table of (upper bound, returned value), in
    the order of the [if]/[elif] chain. *)
Definition ladder : list (Q * number) :=
  [ (lit 0.027, Float (lit 0.03125)); (lit 0.035, Float (lit 0.04));
    (lit 0.045, Float (lit 0.05));    (lit 0.0615, Float (lit 0.0625));
    (lit 0.0825, Float (lit 0.0833)); (lit 0.05, Float (lit 0.1));
    (lit 0.1, Float (lit 0.125));     (lit 0.15, Float (lit 0.166));
    (lit 0.2, Float (lit 0.25));      (lit 0.3, Float (lit 0.33));
    (lit 0.4, Float (lit 0.5));       (lit 0.6, Float (lit 0.75));
    (lit 0.8, Int 1);   (lit 1.3, Float (lit 1.5));
    (lit 2.5, Int 2);   (lit 3.5, Int 3);   (lit 4.5, Int 4);
    (lit 6.5, Int 6);   (lit 7.5, Int 7);   (lit 8.5, Int 8);
    (lit 10.5, Int 10); (lit 11.5, Int 11); (lit 12.5, Int 12);
    (lit 14.5, Int 14); (lit 15.5, Int 15); (lit 16.5, Int 16) ].

(** Threshold ladder: the first bound the input falls under decides;
    past the last bound the input is rounded to 2 decimal places. *)
Fixpoint snap (table : list (Q * number)) (beat_value : Q) : number :=
  match table with
  | [] => Float (round beat_value 2)
  | (bound, value) :: rest =>
      if Qltb beat_value bound then value else snap rest beat_value
  end.

(** The table without the rung of the dotted 32th note, whose bound 0.05
    comes after the larger bound 0.0825. *)
Definition ladder_reachable : list (Q * number) :=
  List.filter (fun rung => negb (Qeq_bool (fst rung) (lit 0.05))) ladder.

(** The bounds of a table are in ascending order. *)
Fixpoint ascending (bounds : list Q) : bool :=
  match bounds with
  | a :: ((b :: _) as rest) => Qltb a b && ascending rest
  | _ => true
  end.

End Quantizer.
Export Quantizer.

(* ===================================================================== *)
(** * MIDI input, events, and Python containers *)
(* ===================================================================== *)

(** One message of a track, as the MIDI reader yields it.  Every message
    has a delta time [time]; messages of the types the converter does not
    look at are [Msg_other]. *)
Inductive message : Type :=
| Msg_note_on (channel note velocity time : Z)
| Msg_note_off (channel note velocity time : Z)
| Msg_program_change (channel program time : Z)
| Msg_set_tempo (tempo time : Z)
| Msg_other (time : Z).

Definition msg_time (msg : message) : Z :=
  match msg with
  | Msg_note_on _ _ _ t | Msg_note_off _ _ _ t
  | Msg_program_change _ _ t | Msg_set_tempo _ t | Msg_other t => t
  end.

(** The object returned by [mido.MidiFile(path)]. *)
Record MidiFile : Type := {
  ticks_per_beat : Z;
  tracks : list (list message)
}.

(** An entry of the list [events]: the tuple [(absolute_time, 'note_on',
    {note, velocity, channel, program})] or [(absolute_time, 'note_off',
    {note, channel})]. *)
Inductive event : Type :=
| note_on (time note velocity channel program : Z)
| note_off (time note channel : Z).

Definition event_time (e : event) : Z :=
  match e with
  | note_on t _ _ _ _ | note_off t _ _ => t
  end.

Definition is_note_on (e : event) : bool :=
  match e with
  | note_on _ _ _ _ _ => true
  | note_off _ _ _ => false
  end.

(** An entry of the list [grouped_events]: [(time, 'chord', {notes,
    program})] or [(time, 'tempo', {tempo})]. *)
Inductive grouped_event : Type :=
| chord (time : Z) (notes : list Z) (program : Z)
| tempo (time : Z) (tempo : Z).

Definition grouped_time (g : grouped_event) : Z :=
  match g with
  | chord t _ _ | tempo t _ => t
  end.

Definition is_chord (g : grouped_event) : bool :=
  match g with
  | chord _ _ _ => true
  | tempo _ _ => false
  end.

(** A line of the output. *)
Inductive line : Type :=
| Instr (instrument : Z)
| BPM (bpm : Q)
| Rest (rest_beats : number)
| Note (notes : list Z).

Module Py.

(** ** A [dict] with int keys, in insertion order *)

Definition dict : Type := list (Z * Z).

(** [d[k] = v]: an existing key keeps its place. *)
Fixpoint dict_set (k v : Z) (d : dict) : dict :=
  match d with
  | [] => [(k, v)]
  | (k', v') :: rest =>
      if k' =? k then (k, v) :: rest else (k', v') :: dict_set k v rest
  end.

(** [d.get(k, default)] *)
Fixpoint dict_get (k : Z) (default : Z) (d : dict) : Z :=
  match d with
  | [] => default
  | (k', v') :: rest => if k' =? k then v' else dict_get k default rest
  end.

(** ** [list.sort(key=...)]: a stable sort on an integer key *)

Section Sort.
Context {A : Type} (key : A -> Z).

(** [x] goes in front of the first element whose key is not smaller. *)
Fixpoint insert_by (x : A) (l : list A) : list A :=
  match l with
  | [] => [x]
  | y :: rest =>
      if key x <=? key y then x :: y :: rest else y :: insert_by x rest
  end.

Definition sort_by (l : list A) : list A := fold_right insert_by [] l.

(** The order of the keys. *)
Definition key_le (a b : A) : Prop := key a <= key b.
End Sort.

(** [sorted(l)] for a list of ints. *)
Definition sorted (l : list Z) : list Z := sort_by (fun x => x) l.

(** ** An uncaught exception, or a value *)

Inductive exc (A : Type) : Type :=
| Ok (a : A)
| Raise (e : string).
Arguments Ok {A} a.
Arguments Raise {A} e.

Definition bind {A B : Type} (m : exc A) (k : A -> exc B) : exc B :=
  match m with
  | Ok a => k a
  | Raise e => Raise e
  end.

(** [x / y] on numbers, raising on a zero divisor. *)
Definition truediv (x y : Q) : exc Q :=
  match Float.div x y with
  | Some q => Ok q
  | None => Raise "ZeroDivisionError"
  end.

End Py.
Export Py.

Notation "'letE' x := m 'in' k" := (bind m (fun x => k))
  (at level 10, x name, m at level 100, k at level 200).

(** Text of a line, as the f-strings of the source build it. *)
Definition line_text (l : line) : string :=
  match l with
  | Instr i => "Instr: " ++ Show.str_int i
  | BPM b => "BPM: " ++ Show.repr_float b
  | Rest r => "Rest: " ++ Show.str_number r
  | Note notes => "Note: " ++ String.concat "~" (map Show.str_int (sorted notes))
  end.

(* ===================================================================== *)
(** * The converter: [midi_to_scratch] *)
(* ===================================================================== *)

Module Converter.

Import Float.

(** ** Reading the tracks (the loop "Process all tracks") *)

(** What the track loop accumulates across tracks. *)
Record extractor : Type := {
  events : list event;
  current_tempo : Z;
  tempo_changes : dict
}.

Definition extractor_init : extractor :=
  {| events := []; current_tempo := 500000; tempo_changes := [(0, 500000)] |}.

(** Body of [for msg in track]; the state also holds the two variables of
    the track, [absolute_time] and [current_program]. *)
Definition on_message (st : Z * Z * extractor) (msg : message)
  : Z * Z * extractor :=
  let '(absolute_time, current_program, x) := st in
  let absolute_time := absolute_time + msg_time msg in
  match msg with
  | Msg_note_on channel note velocity _ =>
      if velocity >? 0 then
        (absolute_time, current_program,
         {| events := events x
                      ++ [note_on absolute_time note velocity channel current_program];
            current_tempo := current_tempo x;
            tempo_changes := tempo_changes x |})
      else if velocity =? 0 then
        (absolute_time, current_program,
         {| events := events x ++ [note_off absolute_time note channel];
            current_tempo := current_tempo x;
            tempo_changes := tempo_changes x |})
      else (absolute_time, current_program, x)
  | Msg_note_off channel note _ _ =>
      (absolute_time, current_program,
       {| events := events x ++ [note_off absolute_time note channel];
          current_tempo := current_tempo x;
          tempo_changes := tempo_changes x |})
  | Msg_program_change _ program _ =>
      (absolute_time, program, x)
  | Msg_set_tempo new_tempo _ =>
      (absolute_time, current_program,
       {| events := events x;
          current_tempo := new_tempo;
          tempo_changes := dict_set absolute_time new_tempo (tempo_changes x) |})
  | Msg_other _ => (absolute_time, current_program, x)
  end.

(** Body of [for track_num, track in enumerate(mid.tracks)]. *)
Definition on_track (x : extractor) (track : list message) : extractor :=
  snd (fold_left on_message track (0, 0, x)).

(** The track loop, then [events.sort(key=lambda x: x[0])]. *)
Definition extract (mid : MidiFile) : extractor :=
  let x := fold_left on_track (tracks mid) extractor_init in
  {| events := sort_by event_time (events x);
     current_tempo := current_tempo x;
     tempo_changes := tempo_changes x |}.

(** ** Initial instrument *)

(** The loop "Get initial instrument": the program of the first note_on,
    mapped; 1 when there is none. *)
Fixpoint first_instrument (events : list event) : Z :=
  match events with
  | [] => 1
  | note_on _ _ _ _ program :: _ => gm_to_scratch_instrument program
  | note_off _ _ _ :: rest => first_instrument rest
  end.

(** ** End times of the notes (computed, never read) *)

Definition note_end_times (events : list event) : gmap (Z * Z) Z :=
  fold_left
    (fun (m : gmap (Z * Z) Z) e =>
       match e with
       | note_off time note channel => <[(channel, note) := time]> m
       | note_on _ _ _ _ _ => m
       end)
    events ∅.

(** ** Grouping into chords *)

(** [abs(other_time - time) <= tolerance] *)
Definition within (tolerance : Q) (time other_time : Z) : bool :=
  Qleb (inject_Z (Z.abs (other_time - time))) tolerance.

(** The inner loop [for other_time, other_type, other_data in events]. *)
Fixpoint scan (tolerance : Q) (time : Z) (events : list event)
    (chord_notes : list Z) (processed_times : gset Z) : list Z * gset Z :=
  match events with
  | [] => (chord_notes, processed_times)
  | note_on other_time note _ _ _ :: rest =>
      if within tolerance time other_time
      then scan tolerance time rest (chord_notes ++ [note])
                ({[other_time]} ∪ processed_times)
      else scan tolerance time rest chord_notes processed_times
  | note_off _ _ _ :: rest =>
      scan tolerance time rest chord_notes processed_times
  end.

(** The outer loop [for idx, (time, event_type, data) in enumerate(events)];
    [all] is the whole list [events], [todo] what is left to iterate. *)
Fixpoint group_loop (tolerance : Q) (all todo : list event)
    (grouped_events : list grouped_event) (processed_times : gset Z)
  : list grouped_event * gset Z :=
  match todo with
  | [] => (grouped_events, processed_times)
  | note_off _ _ _ :: rest =>
      group_loop tolerance all rest grouped_events processed_times
  | note_on time _ _ _ program :: rest =>
      if decide (time ∈ processed_times)
      then group_loop tolerance all rest grouped_events processed_times
      else
        let '(chord_notes, processed_times) :=
          scan tolerance time all [] processed_times in
        group_loop tolerance all rest
                   (grouped_events ++ [chord time chord_notes program])
                   processed_times
  end.

(** The values the loop passes to [progress_callback] when the caller
    gives one: [idx / total_events * 100] at every index that is a
    multiple of 100.  Nothing the callback returns is read. *)
Definition progress_reports (events : list event) : list Q :=
  let total_events := inject_Z (Z.of_nat (List.length events)) in
  map (fun idx => fl (fl (inject_Z idx / total_events) * 100))
      (List.filter (fun idx => idx mod 100 =? 0)
                   (map Z.of_nat (seq 0 (List.length events)))).

(** [tolerance = ticks_per_beat / 32] *)
Definition tolerance_of (ticks_per_beat : Z) : Q :=
  fl (inject_Z ticks_per_beat / 32).

(** The chord events, in the order in which they are appended. *)
Definition group_chords (ticks_per_beat : Z) (events : list event)
  : list grouped_event :=
  fst (group_loop (tolerance_of ticks_per_beat) events events [] ∅).

(** [for time, tempo in tempo_changes.items(): if time > 0: append] *)
Definition tempo_events (tempo_changes : dict) : list grouped_event :=
  map (fun kv => tempo (fst kv) (snd kv))
      (List.filter (fun kv => fst kv >? 0) tempo_changes).

(** [grouped_events], after [grouped_events.sort(key=lambda x: x[0])]. *)
Definition merged (ticks_per_beat : Z) (x : extractor) : list grouped_event :=
  sort_by grouped_time
          (group_chords ticks_per_beat (events x) ++ tempo_events (tempo_changes x)).

(** ** Writing the lines *)

(** The variables of the last loop. *)
Record serializer : Type := {
  previous_time : Z;
  current_bpm : Q;
  last_instrument : Z;
  output_lines : list line
}.

(** [output_lines.append(l)] *)
Definition append_line (l : line) (s : serializer) : serializer :=
  {| previous_time := previous_time s;
     current_bpm := current_bpm s;
     last_instrument := last_instrument s;
     output_lines := output_lines s ++ [l] |}.

(** Body of [for time_point, event_type, data in grouped_events]. *)
Definition on_grouped (ticks_per_beat : Z) (s : serializer) (g : grouped_event)
  : exc serializer :=
  match g with
  | tempo _ new_tempo =>
      letE new_bpm := truediv 60000000 (inject_Z new_tempo) in
      if negb (Qeq_bool new_bpm (current_bpm s)) then
        let s := append_line (BPM new_bpm) s in
        Ok {| previous_time := previous_time s;
              current_bpm := new_bpm;
              last_instrument := last_instrument s;
              output_lines := output_lines s |}
      else Ok s
  | chord time_point notes_at_time program =>
      let instrument_at_time := gm_to_scratch_instrument program in
      let s :=
        if negb (instrument_at_time =? last_instrument s) then
          let s := append_line (Instr instrument_at_time) s in
          {| previous_time := previous_time s;
             current_bpm := current_bpm s;
             last_instrument := instrument_at_time;
             output_lines := output_lines s |}
        else s in
      letE s :=
        (if time_point >? previous_time s then
           let rest_ticks := time_point - previous_time s in
           letE rest_beats :=
             truediv (inject_Z rest_ticks) (inject_Z ticks_per_beat) in
           if Qleb (lit 0.03125) rest_beats
           then Ok (append_line (Rest (round_to_musical_beat rest_beats)) s)
           else Ok s
         else Ok s) in
      let s := append_line (Note notes_at_time) s in
      Ok {| previous_time := time_point;
            current_bpm := current_bpm s;
            last_instrument := last_instrument s;
            output_lines := output_lines s |}
  end.

(** The loop over [grouped_events]. *)
Fixpoint serialize (ticks_per_beat : Z) (grouped_events : list grouped_event)
    (s : serializer) : exc serializer :=
  match grouped_events with
  | [] => Ok s
  | g :: rest =>
      letE s' := on_grouped ticks_per_beat s g in
      serialize ticks_per_beat rest s'
  end.

(** The state in which the last loop starts. *)
Definition serializer_init (first_instrument : Z) (bpm : Q) : serializer :=
  {| previous_time := 0;
     current_bpm := bpm;
     last_instrument := first_instrument;
     output_lines := [Instr first_instrument; BPM bpm] |}.

(** Everything between the test [if not events] and the writing of the
    file: the list [output_lines], or the exception that escapes. *)
Definition convert (mid : MidiFile) (x : extractor) : exc (list line) :=
  let first_instrument := first_instrument (events x) in
  let initial_tempo := dict_get 0 500000 (tempo_changes x) in
  letE bpm := truediv 60000000 (inject_Z initial_tempo) in
  let unused := note_end_times (events x) in
  letE s :=
    serialize (ticks_per_beat mid) (merged (ticks_per_beat mid) x)
      (serializer_init first_instrument bpm) in
  Ok (output_lines s).

(** ** The entry point *)

(** What surrounds a call: the MIDI reader, and the files. *)
Record world : Type := {
  (** [mido.MidiFile(path)]: the file read, or the exception raised *)
  midi_reader : string -> exc MidiFile;
  (** the exception that [open(path, 'w')] raises, if it raises one; the
      file is then left as it was *)
  open_error : string -> option string;
  (** the exception that [f.write(text)], or the closing of the file at
      the end of the [with] block, raises once [path] is open, if one is
      raised, and what the file, which [open] has created or emptied,
      holds after it *)
  write_error : string -> string -> option (string * string);
  (** the contents of the files written *)
  files : gmap string string
}.

Definition newline : string := String "010"%char EmptyString.

(** ['\n'.join(output_lines)] *)
Definition file_text (output_lines : list line) : string :=
  String.concat newline (map line_text output_lines).

(** [midi_to_scratch(midi_file, output_file)] with no progress callback:
    the pair returned (or the exception that escapes) and the world
    after the call. *)
Definition midi_to_scratch (midi_file output_file : string) (w : world)
  : exc (bool * string) * world :=
  match midi_reader w midi_file with
  | Raise e => (Ok (false, "Error reading MIDI file: " ++ e), w)
  | Ok mid =>
      let x := extract mid in
      match events x with
      | [] => (Ok (false, "No note events found in MIDI file!"), w)
      | _ :: _ =>
          match convert mid x with
          | Raise e => (Raise e, w)
          | Ok output_lines =>
              match open_error w output_file with
              | Some e => (Ok (false, "Error writing output file: " ++ e), w)
              | None =>
                  match write_error w output_file (file_text output_lines) with
                  | Some (e, remains) =>
                      (Ok (false, "Error writing output file: " ++ e),
                       {| midi_reader := midi_reader w;
                          open_error := open_error w;
                          write_error := write_error w;
                          files := <[output_file := remains]> (files w) |})
                  | None =>
                      (Ok (true,
                           "Successfully converted!" ++ newline
                           ++ "Output: " ++ output_file ++ newline
                           ++ "Total lines: "
                           ++ Show.str_int (Z.of_nat (List.length output_lines))),
                       {| midi_reader := midi_reader w;
                          open_error := open_error w;
                          write_error := write_error w;
                          files :=
                            <[output_file := file_text output_lines]> (files w) |})
                  end
              end
          end
      end
  end.

(** The lines a call produces for the file [mid]: [None] when it returns
    before it builds any. *)
Definition lines_of (mid : MidiFile) : exc (option (list line)) :=
  let x := extract mid in
  match events x with
  | [] => Ok None
  | _ :: _ => letE output_lines := convert mid x in Ok (Some output_lines)
  end.

(** ** Lines with the time of the event that produced them *)

(** The lines appended between two states of the last loop. *)
Definition new_lines (s s' : serializer) : list line :=
  skipn (List.length (output_lines s)) (output_lines s').

(** The loop over [grouped_events] once more, this time collecting every
    appended line together with the time of the event in whose iteration
    it was appended. *)
Fixpoint serialize_trace (ticks_per_beat : Z)
    (grouped_events : list grouped_event) (s : serializer)
  : exc (list (Z * line)) :=
  match grouped_events with
  | [] => Ok []
  | g :: rest =>
      letE s' := on_grouped ticks_per_beat s g in
      letE trace := serialize_trace ticks_per_beat rest s' in
      Ok (map (pair (grouped_time g)) (new_lines s s') ++ trace)%list
  end.

(** The timed lines of a conversion (all but the two initial lines). *)
Definition convert_trace (mid : MidiFile) (x : extractor)
  : exc (list (Z * line)) :=
  letE bpm :=
    truediv 60000000 (inject_Z (dict_get 0 500000 (tempo_changes x))) in
  serialize_trace (ticks_per_beat mid) (merged (ticks_per_beat mid) x)
    (serializer_init (first_instrument (events x)) bpm).

(** ** Vocabulary for the statements *)

(** A message that puts an entry into [events]. *)
Definition is_note_message (msg : message) : bool :=
  match msg with
  | Msg_note_on _ _ velocity _ => 0 <=? velocity
  | Msg_note_off _ _ _ _ => true
  | _ => false
  end.

(** A note_on within the tolerance of the anchor time. *)
Definition near (tolerance : Q) (time : Z) (e : event) : bool :=
  match e with
  | note_on other_time _ _ _ _ => within tolerance time other_time
  | note_off _ _ _ => false
  end.

Definition event_note (e : event) : Z :=
  match e with
  | note_on _ note _ _ _ | note_off _ note _ => note
  end.

(** What holds of the chords already made, given the processed times. *)
Definition chord_ok (processed_times : gset Z) (g : grouped_event) : Prop :=
  grouped_time g ∈ processed_times
  /\ exists time notes program, g = chord time notes program /\ notes <> [].

Definition is_BPM (l : line) : bool :=
  match l with
  | BPM _ => true
  | _ => false
  end.

Definition is_Note (l : line) : bool :=
  match l with
  | Note _ => true
  | _ => false
  end.

(** A chord appends no [BPM] line and a tempo change no [Note] line. *)
Definition line_fits (g : grouped_event) (l : line) : Prop :=
  if is_chord g then is_BPM l = false else is_Note l = false.



End Converter.
Export Converter.

(* ===================================================================== *)
(** * Sample inputs *)
(* ===================================================================== *)

Module Examples.

(** A world whose reader returns [mid] for every path, in which every
    file can be written, and no file has been written yet. *)
Definition world_of (mid : MidiFile) : world :=
  {| midi_reader := fun _ => Ok mid;
     open_error := fun _ => None;
     write_error := fun _ _ => None;
     files := ∅ |}.

(** Two tracks: the tempo 500000 at tick 0; one note 60 from tick 0 to
    tick 480, program 0. *)
Definition scenario (channel velocity : Z) : MidiFile :=
  {| ticks_per_beat := 480;
     tracks := [ [Msg_set_tempo 500000 0];
                 [Msg_note_on channel 60 velocity 0;
                  Msg_note_off channel 60 0 480] ] |}.

(** Tempo and meta messages only. *)
Definition tempo_only : MidiFile :=
  {| ticks_per_beat := 480;
     tracks := [ [Msg_set_tempo 500000 0; Msg_other 0; Msg_set_tempo 400000 960] ] |}.

(** No note_on at all, and one note_off. *)
Definition note_off_only : MidiFile :=
  {| ticks_per_beat := 480;
     tracks := [ [Msg_set_tempo 500000 0];
                 [Msg_note_off 0 60 0 480] ] |}.

(** A tempo change and a note at the same tick 480. *)
Definition tempo_at_chord : MidiFile :=
  {| ticks_per_beat := 480;
     tracks := [ [Msg_set_tempo 600000 480];
                 [Msg_note_on 0 60 64 480;
                  Msg_note_off 0 60 0 480] ] |}.

(** The same with another note at tick 960. *)
Definition tempo_between_chords : MidiFile :=
  {| ticks_per_beat := 480;
     tracks := [ [Msg_set_tempo 600000 480];
                 [Msg_note_on 0 60 64 480;
                  Msg_note_off 0 60 0 480;
                  Msg_note_on 0 62 64 0;
                  Msg_note_off 0 62 0 480] ] |}.

(** Two note_ons, the second [gap] ticks after the first. *)
Definition two_notes (gap : Z) : MidiFile :=
  {| ticks_per_beat := 480;
     tracks := [ [Msg_note_on 0 60 64 0; Msg_note_on 0 64 64 gap] ] |}.

(** Two note_ons at tick 0 in a file whose division field is negative
    (the time code form of the field, which the reader hands on as a
    negative [ticks_per_beat]). *)
Definition negative_resolution : MidiFile :=
  {| ticks_per_beat := -480;
     tracks := [ [Msg_note_on 0 60 64 0; Msg_note_on 0 64 64 0] ] |}.

End Examples.

(* ===================================================================== *)
(** * More vocabulary for the statements *)
(* ===================================================================== *)

Module Vocabulary.

(** Ticks elapsed over a run of messages: the sum of their delta times. *)
Fixpoint elapsed (msgs : list message) : Z :=
  match msgs with
  | [] => 0
  | msg :: rest => msg_time msg + elapsed rest
  end.

(** The program in effect after a run of messages, starting from
    [current]: that of the last program_change, if there is one. *)
Fixpoint program_after (current : Z) (msgs : list message) : Z :=
  match msgs with
  | [] => current
  | Msg_program_change _ program _ :: rest => program_after program rest
  | _ :: rest => program_after current rest
  end.

(** The number of note messages of a file. *)
Definition note_message_count (mid : MidiFile) : nat :=
  list_sum (map (fun track => List.length (List.filter is_note_message track))
                (tracks mid)).

(** The event a note message appends. *)
Definition event_of (absolute_time current_program : Z) (msg : message)
  : option event :=
  match msg with
  | Msg_note_on channel note velocity _ =>
      if velocity >? 0
      then Some (note_on absolute_time note velocity channel current_program)
      else if velocity =? 0 then Some (note_off absolute_time note channel)
      else None
  | Msg_note_off channel note _ _ => Some (note_off absolute_time note channel)
  | _ => None
  end.


(** The keys of the tempo table: no key twice, and the key 0. *)
Definition table_ok (d : dict) : Prop :=
  NoDup (map fst d) /\ In 0 (map fst d).


(** No set_tempo of the messages falls on tick 0, counting from tick
    [t0]. *)
Fixpoint no_tempo_at_zero (t0 : Z) (msgs : list message) : bool :=
  match msgs with
  | [] => true
  | msg :: rest =>
      match msg with
      | Msg_set_tempo _ time => negb (t0 + time =? 0)
      | _ => true
      end
      && no_tempo_at_zero (t0 + msg_time msg) rest
  end.

(** The chord the grouping loop makes of an anchor: the notes of every
    note_on of [all] within the tolerance of the anchor time. *)
Definition chord_of (tolerance : Q) (all : list event) (time program : Z)
  : grouped_event :=
  chord time (map event_note (List.filter (near tolerance time) all)) program.

(** A chord made of an anchor that is a note_on of [all]. *)
Definition anchored (tolerance : Q) (all : list event) (g : grouped_event) : Prop :=
  exists time note velocity channel program,
    In (note_on time note velocity channel program) all
    /\ g = chord_of tolerance all time program.

(** The processed times are the times of the note_ons near a chord made
    so far. *)
Definition processed_ok (tolerance : Q) (all : list event)
    (grouped : list grouped_event) (P : gset Z) : Prop :=
  forall x : Z,
    x ∈ P <-> exists g e, In g grouped /\ In e all
                          /\ near tolerance (grouped_time g) e = true
                          /\ event_time e = x.

(** Two chord times further apart than the tolerance. *)
Definition apart_times (tolerance : Q) (g1 g2 : grouped_event) : Prop :=
  within tolerance (grouped_time g1) (grouped_time g2) = false.

(** The instruments of the [Instr] lines, in order. *)
Fixpoint instruments (lines : list line) : list Z :=
  match lines with
  | [] => []
  | Instr i :: rest => i :: instruments rest
  | _ :: rest => instruments rest
  end.

(** The tempos of the [BPM] lines, in order. *)
Fixpoint tempos (lines : list line) : list Q :=
  match lines with
  | [] => []
  | BPM b :: rest => b :: tempos rest
  | _ :: rest => tempos rest
  end.

(** The notes of the [Note] lines, in order. *)
Fixpoint note_lines (lines : list line) : list (list Z) :=
  match lines with
  | [] => []
  | Note notes :: rest => notes :: note_lines rest
  | _ :: rest => note_lines rest
  end.

(** The notes of the chords of a list of grouped events, in order. *)
Fixpoint chord_notes (gs : list grouped_event) : list (list Z) :=
  match gs with
  | [] => []
  | chord _ notes _ :: rest => notes :: chord_notes rest
  | tempo _ _ :: rest => chord_notes rest
  end.

(** No two neighbours of the list are related. *)
Fixpoint changes {A : Type} (R : A -> A -> Prop) (l : list A) : Prop :=
  match l with
  | a :: rest =>
      match rest with
      | b :: _ => ~ R a b
      | [] => True
      end
      /\ changes R rest
  | [] => True
  end.

Definition is_Rest (l : line) : bool :=
  match l with
  | Rest _ => true
  | _ => false
  end.

(** Every [Rest] line is at least a 128th note long and has a [Note]
    line right after it. *)
Fixpoint rests_before_notes (lines : list line) : Prop :=
  match lines with
  | [] => True
  | l :: rest =>
      match l with
      | Rest r =>
          (1 # 32 <= number_value r)%Q
          /\ match rest with
             | Note _ :: _ => True
             | _ => False
             end
      | _ => True
      end
      /\ rests_before_notes rest
  end.


(** What the state of the last loop records about the lines written. *)
Definition state_ok (s : serializer) : Prop :=
  last (instruments (output_lines s)) = Some (last_instrument s)
  /\ last (tempos (output_lines s)) = Some (current_bpm s)
  /\ changes eq (instruments (output_lines s))
  /\ changes Qeq (tempos (output_lines s))
  /\ rests_before_notes (output_lines s)
  /\ (forall l, last (output_lines s) = Some l -> is_Rest l = false).

(** The lines one event appends. *)
Inductive chunk (s : serializer) : grouped_event -> serializer -> Prop :=
| chunk_tempo_same time new_tempo :
    chunk s (tempo time new_tempo) s
| chunk_tempo_new time new_tempo new_bpm :
    ~ (new_bpm == current_bpm s)%Q ->
    chunk s (tempo time new_tempo)
      {| previous_time := previous_time s;
         current_bpm := new_bpm;
         last_instrument := last_instrument s;
         output_lines := output_lines s ++ [BPM new_bpm] |}
| chunk_chord time notes program instr rest :
    (instr = [] /\ gm_to_scratch_instrument program = last_instrument s
     \/ instr = [Instr (gm_to_scratch_instrument program)]
        /\ gm_to_scratch_instrument program <> last_instrument s) ->
    (rest = [] \/ exists r, rest = [Rest r] /\ (1 # 32 <= number_value r)%Q) ->
    chunk s (chord time notes program)
      {| previous_time := time;
         current_bpm := current_bpm s;
         last_instrument := gm_to_scratch_instrument program;
         output_lines := output_lines s ++ instr ++ rest ++ [Note notes] |}.


(** A message without what the output does not show: the channel is 0,
    and a positive velocity is 1. *)
Definition plain (msg : message) : message :=
  match msg with
  | Msg_note_on _ note velocity time =>
      Msg_note_on 0 note (if velocity >? 0 then 1 else velocity) time
  | Msg_note_off _ note _ time => Msg_note_off 0 note 0 time
  | Msg_program_change _ program time => Msg_program_change 0 program time
  | Msg_set_tempo new_tempo time => Msg_set_tempo new_tempo time
  | Msg_other time => Msg_other time
  end.

Definition plain_file (mid : MidiFile) : MidiFile :=
  {| ticks_per_beat := ticks_per_beat mid;
     tracks := map (map plain) (tracks mid) |}.

Definition plain_event (e : event) : event :=
  match e with
  | note_on time note _ _ program => note_on time note 1 0 program
  | note_off time note _ => note_off time note 0
  end.

Definition plain_extractor (x : extractor) : extractor :=
  {| events := map plain_event (events x);
     current_tempo := current_tempo x;
     tempo_changes := tempo_changes x |}.

(** A message with the end of a note taken out: a note_off, and a
    note_on of velocity 0, becomes a message that only takes its time. *)
Definition without_note_off (msg : message) : message :=
  match msg with
  | Msg_note_on channel note velocity time =>
      if velocity =? 0 then Msg_other time else msg
  | Msg_note_off _ _ _ time => Msg_other time
  | _ => msg
  end.

Definition without_note_offs (mid : MidiFile) : MidiFile :=
  {| ticks_per_beat := ticks_per_beat mid;
     tracks := map (map without_note_off) (tracks mid) |}.

Definition note_ons_only (x : extractor) : extractor :=
  {| events := List.filter is_note_on (events x);
     current_tempo := current_tempo x;
     tempo_changes := tempo_changes x |}.


(** Every [Note] line but the first has a [Rest] line right before it;
    [prev] is the line before the list and [seen] tells whether a [Note]
    line came before. *)
Fixpoint rested (prev : option line) (seen : bool) (lines : list line) : Prop :=
  match lines with
  | [] => True
  | l :: rest =>
      match l with
      | Note _ => seen = true -> exists r, prev = Some (Rest r)
      | _ => True
      end
      /\ rested (Some l) (seen || is_Note l) rest
  end.

(** The chords of a list of grouped events, in order. *)
Definition chords_of (gs : list grouped_event) : list grouped_event :=
  List.filter is_chord gs.

(** Later in the list means later by more than the tolerance. *)
Definition later_by (tolerance : Q) (g1 g2 : grouped_event) : Prop :=
  (tolerance < inject_Z (grouped_time g2 - grouped_time g1))%Q.

(** A [Note] line is among the lines. *)
Definition has_note (lines : list line) : bool := existsb is_Note lines.

End Vocabulary.
Export Vocabulary.

(* ===================================================================== *)
(** * The window: [MidiConverterGUI] *)
(* ===================================================================== *)

Module Gui.

(** [tk.NORMAL] and [tk.DISABLED] *)
Inductive widget_state : Type := NORMAL | DISABLED.

(** A message box shown to the user. *)
Inductive dialog : Type :=
| showinfo (title message : string)
| showerror (title message : string).

(** The attribute [midi_file] and the options of the widgets that the
    methods set: the text of [file_label], the state of [convert_btn],
    the value of [progress], the text and the colour of [status_label]
    ([None] is the colour the label is created with). *)
Record MidiConverterGUI : Type := {
  midi_file : option string;
  file_label_text : string;
  convert_btn_state : widget_state;
  progress_value : Q;
  status_label_text : string;
  status_label_fg : option string
}.

(** The object after [__init__]. *)
Definition init : MidiConverterGUI :=
  {| midi_file := None;
     file_label_text := "No file selected";
     convert_btn_state := DISABLED;
     progress_value := 0;
     status_label_text := "";
     status_label_fg := None |}.

(** What a call of [convert] leaves: the object, the world, the message
    boxes shown, and the exception that escaped, if one did. *)
Record outcome : Type := {
  gui_after : MidiConverterGUI;
  world_after : world;
  dialogs : list dialog;
  raised : option string
}.

Section OsPath.

(** [os.path.basename] and [os.path.splitext(p)[0]] *)
Variable basename : string -> string.
Variable splitext_root : string -> string.

(** [browse_file]; [filename] is what the file dialog returns, the empty
    string when the user cancels. *)
Definition browse_file (filename : string) (g : MidiConverterGUI)
  : MidiConverterGUI :=
  match filename with
  | EmptyString => g
  | String _ _ =>
      {| midi_file := Some filename;
         file_label_text := basename filename;
         convert_btn_state := NORMAL;
         progress_value := progress_value g;
         status_label_text := "";
         status_label_fg := status_label_fg g |}
  end.

(** [update_progress] *)
Definition update_progress (value : Q) (g : MidiConverterGUI) : MidiConverterGUI :=
  {| midi_file := midi_file g;
     file_label_text := file_label_text g;
     convert_btn_state := convert_btn_state g;
     progress_value := value;
     status_label_text := status_label_text g;
     status_label_fg := status_label_fg g |}.

(** The name of the output file. *)
Definition output_path (path : string) : string :=
  splitext_root path ++ "_scratch.txt".

(** The value of the progress bar when [midi_to_scratch] raises: the last
    value the grouping loop reported, or 0 when the exception comes
    before that loop. *)
Definition progress_at_raise (path : string) (w : world) : Q :=
  match midi_reader w path with
  | Ok mid =>
      let x := extract mid in
      match truediv 60000000 (inject_Z (dict_get 0 500000 (tempo_changes x))) with
      | Ok _ => List.last (progress_reports (events x)) 0%Q
      | Raise _ => 0%Q
      end
  | Raise _ => 0%Q
  end.

(** [convert] *)
Definition convert (g : MidiConverterGUI) (w : world) : outcome :=
  match midi_file g with
  | None | Some EmptyString =>
      {| gui_after := g; world_after := w; dialogs := []; raised := None |}
  | Some path =>
      let output_file := output_path path in
      match midi_to_scratch path output_file w with
      | (Raise e, w') =>
          {| gui_after :=
               {| midi_file := midi_file g;
                  file_label_text := file_label_text g;
                  convert_btn_state := DISABLED;
                  progress_value := progress_at_raise path w;
                  status_label_text := "Converting...";
                  status_label_fg := status_label_fg g |};
             world_after := w';
             dialogs := [];
             raised := Some e |}
      | (Ok (success, message), w') =>
          {| gui_after :=
               {| midi_file := midi_file g;
                  file_label_text := file_label_text g;
                  convert_btn_state := NORMAL;
                  progress_value := 100;
                  status_label_text :=
                    if success then "Conversion complete!" else "Conversion failed!";
                  status_label_fg := Some (if success then "green" else "red") |};
             world_after := w';
             dialogs :=
               [if success then showinfo "Success!" message
                else showerror "Error" message];
             raised := None |}
      end
  end.

(** What the user does: choose a file in the dialog (or cancel, with the
    empty string), or click the convert button. *)
Inductive action : Type :=
| Browse (filename : string)
| ClickConvert.

(** One action; a click on a disabled button calls nothing. *)
Definition step (gw : MidiConverterGUI * world) (a : action)
  : MidiConverterGUI * world :=
  match a with
  | Browse filename => (browse_file filename (fst gw), snd gw)
  | ClickConvert =>
      match convert_btn_state (fst gw) with
      | DISABLED => gw
      | NORMAL =>
          let o := convert (fst gw) (snd gw) in (gui_after o, world_after o)
      end
  end.

(** The session: the actions in order, from the new window. *)
Definition run (actions : list action) (w : world) : MidiConverterGUI * world :=
  fold_left step actions (init, w).

(** The output files of the file names chosen in a session. *)
Definition output_paths (actions : list action) : list string :=
  flat_map (fun a => match a with
                     | Browse (String c s) => [output_path (String c s)]
                     | _ => []
                     end) actions.

(** What holds of the window whatever the user has done. *)
Definition session_ok (actions : list action) (g : MidiConverterGUI) : Prop :=
  (convert_btn_state g = NORMAL ->
   exists c s, midi_file g = Some (String c s))
  /\ (forall p, midi_file g = Some p ->
        p <> EmptyString
        /\ In (output_path p)
              (output_paths actions)).

End OsPath.

End Gui.

Import Float.

(* ===================================================================== *)
(** * Properties of the instrument mapper *)
(* ===================================================================== *)

Section InstrumentFacts.

(** A boolean property that holds on 0..127 by enumeration holds for every
    program in the interval. *)
Lemma forall_programs (f : Z -> bool) :
  forallb f (map Z.of_nat (seq 0 128)) = true ->
  forall p : Z, 0 <= p <= 127 -> f p = true.
Proof.
  intros Hall p Hp.
  rewrite forallb_forall in Hall.
  apply Hall.
  apply in_map_iff. exists (Z.to_nat p). split.
  - lia.
  - apply in_seq. lia.
Qed.

Lemma in_range_spec (x : Z) (r : range) :
  in_range x r = true <-> fst r <= x < snd r.
Proof. unfold in_range. rewrite andb_true_iff, Z.leb_le, Z.ltb_lt. tauto. Qed.

(** A successful lookup comes from an item whose range holds the program. *)
Lemma lookup_range_Some (p i : Z) (items : list (range * Z)) :
  lookup_range p items = Some i ->
  exists r, In (r, i) items /\ in_range p r = true.
Proof.
  induction items as [|[r j] rest IH]; simpl; [discriminate|].
  destruct (in_range p r) eqn:Hr.
  - intros [= ->]. exists r. auto.
  - intros H. destruct (IH H) as (r' & Hin & Hr'). exists r'. auto.
Qed.

(** The lookup fails exactly when no range holds the program. *)
Lemma lookup_range_None (p : Z) (items : list (range * Z)) :
  lookup_range p items = None <->
  forall r i, In (r, i) items -> in_range p r = false.
Proof.
  induction items as [|[r j] rest IH]; simpl.
  - split; [intros _ ? ? []|reflexivity].
  - destruct (in_range p r) eqn:Hr.
    + split; [discriminate|]. intros H.
      specialize (H r j (or_introl eq_refl)). congruence.
    + rewrite IH. split.
      * intros H r' i [[= <- <-]|Hin]; eauto.
      * intros H r' i Hin. eauto.
Qed.

(** Every range of the table lies inside [0, 128). *)
Lemma instrument_map_bounds :
  Forall (fun item : range * Z => 0 <= fst (fst item) /\ snd (fst item) <= 128)
         instrument_map.
Proof. unfold instrument_map. repeat constructor; simpl; lia. Qed.

Lemma apart_disjoint (r1 r2 : range) :
  apart r1 r2 = true -> disjoint_ranges r1 r2.
Proof.
  unfold apart, disjoint_ranges. intros H x [H1 H2].
  apply in_range_spec in H1, H2.
  apply orb_true_iff in H. rewrite !Z.leb_le in H. lia.
Qed.

Lemma all_apart_pairs (rs : list range) :
  all_apart rs = true -> ForallOrdPairs disjoint_ranges rs.
Proof.
  induction rs as [|r rest IH]; simpl; intros H.
  - constructor.
  - apply andb_true_iff in H as [H1 H2]. constructor.
    + rewrite forallb_forall in H1. apply Forall_forall.
      intros r' Hin. apply apart_disjoint. apply H1.
      apply list_elem_of_In. apply Hin.
    + auto.
Qed.

End InstrumentFacts.

(** C4. For every program in 0..127 the mapper returns an instrument in
    1..21 and the lookup finds a range (the default is not reached); the
    table has 26 ranges, pairwise disjoint, whose union is exactly 0..127;
    every program outside 0..127 gets the default 1. *)
Theorem gm_to_scratch_instrument_total :
  (forall p : Z, 0 <= p <= 127 ->
     1 <= gm_to_scratch_instrument p <= 21
     /\ lookup_range p instrument_map <> None)
  /\ List.length instrument_map = 26%nat
  /\ ForallOrdPairs disjoint_ranges (map fst instrument_map)
  /\ (forall p : Z,
        (exists r, In r (map fst instrument_map) /\ in_range p r = true)
        <-> 0 <= p <= 127)
  /\ (forall p : Z, ~ (0 <= p <= 127) ->
        lookup_range p instrument_map = None
        /\ gm_to_scratch_instrument p = 1).
Proof.
  assert (Hin : forall p : Z, 0 <= p <= 127 ->
            1 <= gm_to_scratch_instrument p <= 21
            /\ lookup_range p instrument_map <> None).
  { intros p Hp.
    pose (f := fun p => (1 <=? gm_to_scratch_instrument p)
                        && (gm_to_scratch_instrument p <=? 21)
                        && match lookup_range p instrument_map with
                           | Some _ => true | None => false end).
    assert (Hf : f p = true) by (apply forall_programs; [vm_compute; reflexivity|exact Hp]).
    unfold f in Hf. apply andb_true_iff in Hf as [Hf H3].
    apply andb_true_iff in Hf as [H1 H2].
    apply Z.leb_le in H1, H2. split; [lia|].
    destruct (lookup_range p instrument_map); [discriminate|discriminate]. }
  assert (Hout : forall p : Z, ~ (0 <= p <= 127) ->
            lookup_range p instrument_map = None).
  { intros p Hp. apply lookup_range_None. intros r i Hri.
    pose proof instrument_map_bounds as Hb.
    rewrite Forall_forall in Hb. specialize (Hb (r, i)).
    destruct (in_range p r) eqn:Hr; [|reflexivity].
    apply in_range_spec in Hr. simpl in Hb.
    assert (0 <= fst r /\ snd r <= 128) by (apply Hb; apply list_elem_of_In; exact Hri).
    lia. }
  split; [exact Hin|].
  split; [reflexivity|].
  split; [apply all_apart_pairs; vm_compute; reflexivity|].
  split.
  - intros p. split.
    + intros (r & Hr & Hp).
      destruct (Z_le_dec 0 p) as [H0|H0]; [destruct (Z_le_dec p 127) as [H1|H1]|]; [lia| |].
      all: exfalso; apply in_map_iff in Hr as ([r' i] & <- & Hri);
        assert (Hn : lookup_range p instrument_map = None) by (apply Hout; lia);
        rewrite lookup_range_None in Hn; specialize (Hn _ _ Hri); simpl in Hp; congruence.
    + intros Hp. destruct (Hin p Hp) as [_ Hl].
      destruct (lookup_range p instrument_map) as [i|] eqn:E; [|congruence].
      apply lookup_range_Some in E as (r & Hri & Hr).
      exists r. split; [|exact Hr].
      apply in_map_iff. exists (r, i). auto.
  - intros p Hp. split; [auto|].
    unfold gm_to_scratch_instrument. rewrite (Hout p Hp). reflexivity.
Qed.

(** The mapper at a concrete program inside and one outside the domain. *)
Lemma gm_to_scratch_instrument_total_witness :
  (1 <= gm_to_scratch_instrument 60 <= 21
   /\ lookup_range 60 instrument_map <> None)
  /\ (lookup_range 128 instrument_map = None
      /\ gm_to_scratch_instrument 128 = 1).
Proof.
  split.
  - apply (proj1 gm_to_scratch_instrument_total 60). lia.
  - apply (proj2 (proj2 (proj2 (proj2 gm_to_scratch_instrument_total))) 128). lia.
Defined.

(* ===================================================================== *)
(** * Properties of the float model *)
(* ===================================================================== *)

Section FloatFacts.

Import Float.
Local Open Scope Q_scope.

Lemma Qltb_lt (x y : Q) : Qltb x y = true <-> x < y.
Proof.
  unfold Qltb. rewrite negb_true_iff. split.
  - intros H. apply Qnot_le_lt. intros Hle. apply Qle_bool_iff in Hle. congruence.
  - intros H. destruct (Qle_bool y x) eqn:E; [|reflexivity].
    apply Qle_bool_iff in E. apply Qlt_not_le in H. contradiction.
Qed.

Lemma Qltb_ge (x y : Q) : Qltb x y = false <-> y <= x.
Proof.
  unfold Qltb. rewrite negb_false_iff. apply Qle_bool_iff.
Qed.

Lemma Qleb_le (x y : Q) : Qleb x y = true <-> x <= y.
Proof. apply Qle_bool_iff. Qed.

Lemma two_power_pos (z : Z) : 0 < 2 ^ z.
Proof. apply Qpower_0_lt. reflexivity. Qed.

Lemma floor_log2_le (q : Q) : 0 < q -> 2 ^ floor_log2 q <= q.
Proof.
  intros Hq. unfold floor_log2.
  destruct (Qleb _ q) eqn:E; [apply Qleb_le; exact E|].
  destruct q as [n d]. simpl Qnum in *. simpl Qden in *.
  assert (Hn : (0 < n)%Z) by (unfold Qlt in Hq; simpl in Hq; lia).
  pose proof (Z.log2_spec n Hn) as [Hn1 _].
  pose proof (Z.log2_spec (Zpos d) (Pos2Z.is_pos d)) as [_ Hd2].
  pose proof (Z.log2_nonneg n) as Hln.
  pose proof (Z.log2_nonneg (Zpos d)) as Hld.
  replace (Z.log2 n - Z.log2 (Z.pos d) - 1)%Z
    with (Z.log2 n - Z.succ (Z.log2 (Z.pos d)))%Z by lia.
  rewrite Qpower_minus by discriminate.
  rewrite <- !(Zpower_Qpower 2) by lia.
  set (a := (2 ^ Z.log2 n)%Z) in *.
  set (b := (2 ^ Z.succ (Z.log2 (Z.pos d)))%Z) in *.
  assert (Hb : (0 < b)%Z) by lia.
  assert (Ha : (0 < a)%Z) by (subst a; apply Z.pow_pos_nonneg; lia).
  apply Qle_shift_div_r.
  - change 0 with (inject_Z 0). rewrite <- Zlt_Qlt. exact Hb.
  - unfold Qle, Qmult, inject_Z. simpl. nia.
Qed.

Lemma round_half_even_floor (q : Q) : (Qfloor q <= round_half_even q)%Z.
Proof.
  unfold round_half_even.
  destruct (Qltb _ _); [lia|]. destruct (Qltb _ _); [lia|].
  destruct (Z.even _); lia.
Qed.

Lemma round_half_even_lower (q : Q) : q - 1 <= inject_Z (round_half_even q).
Proof.
  pose proof (Qlt_floor q) as H1.
  pose proof (round_half_even_floor q) as H2.
  rewrite Zle_Qle in H2. rewrite inject_Z_plus in H1.
  change (inject_Z 1) with 1 in H1. lra.
Qed.

Lemma fl_lower (q : Q) : 0 < q -> q * (1 # 2) <= fl q.
Proof.
  intros Hq. unfold fl.
  destruct (Qeq_bool q 0) eqn:E0.
  { apply Qeq_bool_iff in E0. lra. }
  destruct (Qltb q 0) eqn:El.
  { apply Qltb_lt in El. lra. }
  rewrite Qred_correct.
  assert (Ha : Qabs q == q) by (apply Qabs_pos; lra).
  pose proof (floor_log2_le (Qabs q)) as Hl.
  set (l := floor_log2 (Qabs q)) in *.
  set (m := round_half_even _).
  pose proof (round_half_even_lower (Qabs q * 2 ^ (- (l - 52)))) as Hm.
  fold m in Hm.
  assert (Hp : 0 < 2 ^ (l - 52)) by apply two_power_pos.
  assert (Hinv : 2 ^ (- (l - 52)) * 2 ^ (l - 52) == 1).
  { rewrite <- Qpower_plus by discriminate.
    replace (- (l - 52) + (l - 52))%Z with 0%Z by lia. reflexivity. }
  assert (He : 2 ^ (l - 52) <= Qabs q * (1 # 2)).
  { unfold Qminus. replace (l - 52)%Z with (l + - 52)%Z by lia.
    rewrite Qpower_plus by discriminate.
    assert (Hc : 2 ^ (-52) <= 1 # 2) by (vm_compute; discriminate).
    assert (H52 : 0 < 2 ^ (-52)) by apply two_power_pos.
    assert (H2l : 0 < 2 ^ l) by apply two_power_pos.
    assert (Hl' : 2 ^ l <= Qabs q) by (apply Hl; rewrite Ha; exact Hq).
    apply Qmult_le_compat_nonneg; split; auto using Qlt_le_weak. }
  set (p := 2 ^ (l - 52)) in *. set (p' := 2 ^ (- (l - 52))) in *.
  clearbody p p' m.
  assert (Qabs q - p <= inject_Z m * p).
  { assert ((Qabs q * p' - 1) * p <= inject_Z m * p).
    { apply Qmult_le_compat_r; lra. }
    assert ((Qabs q * p' - 1) * p == Qabs q * (p' * p) - p) by ring.
    rewrite Hinv in *. lra. }
  clear Hm Hinv Hl.
  set (w := inject_Z m * p) in *. set (a := Qabs q) in *.
  clearbody w a. lra.
Qed.

(** The model on known values: the double nearest to 0.1, and what
    [repr] prints for some quotients and literals. *)
Example fl_one_tenth : fl 0.1 = 3602879701896397 # 36028797018963968.
Proof. vm_compute. reflexivity. Qed.

Example fl_exact : fl 120 = 120 /\ fl 0.03125 = 1 # 32 /\ fl 16.5 = 33 # 2.
Proof. repeat split; vm_compute; reflexivity. Qed.

Example round_two_places :
  round (lit 2.675) 2 = lit 2.67 /\ round (lit 17.456) 2 = lit 17.46.
Proof. split; vm_compute; reflexivity. Qed.

Example repr_float_samples :
  map Show.repr_float
      [fl 120; fl (60000000 / 600000); fl (60000000 / 700000); lit 0.0833;
       lit 0.03125; lit 1.5; fl (1 / 3); fl 10000000000000000; lit 0.00001234]
  = ["120.0"; "100.0"; "85.71428571428571"; "0.0833";
     "0.03125"; "1.5"; "0.3333333333333333"; "1e+16"; "1.234e-05"]%string.
Proof. vm_compute. reflexivity. Qed.

End FloatFacts.

(** Closed comparisons between literals are settled by evaluation. *)
Ltac closed_Q :=
  match goal with
  | |- (_ < _)%Q => apply Qltb_lt; vm_compute; reflexivity
  | |- (_ <= _)%Q => apply Qleb_le; vm_compute; reflexivity
  | |- ~ (_ == _)%Q =>
      let H := fresh in
      intros H; apply Qeq_bool_iff in H; vm_compute in H; discriminate H
  end.

(* ===================================================================== *)
(** * Properties of the beat quantizer *)
(* ===================================================================== *)

Section QuantizerFacts.

Import Float.
Local Open Scope Q_scope.

(** The [if]/[elif] chain is the threshold ladder over the table. *)
Lemma round_to_musical_beat_snap (x : Q) :
  round_to_musical_beat x = snap ladder x.
Proof. reflexivity. Qed.

(** The guard of the dotted 32th branch: it asks for [0.0825 <= x] and
    [x < 0.05] together. *)
Lemma dotted_32th_guard (x : Q) :
  ~ (Qltb x (lit 0.0825) = false /\ Qltb x (lit 0.05) = true).
Proof.
  intros [H1 H2]. apply Qltb_ge in H1. apply Qltb_lt in H2.
  assert (H : lit 0.05 < lit 0.0825) by closed_Q.
  apply (Qlt_irrefl x).
  eapply Qlt_le_trans; [exact H2|].
  eapply Qle_trans; [apply Qlt_le_weak; exact H|exact H1].
Qed.

(** Dropping that rung does not change the function. *)
Lemma round_to_musical_beat_reachable (x : Q) :
  round_to_musical_beat x = snap ladder_reachable x.
Proof.
  assert (E : ladder_reachable =
              match ladder with
              | r1 :: r2 :: r3 :: r4 :: r5 :: _ :: rest =>
                  r1 :: r2 :: r3 :: r4 :: r5 :: rest
              | _ => []
              end) by (vm_compute; reflexivity).
  rewrite E. unfold ladder. cbv iota beta. cbn [snap].
  unfold round_to_musical_beat.
  destruct (Qltb x (lit 0.027)); [reflexivity|].
  destruct (Qltb x (lit 0.035)); [reflexivity|].
  destruct (Qltb x (lit 0.045)); [reflexivity|].
  destruct (Qltb x (lit 0.0615)); [reflexivity|].
  destruct (Qltb x (lit 0.0825)) eqn:E5; [reflexivity|].
  destruct (Qltb x (lit 0.05)) eqn:E6; [|reflexivity].
  exfalso. apply (dotted_32th_guard x). split; assumption.
Qed.

(** What a ladder returns: the value of one of its rungs, or, past every
    bound, the input rounded to 2 places. *)
Lemma snap_cases (table : list (Q * number)) (x : Q) :
  In (snap table x) (map snd table)
  \/ (snap table x = Float (round x 2)
      /\ Forall (fun bound => bound <= x) (map fst table)).
Proof.
  induction table as [|[bound value] rest IH]; simpl.
  - right. split; [reflexivity|constructor].
  - destruct (Qltb x bound) eqn:E.
    + left. left. reflexivity.
    + destruct IH as [IH|[IH1 IH2]].
      * left. right. exact IH.
      * right. split; [exact IH1|].
        constructor; [apply Qltb_ge; exact E|exact IH2].
Qed.

(** Past every bound the ladder rounds. *)
Lemma snap_past (table : list (Q * number)) (x : Q) :
  Forall (fun bound => bound <= x) (map fst table) ->
  snap table x = Float (round x 2).
Proof.
  induction table as [|[bound value] rest IH]; simpl; intros H.
  - reflexivity.
  - inversion H as [|? ? Hb Hrest]; subst.
    apply Qltb_ge in Hb. rewrite Hb. apply IH. exact Hrest.
Qed.

(** No bound of the table exceeds 16.5. *)
Lemma ladder_bounds : Forall (fun bound => bound <= 16.5) (map fst ladder).
Proof.
  apply List.Forall_forall. intros bound Hin. apply Qleb_le.
  assert (H : forallb (fun b => Qleb b 16.5) (map fst ladder) = true)
    by (vm_compute; reflexivity).
  rewrite forallb_forall in H. apply H. exact Hin.
Qed.

(** From 16.5 on, rounding to 2 places gives more than 8. *)
Lemma round_past_ladder (x : Q) : 16.5 <= x -> 8 < round x 2.
Proof.
  intros Hx. unfold round.
  set (r := round_half_even _).
  assert (Hr : (1650 <= r)%Z).
  { subst r. eapply Z.le_trans; [|apply round_half_even_floor].
    change 1650%Z with (Qfloor 1650). apply Qfloor_resp_le.
    change (inject_Z (10 ^ 2)) with 100. lra. }
  change (inject_Z (10 ^ 2)) with 100.
  assert (Hv : 16.5 <= inject_Z r / 100).
  { apply Qle_shift_div_l; [reflexivity|].
    rewrite Zle_Qle in Hr. change (inject_Z 1650) with 1650 in Hr. lra. }
  pose proof (fl_lower (inject_Z r / 100)) as Hfl.
  set (v := inject_Z r / 100) in *. clearbody v.
  assert (0 < v) by lra. specialize (Hfl ltac:(assumption)).
  set (w := fl v) in *. clearbody w. lra.
Qed.

End QuantizerFacts.

(** C6. The quantizer is a threshold ladder: it returns the value of the
    first bound of its table, read in source order, that the input falls
    under; the table without the rung that can never fire has ascending
    bounds and gives the same function.  0.79 maps to 1 and 0.81 to 1.5
    (the 0.8 boundary), the bound 0.8 itself maps to 1.5, and every input
    greater than 16.5 is returned rounded to 2 decimal places. *)
Theorem round_to_musical_beat_ladder :
  (forall x : Q, round_to_musical_beat x = snap ladder x)
  /\ (forall x : Q, round_to_musical_beat x = snap ladder_reachable x)
  /\ ascending (map fst ladder_reachable) = true
  /\ round_to_musical_beat (Float.lit 0.79) = Int 1
  /\ round_to_musical_beat (Float.lit 0.81) = Float (Float.lit 1.5)
  /\ round_to_musical_beat (Float.lit 0.8) = Float (Float.lit 1.5)
  /\ (forall x : Q, (16.5 < x)%Q ->
        round_to_musical_beat x = Float (Float.round x 2)).
Proof.
  split; [exact round_to_musical_beat_snap|].
  split; [exact round_to_musical_beat_reachable|].
  split; [vm_compute; reflexivity|].
  split; [vm_compute; reflexivity|].
  split; [vm_compute; reflexivity|].
  split; [vm_compute; reflexivity|].
  intros x Hx. rewrite round_to_musical_beat_snap. apply snap_past.
  eapply List.Forall_impl; [|apply ladder_bounds].
  intros bound Hb. simpl in Hb.
  eapply Qle_trans; [exact Hb|]. apply Qlt_le_weak. exact Hx.
Qed.

(** The last part at the input 17.456, which prints as 17.46. *)
Lemma round_to_musical_beat_ladder_witness :
  (16.5 < 17.456)%Q
  /\ round_to_musical_beat 17.456%Q = Float (Float.round 17.456%Q 2).
Proof.
  split.
  - reflexivity.
  - apply (proj2 (proj2 (proj2 (proj2 (proj2 (proj2
             round_to_musical_beat_ladder))))) 17.456%Q).
    reflexivity.
Defined.

(** C10. For a non-negative input the quantizer never returns 0.1: the
    guard of the dotted 32th branch cannot hold, since an input below 0.05
    is below 0.0825 and is given 0.0833 or a smaller value by an earlier
    branch. *)
Theorem round_to_musical_beat_never_dotted_32th (x : Q) :
  (0 <= x)%Q ->
  ~ number_eq (round_to_musical_beat x) (Float (Float.lit 0.1))
  /\ ~ (Float.Qltb x (Float.lit 0.0825) = false
        /\ Float.Qltb x (Float.lit 0.05) = true)
  /\ ((x < Float.lit 0.05)%Q ->
      (x < Float.lit 0.0825)%Q
      /\ (number_value (round_to_musical_beat x) <= Float.lit 0.0833)%Q).
Proof.
  intros _. split; [|split].
  - rewrite round_to_musical_beat_reachable.
    destruct (snap_cases ladder_reachable x) as [Hin|[Hr Hb]].
    + assert (Hall : forallb
                (fun v => negb (Qeq_bool (number_value v) (Float.lit 0.1)))
                (map snd ladder_reachable) = true) by (vm_compute; reflexivity).
      rewrite forallb_forall in Hall. specialize (Hall _ Hin).
      apply negb_true_iff in Hall. unfold number_eq. simpl number_value at 2.
      intros Heq. apply Qeq_bool_iff in Heq. congruence.
    + rewrite Hr. unfold number_eq. simpl number_value.
      assert (Hx : (16.5 <= x)%Q).
      { assert (Hin : In (Float.lit 16.5) (map fst ladder_reachable))
          by (vm_compute; repeat (first [left; reflexivity | right])).
        rewrite List.Forall_forall in Hb. specialize (Hb _ Hin).
        eapply Qle_trans; [|exact Hb]. closed_Q. }
      pose proof (round_past_ladder x Hx) as H8.
      assert (H01 : (Float.lit 0.1 < 8)%Q) by closed_Q.
      intros Heq. rewrite Heq in H8.
      apply (Qlt_irrefl 8). eapply Qlt_trans; eassumption.
  - apply dotted_32th_guard.
  - intros Hlt.
    assert (H1 : (Float.lit 0.05 < Float.lit 0.0615)%Q) by closed_Q.
    assert (H2 : (Float.lit 0.0615 < Float.lit 0.0825)%Q) by closed_Q.
    assert (Hx : (x < Float.lit 0.0615)%Q) by (eapply Qlt_trans; eassumption).
    split; [eapply Qlt_trans; eassumption|].
    apply Qltb_lt in Hx. unfold round_to_musical_beat.
    destruct (Float.Qltb x (Float.lit 0.027)); [simpl number_value; closed_Q|].
    destruct (Float.Qltb x (Float.lit 0.035)); [simpl number_value; closed_Q|].
    destruct (Float.Qltb x (Float.lit 0.045)); [simpl number_value; closed_Q|].
    rewrite Hx. simpl number_value. closed_Q.
Qed.

Lemma round_to_musical_beat_never_dotted_32th_witness :
  ~ number_eq (round_to_musical_beat 0.04%Q) (Float (Float.lit 0.1))
  /\ ~ (Float.Qltb 0.04%Q (Float.lit 0.0825) = false
        /\ Float.Qltb 0.04%Q (Float.lit 0.05) = true)
  /\ ((0.04 < Float.lit 0.05)%Q ->
      (0.04 < Float.lit 0.0825)%Q
      /\ (number_value (round_to_musical_beat 0.04%Q) <= Float.lit 0.0833)%Q).
Proof.
  apply (round_to_musical_beat_never_dotted_32th 0.04%Q).
  vm_compute. discriminate.
Defined.

(* ===================================================================== *)
(** * Properties of the stable sort *)
(* ===================================================================== *)

Section SortFacts.
Context {A : Type} (key : A -> Z).

Lemma Forall_insert_by (P : A -> Prop) (x : A) (l : list A) :
  Forall P (insert_by key x l) <-> P x /\ Forall P l.
Proof.
  induction l as [|y rest IH]; simpl.
  - rewrite !Forall_cons_iff. tauto.
  - destruct (key x <=? key y).
    + rewrite !Forall_cons_iff. tauto.
    + rewrite !Forall_cons_iff, IH. tauto.
Qed.

Lemma Forall_sort_by (P : A -> Prop) (l : list A) :
  Forall P (sort_by key l) <-> Forall P l.
Proof.
  induction l as [|x rest IH]; simpl; [tauto|].
  rewrite Forall_insert_by, Forall_cons_iff, IH. tauto.
Qed.

Lemma insert_by_sorted (x : A) (l : list A) :
  StronglySorted (key_le key) l -> StronglySorted (key_le key) (insert_by key x l).
Proof.
  induction 1 as [|y rest Hs IH Hy]; simpl.
  - repeat constructor.
  - destruct (key x <=? key y) eqn:E.
    + apply Z.leb_le in E. constructor; [constructor; assumption|].
      constructor; [exact E|].
      eapply List.Forall_impl; [|exact Hy].
      unfold key_le. intros; lia.
    + apply Z.leb_gt in E. constructor; [exact IH|].
      apply Forall_insert_by. split; [unfold key_le; lia|exact Hy].
Qed.

Lemma sort_by_sorted (l : list A) : StronglySorted (key_le key) (sort_by key l).
Proof.
  induction l as [|x rest IH]; simpl; [constructor|].
  apply insert_by_sorted. exact IH.
Qed.

(** Stability: the elements with a given key keep their relative order. *)
Lemma insert_by_filter (k : Z) (x : A) (l : list A) :
  StronglySorted (key_le key) l ->
  List.filter (fun a => key a =? k) (insert_by key x l)
  = List.filter (fun a => key a =? k) (x :: l).
Proof.
  induction 1 as [|y rest Hs IH Hy]; [reflexivity|].
  simpl insert_by. destruct (key x <=? key y) eqn:E; [reflexivity|].
  apply Z.leb_gt in E. simpl. simpl in IH. rewrite IH.
  destruct (key x =? k) eqn:Ex; [|reflexivity].
  destruct (key y =? k) eqn:Ey; [|reflexivity].
  apply Z.eqb_eq in Ex, Ey. lia.
Qed.

Lemma sort_by_stable (k : Z) (l : list A) :
  List.filter (fun a => key a =? k) (sort_by key l)
  = List.filter (fun a => key a =? k) l.
Proof.
  induction l as [|x rest IH]; [reflexivity|].
  simpl sort_by. rewrite insert_by_filter by apply sort_by_sorted.
  simpl. rewrite IH. reflexivity.
Qed.

Lemma insert_by_perm (x : A) (l : list A) :
  Permutation (insert_by key x l) (x :: l).
Proof.
  induction l as [|y rest IH]; simpl; [reflexivity|].
  destruct (key x <=? key y); [reflexivity|].
  rewrite IH. apply perm_swap.
Qed.

Lemma sort_by_perm (l : list A) : Permutation (sort_by key l) l.
Proof.
  induction l as [|x rest IH]; simpl; [reflexivity|].
  rewrite insert_by_perm, IH. reflexivity.
Qed.

Lemma sort_by_nil (l : list A) : sort_by key l = [] <-> l = [].
Proof.
  split; [|intros ->; reflexivity].
  intros H. pose proof (sort_by_perm l) as Hp. rewrite H in Hp.
  apply Permutation_nil in Hp. exact Hp.
Qed.

End SortFacts.

(* ===================================================================== *)
(** * Properties of the chord grouping *)
(* ===================================================================== *)

Lemma fl_nonneg (q : Q) : (0 <= q)%Q -> (0 <= Float.fl q)%Q.
Proof.
  intros Hq. destruct (Qeq_bool q 0) eqn:E.
  - unfold Float.fl. rewrite E. apply Qle_refl.
  - assert (Hpos : (0 < q)%Q).
    { apply Qle_lteq in Hq as [H|H]; [exact H|].
      symmetry in H. apply Qeq_bool_iff in H. congruence. }
    pose proof (fl_lower q Hpos) as H.
    set (w := Float.fl q) in *. clearbody w. lra.
Qed.

Lemma tolerance_nonneg (ticks_per_beat : Z) :
  0 <= ticks_per_beat -> (0 <= tolerance_of ticks_per_beat)%Q.
Proof.
  intros H. unfold tolerance_of. apply fl_nonneg.
  apply Qle_shift_div_l; [reflexivity|].
  rewrite Qmult_0_l. change 0%Q with (inject_Z 0). rewrite <- Zle_Qle. exact H.
Qed.

Section GroupFacts.
Variable tolerance : Q.

(** The notes a scan collects: those of every note_on near the anchor,
    in list order, whatever was processed before. *)
Lemma scan_notes (time : Z) (evs : list event) (acc : list Z) (P : gset Z) :
  fst (scan tolerance time evs acc P)
  = (acc ++ map event_note (List.filter (near tolerance time) evs))%list.
Proof.
  revert acc P. induction evs as [|e rest IH]; intros acc P; simpl.
  - rewrite app_nil_r. reflexivity.
  - destruct e as [other_time note velocity channel program|t n c]; simpl.
    + destruct (within tolerance time other_time); simpl.
      * rewrite IH, <- app_assoc. reflexivity.
      * apply IH.
    + apply IH.
Qed.

(** The times a scan marks: those of the same events, and no other. *)
Lemma scan_processed (time : Z) (evs : list event) (acc : list Z) (P : gset Z) :
  snd (scan tolerance time evs acc P)
  = list_to_set (map event_time (List.filter (near tolerance time) evs)) ∪ P.
Proof.
  revert acc P. induction evs as [|e rest IH]; intros acc P; simpl.
  - rewrite (left_id_L ∅ (∪)). reflexivity.
  - destruct e as [other_time note velocity channel program|t n c]; simpl.
    + destruct (within tolerance time other_time); simpl.
      * rewrite IH, (assoc_L (∪)).
        rewrite (comm_L (∪) _ {[other_time]}). reflexivity.
      * apply IH.
    + apply IH.
Qed.

Lemma near_anchor (time note velocity channel program : Z) :
  (0 <= tolerance)%Q ->
  near tolerance time (note_on time note velocity channel program) = true.
Proof.
  intros H. simpl. unfold within. rewrite Z.sub_diag. simpl.
  apply Qleb_le. exact H.
Qed.

Lemma group_loop_invariant (all todo : list event)
    (grouped : list grouped_event) (P : gset Z) :
  (0 <= tolerance)%Q ->
  (forall e, In e todo -> In e all) ->
  Forall (chord_ok P) grouped ->
  NoDup (map grouped_time grouped) ->
  let r := group_loop tolerance all todo grouped P in
  Forall (chord_ok (snd r)) (fst r) /\ NoDup (map grouped_time (fst r)).
Proof.
  intros Htol. revert grouped P.
  induction todo as [|e rest IH]; intros grouped P Hsub Hok Hnd; simpl.
  - split; assumption.
  - assert (Hrest : forall e', In e' rest -> In e' all)
      by (intros e' He'; apply Hsub; right; exact He').
    destruct e as [time note velocity channel program|t n c].
    + destruct (decide (time ∈ P)) as [Hin|Hnin].
      * apply IH; assumption.
      * pose proof (scan_notes time all [] P) as Hn.
        pose proof (scan_processed time all [] P) as Hp.
        destruct (scan tolerance time all [] P) as [chord_notes P'].
        simpl in Hn, Hp. subst chord_notes P'.
        set (hit := List.filter (near tolerance time) all).
        assert (Hhit : In (note_on time note velocity channel program) hit).
        { apply filter_In. split; [apply Hsub; left; reflexivity|].
          apply near_anchor. exact Htol. }
        apply IH; [exact Hrest| |].
        -- apply Forall_app. split.
           ++ eapply List.Forall_impl; [|exact Hok].
              intros g [Hg1 Hg2]. split; [apply elem_of_union_r; exact Hg1|exact Hg2].
           ++ constructor; [|constructor]. split.
              ** simpl. apply elem_of_union_l. apply elem_of_list_to_set.
                 apply list_elem_of_In.
                 change time with (event_time (note_on time note velocity channel program)).
                 apply in_map. exact Hhit.
              ** exists time, (map event_note hit), program. split; [reflexivity|].
                 destruct hit; [destruct Hhit|discriminate].
        -- rewrite map_app. simpl. apply NoDup_app. split; [exact Hnd|]. split.
           ++ intros x Hx Hx'. apply list_elem_of_In in Hx.
              apply in_map_iff in Hx as (g & <- & Hg).
              rewrite List.Forall_forall in Hok. destruct (Hok g Hg) as [HgP _].
              apply list_elem_of_In in Hx'. destruct Hx' as [Hx'|[]].
              apply Hnin. rewrite Hx'. exact HgP.
           ++ apply NoDup_singleton.
    + apply IH; assumption.
Qed.

End GroupFacts.

(* ===================================================================== *)
(** * Properties of the last loop *)
(* ===================================================================== *)

Lemma bind_Ok {A B : Type} (m : exc A) (k : A -> exc B) (b : B) :
  bind m k = Ok b -> exists a, m = Ok a /\ k a = Ok b.
Proof. destruct m as [a|e]; simpl; [eauto|discriminate]. Qed.

Section SerializerFacts.
Variable ticks_per_beat : Z.

Lemma new_lines_app (s s' : serializer) (new : list line) :
  output_lines s' = (output_lines s ++ new)%list -> new_lines s s' = new.
Proof. intros H. unfold new_lines. rewrite H. apply drop_app_length. Qed.

(** One iteration only appends; a tempo change appends no [Note] line and
    a chord no [BPM] line. *)
Lemma on_grouped_appends (s s' : serializer) (g : grouped_event) :
  on_grouped ticks_per_beat s g = Ok s' ->
  output_lines s' = (output_lines s ++ new_lines s s')%list
  /\ Forall (line_fits g) (new_lines s s').
Proof.
  intros H.
  assert (Hex : exists new,
             output_lines s' = (output_lines s ++ new)%list
             /\ Forall (line_fits g) new).
  { destruct g as [time_point notes program|time_point new_tempo];
      unfold on_grouped in H.
    - apply bind_Ok in H as (s2 & Hrest & Hfin).
      injection Hfin as <-. cbn [output_lines append_line].
      match type of Hrest with
      | context [previous_time ?s1] => set (st := s1) in *
      end.
      assert (H1 : exists n1, output_lines st = (output_lines s ++ n1)%list
                              /\ Forall (line_fits (chord time_point notes program)) n1).
      { subst st. destruct (negb _).
        - eexists. cbn [output_lines append_line]. split; [reflexivity|].
          repeat constructor.
        - exists []. rewrite app_nil_r. split; [reflexivity|constructor]. }
      assert (H2 : exists n2, output_lines s2 = (output_lines st ++ n2)%list
                              /\ Forall (line_fits (chord time_point notes program)) n2).
      { clearbody st. destruct (time_point >? previous_time st).
        - apply bind_Ok in Hrest as (rest_beats & _ & Hk).
          destruct (Qleb _ _); injection Hk as <-.
          + eexists. cbn [output_lines append_line]. split; [reflexivity|].
            repeat constructor.
          + exists []. rewrite app_nil_r. split; [reflexivity|constructor].
        - injection Hrest as <-.
          exists []. rewrite app_nil_r. split; [reflexivity|constructor]. }
      destruct H1 as (n1 & E1 & F1). destruct H2 as (n2 & E2 & F2).
      exists (n1 ++ n2 ++ [Note notes])%list. split.
      + rewrite E2, E1, <- !app_assoc. reflexivity.
      + rewrite !Forall_app. repeat split; try assumption.
        repeat constructor.
    - apply bind_Ok in H as (new_bpm & _ & Hk).
      destruct (negb _); injection Hk as <-.
      + eexists. cbn [output_lines append_line]. split; [reflexivity|].
        repeat constructor.
      + exists []. rewrite app_nil_r. split; [reflexivity|constructor]. }
  destruct Hex as (new & Hnew & Hall).
  rewrite (new_lines_app _ _ _ Hnew). split; assumption.
Qed.

(** The loop and its timed variant: same exceptions, same lines. *)
Lemma serialize_trace_lines (gs : list grouped_event) (s s' : serializer) :
  serialize ticks_per_beat gs s = Ok s' ->
  exists trace,
    serialize_trace ticks_per_beat gs s = Ok trace
    /\ output_lines s' = (output_lines s ++ map snd trace)%list.
Proof.
  revert s. induction gs as [|g rest IH]; intros s H; simpl in H.
  - injection H as <-. exists []. simpl. rewrite app_nil_r. auto.
  - apply bind_Ok in H as (s1 & Hg & Hrest).
    destruct (IH _ Hrest) as (trace & Htr & Hlines).
    simpl. rewrite Hg. simpl. rewrite Htr. simpl.
    eexists. split; [reflexivity|].
    destruct (on_grouped_appends _ _ _ Hg) as [Happ _].
    rewrite Hlines, Happ, map_app, map_map, <- app_assoc. simpl.
    rewrite map_id. reflexivity.
Qed.

Lemma serialize_trace_defined (gs : list grouped_event) (s : serializer)
    (trace : list (Z * line)) :
  serialize_trace ticks_per_beat gs s = Ok trace ->
  exists s', serialize ticks_per_beat gs s = Ok s'.
Proof.
  revert s trace. induction gs as [|g rest IH]; intros s trace H; simpl in *.
  - eauto.
  - apply bind_Ok in H as (s1 & Hg & Hrest).
    apply bind_Ok in Hrest as (tr & Htr & _).
    rewrite Hg. simpl. eauto.
Qed.

(** Every timed line carries the time of an event of the list, and sits
    in the output of that event. *)
Lemma serialize_trace_events (gs : list grouped_event) (s : serializer)
    (trace : list (Z * line)) :
  serialize_trace ticks_per_beat gs s = Ok trace ->
  Forall (fun tl => exists g, In g gs /\ fst tl = grouped_time g
                              /\ line_fits g (snd tl)) trace.
Proof.
  revert s trace. induction gs as [|g rest IH]; intros s trace H; simpl in H.
  - injection H as <-. constructor.
  - apply bind_Ok in H as (s1 & Hg & H).
    apply bind_Ok in H as (tr & Htr & H). injection H as <-.
    destruct (on_grouped_appends _ _ _ Hg) as [_ Hfits].
    apply Forall_app. split.
    + apply List.Forall_forall. intros tl Hin.
      apply in_map_iff in Hin as (l & <- & Hl).
      exists g. simpl. split; [auto|]. split; [reflexivity|].
      rewrite List.Forall_forall in Hfits. auto.
    + eapply List.Forall_impl; [|apply (IH _ _ Htr)].
      intros tl (g' & Hg' & Ht & Hf). exists g'. simpl. auto.
Qed.

End SerializerFacts.

Section OrderFacts.
Variable ticks_per_beat : Z.

Lemma StronglySorted_app_le (l1 l2 : list Z) :
  StronglySorted Z.le l1 -> StronglySorted Z.le l2 ->
  (forall a b, In a l1 -> In b l2 -> a <= b) ->
  StronglySorted Z.le (l1 ++ l2).
Proof.
  intros H1 H2 H12. induction H1 as [|a l1 Hs IH Ha]; simpl; [exact H2|].
  constructor.
  - apply IH. intros x y Hx Hy. apply H12; [right; exact Hx|exact Hy].
  - apply Forall_app. split; [exact Ha|].
    apply List.Forall_forall. intros b Hb. apply H12; [left; reflexivity|exact Hb].
Qed.

Lemma StronglySorted_const (t : Z) (ls : list line) :
  StronglySorted Z.le (map fst (map (pair t) ls)).
Proof.
  induction ls as [|l rest IH]; simpl; constructor; [exact IH|].
  apply List.Forall_forall. intros b Hb.
  rewrite map_map in Hb. simpl in Hb. apply in_map_iff in Hb as (? & <- & _). lia.
Qed.

(** The times of the lines follow the order of the events. *)
Lemma serialize_trace_sorted (gs : list grouped_event) (s : serializer)
    (trace : list (Z * line)) :
  StronglySorted (key_le grouped_time) gs ->
  serialize_trace ticks_per_beat gs s = Ok trace ->
  StronglySorted Z.le (map fst trace).
Proof.
  intros Hs. revert s trace.
  induction Hs as [|g rest Hs IH Hg]; intros s trace H; simpl in H.
  - injection H as <-. constructor.
  - apply bind_Ok in H as (s1 & Hg1 & H).
    apply bind_Ok in H as (tr & Htr & H). injection H as <-.
    rewrite map_app. apply StronglySorted_app_le.
    + apply StronglySorted_const.
    + apply (IH _ _ Htr).
    + intros a b Ha Hb.
      rewrite map_map in Ha. simpl in Ha. apply in_map_iff in Ha as (? & <- & _).
      apply in_map_iff in Hb as (tl & <- & Htl).
      pose proof (serialize_trace_events _ _ _ _ Htr) as Hev.
      rewrite List.Forall_forall in Hev. destruct (Hev _ Htl) as (g' & Hin & -> & _).
      rewrite List.Forall_forall in Hg. apply (Hg g' Hin).
Qed.





End OrderFacts.

Section MergeFacts.




Lemma group_loop_chords (tolerance : Q) (all todo : list event)
    (grouped : list grouped_event) (P : gset Z) :
  Forall (fun g => is_chord g = true) grouped ->
  Forall (fun g => is_chord g = true)
         (fst (group_loop tolerance all todo grouped P)).
Proof.
  revert grouped P. induction todo as [|e rest IH]; intros grouped P H; simpl.
  - exact H.
  - destruct e as [time note velocity channel program|t n c]; [|apply IH; exact H].
    destruct (decide (time ∈ P)); [apply IH; exact H|].
    destruct (scan tolerance time all [] P) as [chord_notes P'].
    apply IH. apply Forall_app. split; [exact H|]. repeat constructor.
Qed.

Lemma tempo_events_tempos (d : dict) :
  Forall (fun g => is_chord g = false) (tempo_events d).
Proof.
  unfold tempo_events. apply List.Forall_forall. intros g Hin.
  apply in_map_iff in Hin as (kv & <- & _). reflexivity.
Qed.



End MergeFacts.

(* ===================================================================== *)
(** * Properties of the extraction *)
(* ===================================================================== *)

Section ExtractFacts.

(** A message adds an entry to [events] exactly when it is a note message. *)
Lemma on_message_events (st : Z * Z * extractor) (msg : message) :
  events (snd (on_message st msg)) = []
  <-> events (snd st) = [] /\ is_note_message msg = false.
Proof.
  destruct st as [[absolute_time current_program] x].
  destruct msg as [channel note velocity t|channel note velocity t
                  |channel program t|new_tempo t|t]; simpl.
  - destruct (velocity >? 0) eqn:E1; simpl.
    + assert ((0 <=? velocity) = true) as -> by lia.
      split; [intros H; apply app_eq_nil in H as [_ H]; discriminate|].
      intros [_ H]. discriminate.
    + destruct (velocity =? 0) eqn:E2; simpl.
      * assert ((0 <=? velocity) = true) as -> by lia.
        split; [intros H; apply app_eq_nil in H as [_ H]; discriminate|].
        intros [_ H]. discriminate.
      * assert ((0 <=? velocity) = false) as -> by lia. tauto.
  - split; [intros H; apply app_eq_nil in H as [_ H]; discriminate|].
    intros [_ H]. discriminate.
  - tauto.
  - tauto.
  - tauto.
Qed.

Lemma fold_on_message_events (track : list message) (st : Z * Z * extractor) :
  events (snd (fold_left on_message track st)) = []
  <-> events (snd st) = []
      /\ Forall (fun msg => is_note_message msg = false) track.
Proof.
  revert st. induction track as [|msg rest IH]; intros st; simpl.
  - split; [intros H; split; [exact H|constructor]|tauto].
  - rewrite IH, on_message_events, Forall_cons_iff. tauto.
Qed.

Lemma fold_on_track_events (ts : list (list message)) (x : extractor) :
  events (fold_left on_track ts x) = []
  <-> events x = []
      /\ Forall (Forall (fun msg => is_note_message msg = false)) ts.
Proof.
  revert x. induction ts as [|track rest IH]; intros x; simpl.
  - split; [intros H; split; [exact H|constructor]|tauto].
  - rewrite IH. unfold on_track. rewrite fold_on_message_events.
    simpl. rewrite Forall_cons_iff. tauto.
Qed.

(** [events] is empty after the extraction exactly when no track holds a
    note message. *)
Lemma extract_events_nil (mid : MidiFile) :
  events (extract mid) = []
  <-> Forall (Forall (fun msg => is_note_message msg = false)) (tracks mid).
Proof.
  unfold extract. simpl. rewrite sort_by_nil, fold_on_track_events.
  simpl. tauto.
Qed.

End ExtractFacts.

(* ===================================================================== *)
(** * The converter as a whole *)
(* ===================================================================== *)

Import Examples.

(** C1, as stated, fails: a file with a note_off and no note_on has zero
    note_on events, and the conversion succeeds and writes two lines. *)
Lemma note_off_only_converts :
  List.filter is_note_on (events (extract note_off_only)) = []
  /\ fst (midi_to_scratch "song.mid" "song_scratch.txt" (world_of note_off_only))
     = Ok (true,
           String.concat newline
             ["Successfully converted!"; "Output: song_scratch.txt";
              "Total lines: 2"])
  /\ files (snd (midi_to_scratch "song.mid" "song_scratch.txt"
                   (world_of note_off_only)))
     = {[ "song_scratch.txt" := String.concat newline ["Instr: 1"; "BPM: 120.0"] ]}.
Proof. repeat split; vm_compute; reflexivity. Qed.

(** C1, amended. When the file is read and no track holds a note message
    (a note_on of velocity 0 or more, or a note_off), and only then, the
    call returns the failure "No note events found in MIDI file!"; the
    world, and so every file, is left as it was.  The message differs
    from that of a read failure. *)
Theorem no_note_events_failure (midi_file output_file : string) (w : world)
    (mid : MidiFile) :
  midi_reader w midi_file = Ok mid ->
  (Forall (Forall (fun msg => is_note_message msg = false)) (tracks mid)
   <-> midi_to_scratch midi_file output_file w
       = (Ok (false, "No note events found in MIDI file!"), w))
  /\ (forall w', snd (midi_to_scratch midi_file output_file w) = w' ->
        fst (midi_to_scratch midi_file output_file w)
        = Ok (false, "No note events found in MIDI file!") ->
        w' = w)
  /\ (forall e : string,
        "No note events found in MIDI file!" <> "Error reading MIDI file: " ++ e).
Proof.
  intros Hread.
  assert (Hiff : events (extract mid) = []
                 <-> midi_to_scratch midi_file output_file w
                     = (Ok (false, "No note events found in MIDI file!"), w)).
  { unfold midi_to_scratch. rewrite Hread.
    destruct (events (extract mid)) as [|e rest] eqn:Eev.
    - tauto.
    - split; [discriminate|].
      destruct (convert mid (extract mid)) as [output_lines|e'];
        [|discriminate].
      destruct (open_error w output_file); [discriminate|].
      destruct (write_error w output_file _) as [[e2 remains]|]; discriminate. }
  split; [rewrite <- extract_events_nil; exact Hiff|].
  split.
  - intros w' <-. unfold midi_to_scratch. rewrite Hread.
    destruct (events (extract mid)) as [|e rest]; [reflexivity|].
    destruct (convert mid (extract mid)) as [output_lines|e'];
      [|discriminate].
    destruct (open_error w output_file); [discriminate|].
    destruct (write_error w output_file _) as [[e2 remains]|]; discriminate.
  - intros e. simpl. discriminate.
Qed.

Lemma no_note_events_failure_witness :
  midi_to_scratch "song.mid" "song_scratch.txt" (world_of tempo_only)
  = (Ok (false, "No note events found in MIDI file!"), world_of tempo_only).
Proof.
  apply (proj1 (no_note_events_failure "song.mid" "song_scratch.txt"
                  (world_of tempo_only) tempo_only eq_refl)).
  repeat constructor.
Defined.




(** C3. The scenario (480 ticks per beat; tempo 500000 at tick 0; note 60
    on at tick 0 with program 0, off at tick 480) gives the three lines
    [Instr: 1], [BPM: 120.0], [Note: 60], and the file holds just these. *)
Theorem end_to_end_scenario (channel velocity : Z) :
  0 < velocity ->
  lines_of (scenario channel velocity) = Ok (Some [Instr 1; BPM 120; Note [60]])
  /\ map line_text [Instr 1; BPM 120; Note [60]]
     = ["Instr: 1"; "BPM: 120.0"; "Note: 60"]
  /\ fst (midi_to_scratch "song.mid" "song_scratch.txt"
            (world_of (scenario channel velocity)))
     = Ok (true,
           String.concat newline
             ["Successfully converted!"; "Output: song_scratch.txt";
              "Total lines: 3"])
  /\ files (snd (midi_to_scratch "song.mid" "song_scratch.txt"
                   (world_of (scenario channel velocity))))
     = {[ "song_scratch.txt"
          := String.concat newline ["Instr: 1"; "BPM: 120.0"; "Note: 60"] ]}.
Proof.
  intros H. destruct velocity as [|v|v]; try lia.
  repeat split; vm_compute; reflexivity.
Qed.

Lemma end_to_end_scenario_witness :
  lines_of (scenario 0 64) = Ok (Some [Instr 1; BPM 120; Note [60]]).
Proof.
  apply (end_to_end_scenario 0 64). lia.
Defined.

(** C5. With 480 ticks per beat the tolerance is 15; note_ons at ticks 0
    and 15 make one chord, note_ons at ticks 0 and 16 make two; the same
    is seen in the lines of a file with two such notes. *)
Theorem chord_tolerance_inclusive (n1 v1 c1 p1 n2 v2 c2 p2 : Z) :
  tolerance_of 480 = 15%Q
  /\ (forall time other_time : Z,
        within (tolerance_of 480) time other_time = true
        <-> Z.abs (other_time - time) <= 15)
  /\ group_chords 480 [note_on 0 n1 v1 c1 p1; note_on 15 n2 v2 c2 p2]
     = [chord 0 [n1; n2] p1]
  /\ group_chords 480 [note_on 0 n1 v1 c1 p1; note_on 16 n2 v2 c2 p2]
     = [chord 0 [n1] p1; chord 16 [n2] p2]
  /\ lines_of (two_notes 15) = Ok (Some [Instr 1; BPM 120; Note [60; 64]])
  /\ lines_of (two_notes 16)
     = Ok (Some [Instr 1; BPM 120; Note [60];
                 Rest (Float (Float.lit 0.04)); Note [64]]).
Proof.
  assert (Htol : tolerance_of 480 = 15%Q) by (vm_compute; reflexivity).
  split; [exact Htol|].
  split.
  { intros time other_time. rewrite Htol. unfold within.
    rewrite Qleb_le. change 15%Q with (inject_Z 15). rewrite <- Zle_Qle.
    reflexivity. }
  repeat split; vm_compute; reflexivity.
Qed.

(** C7, as stated, fails: with the resolution -480 the tolerance is -15,
    no note_on is within it of its own anchor, nothing enters
    [processed_times], and two note_ons at tick 0 give two chords at
    tick 0, both without a note; the lines have two empty [Note] lines. *)
Lemma negative_resolution_chords :
  tolerance_of (-480) = (-15)%Q
  /\ group_chords (ticks_per_beat negative_resolution)
       (events (extract negative_resolution))
     = [chord 0 [] 0; chord 0 [] 0]
  /\ ~ NoDup (map grouped_time
                (group_chords (ticks_per_beat negative_resolution)
                   (events (extract negative_resolution))))
  /\ ~ Forall (fun g => exists time notes program,
                  g = chord time notes program /\ notes <> [])
         (group_chords (ticks_per_beat negative_resolution)
            (events (extract negative_resolution)))
  /\ lines_of negative_resolution
     = Ok (Some [Instr 1; BPM 120; Note []; Note []])
  /\ map line_text [Instr 1; BPM 120; Note []; Note []]
     = ["Instr: 1"; "BPM: 120.0"; "Note: "; "Note: "].
Proof.
  assert (E : group_chords (ticks_per_beat negative_resolution)
                (events (extract negative_resolution))
              = [chord 0 [] 0; chord 0 [] 0]) by (vm_compute; reflexivity).
  split; [vm_compute; reflexivity|].
  split; [exact E|].
  rewrite E. cbn [map grouped_time].
  split.
  { intros H. inversion H as [|x l Hnotin _]. apply Hnotin. constructor. }
  split.
  { intros H. inversion H as [|x l (time & notes & program & Hg & Hne) _].
    injection Hg as _ <- _. apply Hne. reflexivity. }
  split; vm_compute; reflexivity.
Qed.

(** C7, amended. For a resolution that is not negative, the chord events
    have pairwise different times, and each has at least one note. *)
Theorem chord_events_invariant (ticks_per_beat : Z) (events : list event) :
  0 <= ticks_per_beat ->
  NoDup (map grouped_time (group_chords ticks_per_beat events))
  /\ Forall (fun g => exists time notes program,
                 g = chord time notes program /\ notes <> [])
            (group_chords ticks_per_beat events).
Proof.
  intros Htpb. unfold group_chords.
  destruct (group_loop_invariant (tolerance_of ticks_per_beat) events events [] ∅)
    as [Hok Hnd].
  - apply tolerance_nonneg. exact Htpb.
  - auto.
  - constructor.
  - constructor.
  - split; [exact Hnd|].
    eapply List.Forall_impl; [|exact Hok]. intros g [_ Hg]. exact Hg.
Qed.

Lemma chord_events_invariant_witness :
  NoDup (map grouped_time
           (group_chords 480 [note_on 0 60 64 0 0; note_on 15 64 64 0 0;
                              note_on 30 67 64 0 0]))
  /\ Forall (fun g => exists time notes program,
                 g = chord time notes program /\ notes <> [])
            (group_chords 480 [note_on 0 60 64 0 0; note_on 15 64 64 0 0;
                               note_on 30 67 64 0 0]).
Proof.
  apply (chord_events_invariant 480). lia.
Defined.

(** C8. When the conversion succeeds, the lines written are an [Instr]
    line, a [BPM] line, and then the lines of the loop, whose event times
    never decrease. *)
Theorem output_order (midi_file output_file : string) (w w' : world)
    (message : string) :
  midi_to_scratch midi_file output_file w = (Ok (true, message), w') ->
  exists (mid : MidiFile) (first : Z) (bpm : Q) (trace : list (Z * line)),
    midi_reader w midi_file = Ok mid
    /\ convert_trace mid (extract mid) = Ok trace
    /\ lines_of mid = Ok (Some (Instr first :: BPM bpm :: map snd trace))
    /\ files w' !! output_file
       = Some (file_text (Instr first :: BPM bpm :: map snd trace))
    /\ map line_text (Instr first :: BPM bpm :: map snd trace)
       = ("Instr: " ++ Show.str_int first) :: ("BPM: " ++ Show.repr_float bpm)
           :: map line_text (map snd trace)
    /\ StronglySorted Z.le (map fst trace).
Proof.
  unfold midi_to_scratch. intros H.
  destruct (midi_reader w midi_file) as [mid|e] eqn:Hread; [|discriminate].
  destruct (events (extract mid)) as [|e0 rest] eqn:Hev; [discriminate|].
  destruct (convert mid (extract mid)) as [output_lines|e] eqn:Hconv;
    [|discriminate].
  destruct (open_error w output_file) as [e|]; [discriminate|].
  destruct (write_error w output_file _) as [[e remains]|]; [discriminate|].
  injection H as _ <-.
  unfold convert in Hconv.
  apply bind_Ok in Hconv as (bpm & Hbpm & Hconv).
  apply bind_Ok in Hconv as (s & Hs & Hconv). injection Hconv as <-.
  destruct (serialize_trace_lines _ _ _ _ Hs) as (trace & Htr & Hlines).
  cbn [output_lines serializer_init app] in Hlines.
  exists mid, (first_instrument (events (extract mid))), bpm, trace.
  split; [reflexivity|].
  split; [unfold convert_trace; rewrite Hbpm; exact Htr|].
  split.
  { unfold lines_of. cbv zeta. unfold convert. rewrite Hbpm. cbn [bind].
    rewrite Hs. cbn [bind]. rewrite Hlines, Hev. reflexivity. }
  split.
  { simpl. rewrite lookup_insert_eq, Hlines. reflexivity. }
  split; [reflexivity|].
  eapply serialize_trace_sorted; [|exact Htr].
  unfold merged. apply sort_by_sorted.
Qed.

Lemma output_order_witness :
  exists (mid : MidiFile) (first : Z) (bpm : Q) (trace : list (Z * line)),
    midi_reader (world_of tempo_between_chords) "song.mid" = Ok mid
    /\ convert_trace mid (extract mid) = Ok trace
    /\ lines_of mid = Ok (Some (Instr first :: BPM bpm :: map snd trace))
    /\ files (snd (midi_to_scratch "song.mid" "song_scratch.txt"
                     (world_of tempo_between_chords))) !! "song_scratch.txt"
       = Some (file_text (Instr first :: BPM bpm :: map snd trace))
    /\ map line_text (Instr first :: BPM bpm :: map snd trace)
       = ("Instr: " ++ Show.str_int first) :: ("BPM: " ++ Show.repr_float bpm)
           :: map line_text (map snd trace)
    /\ StronglySorted Z.le (map fst trace).
Proof.
  apply (output_order "song.mid" "song_scratch.txt"
           (world_of tempo_between_chords)
           (snd (midi_to_scratch "song.mid" "song_scratch.txt"
                   (world_of tempo_between_chords)))
           (String.concat newline
              ["Successfully converted!"; "Output: song_scratch.txt";
               "Total lines: 7"])).
  vm_compute. reflexivity.
Defined.

(** C9. A scan collects the note of every note_on within the tolerance of
    the anchor, from the whole list and whatever was processed before, and
    marks the times of these events; so with tolerance 15 the note_ons at
    ticks 0, 15 and 30 give chords at 0 and 30 that both hold the note of
    the event at tick 15. *)
Theorem note_in_two_chords :
  (forall (tolerance : Q) (time : Z) (evs : list event) (acc : list Z)
          (P : gset Z),
      fst (scan tolerance time evs acc P)
      = (acc ++ map event_note (List.filter (near tolerance time) evs))%list
      /\ snd (scan tolerance time evs acc P)
         = list_to_set (map event_time (List.filter (near tolerance time) evs)) ∪ P)
  /\ (forall n1 v1 c1 p1 n2 v2 c2 p2 n3 v3 c3 p3 : Z,
        group_chords 480 [note_on 0 n1 v1 c1 p1; note_on 15 n2 v2 c2 p2;
                          note_on 30 n3 v3 c3 p3]
        = [chord 0 [n1; n2] p1; chord 30 [n2; n3] p3])
  /\ exists (events : list event) (e : event) (t1 t2 p1 p2 : Z)
            (notes1 notes2 : list Z),
       List.filter (fun e' => event_time e' =? event_time e) events = [e]
       /\ t1 <> t2
       /\ In (chord t1 notes1 p1) (group_chords 480 events)
       /\ In (chord t2 notes2 p2) (group_chords 480 events)
       /\ In (event_note e) notes1 /\ In (event_note e) notes2
       /\ List.filter (fun e' => event_note e' =? event_note e) events = [e].
Proof.
  split; [|split].
  - intros tolerance time evs acc P. split.
    + apply scan_notes.
    + apply scan_processed.
  - intros. vm_compute. reflexivity.
  - exists [note_on 0 60 64 0 0; note_on 15 64 64 0 0; note_on 30 67 64 0 0],
      (note_on 15 64 64 0 0), 0, 30, 0, 0, [60; 64], [64; 67].
    assert (E : group_chords 480
                  [note_on 0 60 64 0 0; note_on 15 64 64 0 0; note_on 30 67 64 0 0]
                = [chord 0 [60; 64] 0; chord 30 [64; 67] 0])
      by (vm_compute; reflexivity).
    rewrite E.
    split; [vm_compute; reflexivity|].
    split; [discriminate|].
    split; [left; reflexivity|].
    split; [right; left; reflexivity|].
    split; [right; left; reflexivity|].
    split; [left; reflexivity|].
    vm_compute; reflexivity.
Qed.

(* ===================================================================== *)
(** * Order properties of the float model *)
(* ===================================================================== *)

Section FloatOrder.
Local Open Scope Q_scope.

Lemma floor_log2_lt (q : Q) : 0 < q -> q < 2 ^ (floor_log2 q + 1).
Proof.
  intros Hq. unfold floor_log2.
  destruct (Qleb _ q) eqn:E.
  - destruct q as [n d]. simpl Qnum in *. simpl Qden in *.
    assert (Hn : (0 < n)%Z) by (unfold Qlt in Hq; simpl in Hq; lia).
    pose proof (Z.log2_spec n Hn) as [_ Hn2].
    pose proof (Z.log2_spec (Zpos d) (Pos2Z.is_pos d)) as [Hd1 _].
    pose proof (Z.log2_nonneg n) as Hln.
    pose proof (Z.log2_nonneg (Zpos d)) as Hld.
    replace (Z.log2 n - Z.log2 (Z.pos d) + 1)%Z
      with (Z.succ (Z.log2 n) - Z.log2 (Z.pos d))%Z by lia.
    rewrite Qpower_minus by discriminate.
    rewrite <- !(Zpower_Qpower 2) by lia.
    set (a := (2 ^ Z.succ (Z.log2 n))%Z) in *.
    set (b := (2 ^ Z.log2 (Z.pos d))%Z) in *.
    assert (Hb : (0 < b)%Z) by (subst b; apply Z.pow_pos_nonneg; lia).
    apply Qlt_shift_div_l.
    + change 0 with (inject_Z 0). rewrite <- Zlt_Qlt. exact Hb.
    + unfold Qlt, Qmult, inject_Z. simpl. nia.
  - replace (floor_log2 q) with (floor_log2 q) by reflexivity.
    assert (Hlt : q < 2 ^ (Z.log2 (Qnum q) - Z.log2 (Z.pos (Qden q)))).
    { apply Qltb_lt. unfold Qltb. unfold Qleb in E. rewrite E. reflexivity. }
    replace (Z.log2 (Qnum q) - Z.log2 (Z.pos (Qden q)) - 1 + 1)%Z
      with (Z.log2 (Qnum q) - Z.log2 (Z.pos (Qden q)))%Z by lia.
    exact Hlt.
Qed.

Lemma round_half_even_Z (z : Z) : round_half_even (inject_Z z) = z.
Proof.
  unfold round_half_even. rewrite Qfloor_Z.
  assert (E : Qltb (inject_Z z - inject_Z z) (1 # 2) = true).
  { apply Qltb_lt. lra. }
  rewrite E. reflexivity.
Qed.

Lemma round_half_even_upper (q : Q) : (round_half_even q <= Qfloor q + 1)%Z.
Proof.
  unfold round_half_even.
  destruct (Qltb _ _); [lia|]. destruct (Qltb _ _); [lia|].
  destruct (Z.even _); lia.
Qed.

Lemma round_half_even_mono (x y : Q) :
  x <= y -> (round_half_even x <= round_half_even y)%Z.
Proof.
  intros Hxy.
  pose proof (Qfloor_resp_le _ _ Hxy) as Hf.
  destruct (Z.eq_dec (Qfloor x) (Qfloor y)) as [Heq|Hne].
  - unfold round_half_even. rewrite Heq.
    set (f := Qfloor y).
    destruct (Qltb (x - inject_Z f) (1 # 2)) eqn:E1.
    + destruct (Qltb (y - inject_Z f) (1 # 2)); [lia|].
      destruct (Qltb (1 # 2) (y - inject_Z f)); [lia|].
      destruct (Z.even f); lia.
    + apply Qltb_ge in E1.
      assert (E2 : Qltb (y - inject_Z f) (1 # 2) = false) by (apply Qltb_ge; lra).
      rewrite E2.
      destruct (Qltb (1 # 2) (x - inject_Z f)) eqn:E3.
      * apply Qltb_lt in E3.
        assert (E4 : Qltb (1 # 2) (y - inject_Z f) = true) by (apply Qltb_lt; lra).
        rewrite E4. lia.
      * destruct (Qltb (1 # 2) (y - inject_Z f)); [destruct (Z.even f); lia|lia].
  - eapply Z.le_trans; [apply round_half_even_upper|].
    eapply Z.le_trans; [|apply round_half_even_floor]. lia.
Qed.

Lemma Qabs_pos_eq (q : Q) : 0 < q -> Qabs q = q.
Proof.
  destruct q as [n d]. unfold Qlt. simpl. intros H.
  f_equal. apply Z.abs_eq. lia.
Qed.

Lemma Qabs_neg_eq (q : Q) : q < 0 -> Qabs q = - q.
Proof.
  destruct q as [n d]. unfold Qlt, Qopp. simpl. intros H.
  f_equal. apply Z.abs_neq. lia.
Qed.

(** The value [fl] gives for a positive number, in terms of its binade. *)
Lemma fl_pos (q : Q) :
  0 < q ->
  fl q == inject_Z (round_half_even (q * 2 ^ (- (floor_log2 q - 52))))
          * 2 ^ (floor_log2 q - 52).
Proof.
  intros Hq. unfold fl.
  destruct (Qeq_bool q 0) eqn:E0.
  { apply Qeq_bool_iff in E0. lra. }
  destruct (Qltb q 0) eqn:El.
  { apply Qltb_lt in El. lra. }
  rewrite Qred_correct, (Qabs_pos_eq q Hq). reflexivity.
Qed.

Lemma fl_neg (q : Q) : q < 0 -> fl q == - fl (- q).
Proof.
  intros Hq.
  assert (Hp : 0 < - q) by lra.
  rewrite (fl_pos _ Hp). unfold fl.
  destruct (Qeq_bool q 0) eqn:E0.
  { apply Qeq_bool_iff in E0. lra. }
  assert (El : Qltb q 0 = true) by (apply Qltb_lt; exact Hq).
  rewrite El, !Qred_correct, (Qabs_neg_eq q Hq). reflexivity.
Qed.

Lemma two_power_split (a b : Z) : 2 ^ (a + b) == 2 ^ a * 2 ^ b.
Proof. apply Qpower_plus. discriminate. Qed.

(** A positive number and its float lie in the same binade. *)
Lemma fl_binade (q : Q) :
  0 < q ->
  2 ^ floor_log2 q <= fl q /\ fl q <= 2 ^ (floor_log2 q + 1).
Proof.
  intros Hq. rewrite (fl_pos q Hq).
  pose proof (floor_log2_le q Hq) as Hlo.
  pose proof (floor_log2_lt q Hq) as Hhi.
  set (l := floor_log2 q) in *.
  assert (Hp : 0 < 2 ^ (l - 52)) by apply two_power_pos.
  assert (Hp' : 0 < 2 ^ (- (l - 52))) by apply two_power_pos.
  assert (E1 : 2 ^ l * 2 ^ (- (l - 52)) == inject_Z (2 ^ 52)).
  { rewrite <- two_power_split. replace (l + - (l - 52))%Z with 52%Z by lia.
    reflexivity. }
  assert (E2 : 2 ^ (l + 1) * 2 ^ (- (l - 52)) == inject_Z (2 ^ 53)).
  { rewrite <- two_power_split. replace (l + 1 + - (l - 52))%Z with 53%Z by lia.
    reflexivity. }
  assert (E3 : inject_Z (2 ^ 52) * 2 ^ (l - 52) == 2 ^ l).
  { change (inject_Z (2 ^ 52)) with (2 ^ 52). rewrite <- two_power_split.
    replace (52 + (l - 52))%Z with l by lia. reflexivity. }
  assert (E4 : inject_Z (2 ^ 53) * 2 ^ (l - 52) == 2 ^ (l + 1)).
  { change (inject_Z (2 ^ 53)) with (2 ^ 53). rewrite <- two_power_split.
    replace (53 + (l - 52))%Z with (l + 1)%Z by lia. reflexivity. }
  set (s := q * 2 ^ (- (l - 52))).
  assert (Hs1 : inject_Z (2 ^ 52) <= s).
  { rewrite <- E1. subst s. apply Qmult_le_compat_r; [exact Hlo|lra]. }
  assert (Hs2 : s <= inject_Z (2 ^ 53)).
  { rewrite <- E2. subst s. apply Qmult_le_compat_r; [lra|lra]. }
  apply round_half_even_mono in Hs1, Hs2.
  rewrite round_half_even_Z in Hs1, Hs2.
  rewrite Zle_Qle in Hs1, Hs2.
  split.
  - rewrite <- E3. apply Qmult_le_compat_r; [exact Hs1|lra].
  - rewrite <- E4. apply Qmult_le_compat_r; [exact Hs2|lra].
Qed.

Lemma floor_log2_mono (x y : Q) :
  0 < x -> x <= y -> (floor_log2 x <= floor_log2 y)%Z.
Proof.
  intros Hx Hxy.
  pose proof (floor_log2_le x Hx) as H1.
  pose proof (floor_log2_lt y ltac:(lra)) as H2.
  assert (H : 2 ^ floor_log2 x < 2 ^ (floor_log2 y + 1)) by lra.
  apply Qpower_lt_compat_l_inv in H; [lia|reflexivity].
Qed.

Lemma fl_mono_pos (x y : Q) : 0 < x -> x <= y -> fl x <= fl y.
Proof.
  intros Hx Hxy.
  assert (Hy : 0 < y) by lra.
  pose proof (floor_log2_mono x y Hx Hxy) as Hl.
  destruct (Z.eq_dec (floor_log2 x) (floor_log2 y)) as [Heq|Hne].
  - rewrite (fl_pos x Hx), (fl_pos y Hy), Heq.
    assert (Hp : 0 < 2 ^ (floor_log2 y - 52)) by apply two_power_pos.
    assert (Hp' : 0 < 2 ^ (- (floor_log2 y - 52))) by apply two_power_pos.
    apply Qmult_le_compat_r; [|lra].
    rewrite <- Zle_Qle. apply round_half_even_mono.
    apply Qmult_le_compat_r; [exact Hxy|lra].
  - destruct (fl_binade x Hx) as [_ H1]. destruct (fl_binade y Hy) as [H2 _].
    assert (H : 2 ^ (floor_log2 x + 1) <= 2 ^ floor_log2 y).
    { apply Qpower_le_compat_l; [lia|discriminate]. }
    lra.
Qed.

Lemma fl_zero (q : Q) : q == 0 -> fl q = 0.
Proof.
  intros H. unfold fl. apply Qeq_bool_iff in H. rewrite H. reflexivity.
Qed.

(** Rounding to a float keeps the order. *)
Lemma fl_mono (x y : Q) : x <= y -> fl x <= fl y.
Proof.
  intros Hxy.
  destruct (Qlt_le_dec 0 x) as [Hx|Hx].
  - apply fl_mono_pos; assumption.
  - destruct (Qlt_le_dec x 0) as [Hx'|Hx'].
    + assert (Hnx : fl x <= 0).
      { rewrite (fl_neg x Hx'). pose proof (fl_nonneg (- x) ltac:(lra)). lra. }
      destruct (Qlt_le_dec y 0) as [Hy|Hy].
      * rewrite (fl_neg x Hx'), (fl_neg y Hy).
        pose proof (fl_mono_pos (- y) (- x) ltac:(lra) ltac:(lra)). lra.
      * pose proof (fl_nonneg y Hy). lra.
    + rewrite (fl_zero x) by lra. apply fl_nonneg. lra.
Qed.

End FloatOrder.

(* ===================================================================== *)
(** * Order properties of the beat quantizer *)
(* ===================================================================== *)

Section QuantizerOrder.
Local Open Scope Q_scope.

Lemma round_mono (x y : Q) : x <= y -> round x 2 <= round y 2.
Proof.
  intros Hxy. unfold round. apply fl_mono.
  change (inject_Z (10 ^ 2)) with 100.
  apply Qmult_le_compat_r; [|discriminate].
  rewrite <- Zle_Qle. apply round_half_even_mono.
  apply Qmult_le_compat_r; [exact Hxy|discriminate].
Qed.

Lemma round_from_ladder (x : Q) : 16.5 <= x -> 16.5 <= round x 2.
Proof.
  intros Hx.
  assert (E : 16.5 == round 16.5 2) by (apply Qeq_bool_iff; vm_compute; reflexivity).
  rewrite E at 1. apply round_mono. exact Hx.
Qed.

(** A ladder with ascending values, all below what the rounding branch
    returns, is monotone. *)
Lemma snap_mono (table : list (Q * number)) (c x y : Q) :
  StronglySorted (fun v w => number_value v <= number_value w) (map snd table) ->
  Forall (fun v => number_value v <= c) (map snd table) ->
  (Forall (fun bound => bound <= y) (map fst table) -> c <= round y 2) ->
  x <= y ->
  number_value (snap table x) <= number_value (snap table y).
Proof.
  intros Hs Hc Hr Hxy. induction table as [|[bound value] rest IH]; simpl.
  - apply round_mono. exact Hxy.
  - simpl in Hs, Hc. inversion Hs as [|? ? Hs' Hv]; subst.
    inversion Hc as [|? ? Hc1 Hc']; subst.
    destruct (Qltb x bound) eqn:Ex.
    + destruct (Qltb y bound) eqn:Ey; [apply Qle_refl|].
      destruct (snap_cases rest y) as [Hin|[Hround Hb]].
      * rewrite List.Forall_forall in Hv. apply Hv. exact Hin.
      * rewrite Hround. simpl. eapply Qle_trans; [exact Hc1|].
        apply Hr. simpl. constructor; [apply Qltb_ge; exact Ey|exact Hb].
    + assert (Ey : Qltb y bound = false).
      { apply Qltb_ge. apply Qltb_ge in Ex. lra. }
      rewrite Ey. apply IH; [exact Hs'|exact Hc'|].
      intros Hz. apply Hr. simpl. constructor; [|exact Hz].
      apply Qltb_ge. exact Ey.
Qed.

Lemma ladder_last_bound (y : Q) :
  Forall (fun bound => bound <= y) (map fst ladder) -> 16.5 <= y.
Proof.
  intros Hb.
  assert (Hin : In (lit 16.5) (map fst ladder))
    by (vm_compute; repeat (first [left; reflexivity | right])).
  rewrite List.Forall_forall in Hb. specialize (Hb _ Hin).
  eapply Qle_trans; [|exact Hb]. closed_Q.
Qed.

Lemma ladder_values_sorted :
  StronglySorted (fun v w => number_value v <= number_value w) (map snd ladder).
Proof.
  unfold ladder. cbn [map snd].
  repeat (constructor;
          [|repeat (constructor; [cbn [number_value]; closed_Q|]); constructor]).
  constructor.
Qed.

Lemma ladder_values_bounds :
  Forall (fun v => lit 0.03125 <= number_value v /\ number_value v <= 16.5)
         (map snd ladder).
Proof.
  unfold ladder. cbn [map snd].
  repeat (constructor; [cbn [number_value]; split; closed_Q|]). constructor.
Qed.

(** The least value the quantizer returns. *)
Lemma round_to_musical_beat_lower (x : Q) :
  1 # 32 <= number_value (round_to_musical_beat x).
Proof.
  rewrite round_to_musical_beat_snap.
  assert (E : lit 0.03125 == 1 # 32) by (apply Qeq_bool_iff; vm_compute; reflexivity).
  destruct (snap_cases ladder x) as [Hin|[Hr Hb]].
  - pose proof ladder_values_bounds as H. rewrite List.Forall_forall in H.
    destruct (H _ Hin) as [H1 _]. rewrite <- E. exact H1.
  - rewrite Hr. simpl.
    pose proof (round_from_ladder x (ladder_last_bound x Hb)) as H.
    eapply Qle_trans; [|exact H]. vm_compute. discriminate.
Qed.

End QuantizerOrder.

(** X1. The quantizer keeps the order of its inputs: a longer gap never
    gives a shorter rest. *)
Theorem round_to_musical_beat_monotone (x y : Q) :
  (x <= y)%Q ->
  (number_value (round_to_musical_beat x)
   <= number_value (round_to_musical_beat y))%Q.
Proof.
  intros Hxy. rewrite !round_to_musical_beat_snap.
  apply (snap_mono ladder 16.5%Q).
  - apply ladder_values_sorted.
  - eapply List.Forall_impl; [|apply ladder_values_bounds]. intros v [_ H]. exact H.
  - intros Hb. apply round_from_ladder. apply ladder_last_bound. exact Hb.
  - exact Hxy.
Qed.

Lemma round_to_musical_beat_monotone_witness :
  (number_value (round_to_musical_beat 0.5)
   <= number_value (round_to_musical_beat 20))%Q.
Proof.
  apply (round_to_musical_beat_monotone 0.5%Q 20%Q). vm_compute. discriminate.
Defined.

(** X2. For every finite input (any number, negative ones and zero
    included; the float NaN, which is no number, is not an input here)
    the quantizer returns at least 0.03125, the 128th note; in particular
    never zero and never a negative length. *)
Theorem round_to_musical_beat_at_least_128th (x : Q) :
  (1 # 32 <= number_value (round_to_musical_beat x))%Q.
Proof. apply round_to_musical_beat_lower. Qed.

(** X3. Below 1.3 beats the quantizer always lengthens: the value returned
    is greater than the input (a gap of exactly 1 beat becomes 1.5 beats,
    0.5 becomes 0.75, 0.25 becomes 0.33). *)
Theorem round_to_musical_beat_lengthens (x : Q) :
  (x < lit 1.3)%Q ->
  (x < number_value (round_to_musical_beat x))%Q.
Proof.
  intros Hx. unfold round_to_musical_beat.
  assert (H6 : Qltb x (lit 0.05) = true -> Qltb x (lit 0.0825) = true).
  { intros H. apply Qltb_lt in H. apply Qltb_lt.
    eapply Qlt_trans; [exact H|closed_Q]. }
  destruct (Qltb x (lit 0.027)) eqn:E1;
    [apply Qltb_lt in E1; eapply Qlt_le_trans; [exact E1|cbn [number_value]; closed_Q]|].
  destruct (Qltb x (lit 0.035)) eqn:E2;
    [apply Qltb_lt in E2; eapply Qlt_le_trans; [exact E2|cbn [number_value]; closed_Q]|].
  destruct (Qltb x (lit 0.045)) eqn:E3;
    [apply Qltb_lt in E3; eapply Qlt_le_trans; [exact E3|cbn [number_value]; closed_Q]|].
  destruct (Qltb x (lit 0.0615)) eqn:E4;
    [apply Qltb_lt in E4; eapply Qlt_le_trans; [exact E4|cbn [number_value]; closed_Q]|].
  destruct (Qltb x (lit 0.0825)) eqn:E5;
    [apply Qltb_lt in E5; eapply Qlt_le_trans; [exact E5|cbn [number_value]; closed_Q]|].
  assert (E6 : Qltb x (lit 0.05) = false).
  { apply not_true_is_false. intros H. specialize (H6 H). congruence. }
  rewrite E6.
  destruct (Qltb x (lit 0.1)) eqn:E7;
    [apply Qltb_lt in E7; eapply Qlt_le_trans; [exact E7|cbn [number_value]; closed_Q]|].
  destruct (Qltb x (lit 0.15)) eqn:E8;
    [apply Qltb_lt in E8; eapply Qlt_le_trans; [exact E8|cbn [number_value]; closed_Q]|].
  destruct (Qltb x (lit 0.2)) eqn:E9;
    [apply Qltb_lt in E9; eapply Qlt_le_trans; [exact E9|cbn [number_value]; closed_Q]|].
  destruct (Qltb x (lit 0.3)) eqn:E10;
    [apply Qltb_lt in E10; eapply Qlt_le_trans; [exact E10|cbn [number_value]; closed_Q]|].
  destruct (Qltb x (lit 0.4)) eqn:E11;
    [apply Qltb_lt in E11; eapply Qlt_le_trans; [exact E11|cbn [number_value]; closed_Q]|].
  destruct (Qltb x (lit 0.6)) eqn:E12;
    [apply Qltb_lt in E12; eapply Qlt_le_trans; [exact E12|cbn [number_value]; closed_Q]|].
  destruct (Qltb x (lit 0.8)) eqn:E13;
    [apply Qltb_lt in E13; eapply Qlt_le_trans; [exact E13|cbn [number_value]; closed_Q]|].
  apply Qltb_lt in Hx. rewrite Hx. apply Qltb_lt in Hx.
  eapply Qlt_le_trans; [exact Hx|cbn [number_value]; closed_Q].
Qed.

Lemma round_to_musical_beat_lengthens_witness :
  (1 < number_value (round_to_musical_beat 1))%Q.
Proof.
  apply (round_to_musical_beat_lengthens 1%Q). vm_compute. reflexivity.
Defined.

(* ===================================================================== *)
(** * The image of the instrument mapper *)
(* ===================================================================== *)

Section InstrumentImage.

Lemma lookup_range_outside (p : Z) :
  ~ (0 <= p <= 127) -> lookup_range p instrument_map = None.
Proof.
  intros Hp. apply lookup_range_None. intros r i Hri.
  pose proof instrument_map_bounds as Hb.
  rewrite List.Forall_forall in Hb. specialize (Hb (r, i) Hri). simpl in Hb.
  destruct (in_range p r) eqn:Hr; [|reflexivity].
  apply in_range_spec in Hr. lia.
Qed.

End InstrumentImage.

(** X4. The mapper never returns instrument 14, for any integer; every
    other instrument from 1 to 21 is returned for some program in 0..127. *)
Theorem gm_to_scratch_instrument_image :
  (forall p : Z, gm_to_scratch_instrument p <> 14)
  /\ (forall i : Z, 1 <= i <= 21 -> i <> 14 ->
        exists p : Z, 0 <= p <= 127 /\ gm_to_scratch_instrument p = i).
Proof.
  split.
  - intros p.
    destruct (Z_le_dec 0 p) as [H0|H0]; [destruct (Z_le_dec p 127) as [H1|H1]|].
    + pose (f := fun p => negb (gm_to_scratch_instrument p =? 14)).
      assert (Hf : f p = true)
        by (apply forall_programs; [vm_compute; reflexivity|lia]).
      unfold f in Hf. apply negb_true_iff, Z.eqb_neq in Hf. exact Hf.
    + unfold gm_to_scratch_instrument.
      rewrite lookup_range_outside by lia. discriminate.
    + unfold gm_to_scratch_instrument.
      rewrite lookup_range_outside by lia. discriminate.
  - intros i Hi Hne.
    pose (pre := fun i => List.find (fun p => gm_to_scratch_instrument p =? i)
                            (map Z.of_nat (seq 0 128))).
    pose (f := fun k => (k =? 0) || (k =? 14) || (21 <? k)
                        || match pre k with Some _ => true | None => false end).
    assert (Hf : f i = true)
      by (apply forall_programs; [vm_compute; reflexivity|lia]).
    unfold f in Hf.
    assert (E1 : (i =? 0) = false) by lia.
    assert (E2 : (i =? 14) = false) by lia.
    assert (E3 : (21 <? i) = false) by lia.
    rewrite E1, E2, E3 in Hf. simpl in Hf.
    destruct (pre i) as [p|] eqn:Ep; [|discriminate].
    unfold pre in Ep. apply find_some in Ep as [Hin Hp].
    exists p. split; [|apply Z.eqb_eq; exact Hp].
    apply in_map_iff in Hin as (n & <- & Hn). apply in_seq in Hn. lia.
Qed.

Lemma gm_to_scratch_instrument_image_witness :
  exists p : Z, 0 <= p <= 127 /\ gm_to_scratch_instrument p = 18.
Proof.
  apply (proj2 gm_to_scratch_instrument_image 18); lia.
Defined.

(* ===================================================================== *)
(** * Absolute times and the list of events *)
(* ===================================================================== *)

Section ExtractMore.

Lemma on_message_state (t p : Z) (x : extractor) (msg : message) :
  fst (on_message (t, p, x) msg) = (t + msg_time msg, program_after p [msg]).
Proof.
  destruct msg as [channel note velocity d|channel note velocity d
                  |channel program d|new_tempo d|d]; simpl;
    try reflexivity.
  destruct (velocity >? 0); [reflexivity|].
  destruct (velocity =? 0); reflexivity.
Qed.

Lemma program_after_app (p : Z) (l1 l2 : list message) :
  program_after p (l1 ++ l2) = program_after (program_after p l1) l2.
Proof.
  revert p. induction l1 as [|m l1 IH]; intros p; simpl; [reflexivity|].
  destruct m; apply IH.
Qed.

Lemma elapsed_app (l1 l2 : list message) :
  elapsed (l1 ++ l2) = elapsed l1 + elapsed l2.
Proof. induction l1 as [|m l1 IH]; simpl; [reflexivity|]. rewrite IH. lia. Qed.

(** The two variables of the track after a run of messages. *)
Lemma fold_on_message_state (msgs : list message) (t p : Z) (x : extractor) :
  fst (fold_left on_message msgs (t, p, x))
  = (t + elapsed msgs, program_after p msgs).
Proof.
  revert t p x. induction msgs as [|msg rest IH]; intros t p x.
  - simpl. f_equal. lia.
  - cbn [fold_left].
    destruct (on_message (t, p, x) msg) as [[t' p'] x'] eqn:E.
    pose proof (on_message_state t p x msg) as Hs. rewrite E in Hs.
    cbn [fst] in Hs. injection Hs as -> ->.
    rewrite IH. simpl. f_equal; [lia|]. destruct msg; reflexivity.
Qed.

(** A message appends at most one event, and one exactly when it is a
    note message. *)
Lemma on_message_appends (st : Z * Z * extractor) (msg : message) :
  exists new,
    events (snd (on_message st msg)) = (events (snd st) ++ new)%list
    /\ List.length new = (if is_note_message msg then 1 else 0)%nat.
Proof.
  destruct st as [[t p] x].
  destruct msg as [channel note velocity d|channel note velocity d
                  |channel program d|new_tempo d|d]; simpl.
  - destruct (velocity >? 0) eqn:E1; simpl.
    + assert ((0 <=? velocity) = true) as -> by lia. eexists. split; reflexivity.
    + destruct (velocity =? 0) eqn:E2; simpl.
      * assert ((0 <=? velocity) = true) as -> by lia. eexists. split; reflexivity.
      * assert ((0 <=? velocity) = false) as -> by lia.
        exists []. rewrite app_nil_r. split; reflexivity.
  - eexists. split; reflexivity.
  - exists []. rewrite app_nil_r. split; reflexivity.
  - exists []. rewrite app_nil_r. split; reflexivity.
  - exists []. rewrite app_nil_r. split; reflexivity.
Qed.

Lemma fold_on_message_appends (msgs : list message) (st : Z * Z * extractor) :
  exists new,
    events (snd (fold_left on_message msgs st)) = (events (snd st) ++ new)%list
    /\ List.length new = List.length (List.filter is_note_message msgs).
Proof.
  revert st. induction msgs as [|msg rest IH]; intros st; simpl.
  - exists []. rewrite app_nil_r. split; reflexivity.
  - destruct (IH (on_message st msg)) as (new2 & E2 & L2).
    destruct (on_message_appends st msg) as (new1 & E1 & L1).
    exists (new1 ++ new2)%list. split.
    + rewrite E2, E1, app_assoc. reflexivity.
    + rewrite length_app, L1, L2.
      destruct (is_note_message msg); reflexivity.
Qed.

Lemma fold_on_track_appends (ts : list (list message)) (x : extractor) :
  exists new,
    events (fold_left on_track ts x) = (events x ++ new)%list
    /\ List.length new
       = list_sum (map (fun track => List.length (List.filter is_note_message track)) ts).
Proof.
  revert x. induction ts as [|track rest IH]; intros x; simpl.
  - exists []. rewrite app_nil_r. split; reflexivity.
  - destruct (IH (on_track x track)) as (new2 & E2 & L2).
    destruct (fold_on_message_appends track (0, 0, x)) as (new1 & E1 & L1).
    exists (new1 ++ new2)%list. split.
    + rewrite E2. unfold on_track. rewrite E1, app_assoc. reflexivity.
    + rewrite length_app, L1, L2. reflexivity.
Qed.

Lemma on_message_event (t p : Z) (x : extractor) (msg : message) (e : event) :
  event_of (t + msg_time msg) p msg = Some e ->
  In e (events (snd (on_message (t, p, x) msg))).
Proof.
  destruct msg as [channel note velocity d|channel note velocity d
                  |channel program d|new_tempo d|d]; simpl; try discriminate.
  - destruct (velocity >? 0); simpl.
    + intros [= <-]. apply in_or_app. right. left. reflexivity.
    + destruct (velocity =? 0); simpl; [|discriminate].
      intros [= <-]. apply in_or_app. right. left. reflexivity.
  - intros [= <-]. apply in_or_app. right. left. reflexivity.
Qed.

Lemma fold_on_message_keeps (msgs : list message) (st : Z * Z * extractor)
    (e : event) :
  In e (events (snd st)) -> In e (events (snd (fold_left on_message msgs st))).
Proof.
  intros H. destruct (fold_on_message_appends msgs st) as (new & E & _).
  rewrite E. apply in_or_app. left. exact H.
Qed.

Lemma fold_on_track_keeps (ts : list (list message)) (x : extractor) (e : event) :
  In e (events x) -> In e (events (fold_left on_track ts x)).
Proof.
  intros H. destruct (fold_on_track_appends ts x) as (new & E & _).
  rewrite E. apply in_or_app. left. exact H.
Qed.

(** The event of a message found in a track, after the run [pre]. *)
Lemma extract_event (mid : MidiFile) (pre post : list message) (msg : message)
    (e : event) :
  In (pre ++ msg :: post)%list (tracks mid) ->
  event_of (elapsed pre + msg_time msg) (program_after 0 pre) msg = Some e ->
  In e (events (extract mid)).
Proof.
  intros Hin He. unfold extract. cbn [events].
  eapply Permutation_in; [symmetry; apply sort_by_perm|].
  apply in_split in Hin as (ts1 & ts2 & ->).
  rewrite fold_left_app. cbn [fold_left]. apply fold_on_track_keeps.
  set (x1 := fold_left on_track ts1 extractor_init).
  unfold on_track at 1. rewrite fold_left_app. cbn [fold_left].
  apply fold_on_message_keeps.
  pose proof (fold_on_message_state pre 0 0 x1) as Hs.
  destruct (fold_left on_message pre (0, 0, x1)) as [[t p] x2].
  cbn [fst] in Hs. injection Hs as -> ->.
  apply on_message_event. exact He.
Qed.

End ExtractMore.

(** X5. Absolute times and programs.  A note_on of positive velocity that
    stands in a track after the messages [pre] gives a note_on event whose
    time is the sum of the delta times up to and including it and whose
    program is that of the last program_change of [pre] (0 when there is
    none); a note_off, and a note_on of velocity 0, gives a note_off event
    at the time computed the same way. *)
Theorem extract_absolute_time (mid : MidiFile) (pre post : list message)
    (channel note velocity time : Z) :
  (In (pre ++ Msg_note_on channel note velocity time :: post)%list (tracks mid) ->
   0 < velocity ->
   In (note_on (elapsed pre + time) note velocity channel (program_after 0 pre))
      (events (extract mid)))
  /\ (In (pre ++ Msg_note_on channel note 0 time :: post)%list (tracks mid) ->
      In (note_off (elapsed pre + time) note channel) (events (extract mid)))
  /\ (In (pre ++ Msg_note_off channel note velocity time :: post)%list (tracks mid) ->
      In (note_off (elapsed pre + time) note channel) (events (extract mid))).
Proof.
  split; [|split].
  - intros Hin Hv. eapply extract_event; [exact Hin|]. simpl.
    assert ((velocity >? 0) = true) as -> by lia. reflexivity.
  - intros Hin. eapply extract_event; [exact Hin|]. reflexivity.
  - intros Hin. eapply extract_event; [exact Hin|]. reflexivity.
Qed.

Lemma extract_absolute_time_witness :
  In (note_on (elapsed [Msg_program_change 0 30 0; Msg_other 240] + 240) 60 64 0
              (program_after 0 [Msg_program_change 0 30 0; Msg_other 240]))
     (events (extract
        {| ticks_per_beat := 480;
           tracks := [ [Msg_program_change 0 30 0; Msg_other 240;
                        Msg_note_on 0 60 64 240; Msg_note_off 0 60 0 480] ] |})).
Proof.
  apply (proj1 (extract_absolute_time _ [Msg_program_change 0 30 0; Msg_other 240]
                  [Msg_note_off 0 60 0 480] 0 60 64 240)).
  - left. reflexivity.
  - lia.
Defined.

(** X6. Nothing is lost or invented: [events] has one entry for each note
    message of the file, and is in time order. *)
Theorem extract_events_complete (mid : MidiFile) :
  List.length (events (extract mid)) = note_message_count mid
  /\ StronglySorted (key_le event_time) (events (extract mid)).
Proof.
  split.
  - unfold extract. simpl.
    rewrite (Permutation_length (sort_by_perm event_time _)).
    destruct (fold_on_track_appends (tracks mid) extractor_init) as (new & E & L).
    rewrite E. simpl. exact L.
  - unfold extract. simpl. apply sort_by_sorted.
Qed.

(* ===================================================================== *)
(** * The tempo table *)
(* ===================================================================== *)

Section TempoTable.

Lemma dict_set_keys (k v : Z) (d : dict) :
  map fst (dict_set k v d)
  = if existsb (fun kv => fst kv =? k) d then map fst d
    else (map fst d ++ [k])%list.
Proof.
  induction d as [|[k' v'] rest IH]; simpl; [reflexivity|].
  destruct (k' =? k) eqn:E; simpl.
  - apply Z.eqb_eq in E. subst. reflexivity.
  - rewrite IH. destruct (existsb _ rest); reflexivity.
Qed.

Lemma existsb_key (k : Z) (d : dict) :
  existsb (fun kv => fst kv =? k) d = false -> ~ In k (map fst d).
Proof.
  induction d as [|[k' v'] rest IH]; simpl; [tauto|].
  intros H. apply orb_false_iff in H as [H1 H2].
  apply Z.eqb_neq in H1. intros [Heq|Hin]; [congruence|]. exact (IH H2 Hin).
Qed.

Lemma dict_set_NoDup (k v : Z) (d : dict) :
  NoDup (map fst d) -> NoDup (map fst (dict_set k v d)).
Proof.
  intros H. rewrite dict_set_keys.
  destruct (existsb _ d) eqn:E; [exact H|].
  apply NoDup_app. split; [exact H|]. split; [|apply NoDup_singleton].
  intros x Hx Hx'. apply list_elem_of_In in Hx, Hx'.
  destruct Hx' as [<-|[]]. exact (existsb_key _ _ E Hx).
Qed.

Lemma dict_set_In (k v k0 : Z) (d : dict) :
  In k0 (map fst d) -> In k0 (map fst (dict_set k v d)).
Proof.
  intros H. rewrite dict_set_keys.
  destruct (existsb _ d); [exact H|]. apply in_or_app. left. exact H.
Qed.

Lemma dict_get_set_eq (k v default : Z) (d : dict) :
  dict_get k default (dict_set k v d) = v.
Proof.
  induction d as [|[k' v'] rest IH]; simpl.
  - rewrite Z.eqb_refl. reflexivity.
  - destruct (k' =? k) eqn:E; simpl.
    + rewrite Z.eqb_refl. reflexivity.
    + rewrite E. exact IH.
Qed.

Lemma dict_get_set_ne (k k' v default : Z) (d : dict) :
  k <> k' -> dict_get k' default (dict_set k v d) = dict_get k' default d.
Proof.
  intros Hne. induction d as [|[k0 v0] rest IH]; simpl.
  - assert ((k =? k') = false) as -> by lia. reflexivity.
  - destruct (k0 =? k) eqn:E; simpl.
    + apply Z.eqb_eq in E. subst k0.
      assert ((k =? k') = false) as -> by lia. reflexivity.
    + destruct (k0 =? k'); [reflexivity|exact IH].
Qed.

Lemma on_message_table (st : Z * Z * extractor) (msg : message) :
  table_ok (tempo_changes (snd st)) ->
  table_ok (tempo_changes (snd (on_message st msg))).
Proof.
  destruct st as [[t p] x]. intros [H1 H2].
  destruct msg as [channel note velocity d|channel note velocity d
                  |channel program d|new_tempo d|d]; simpl;
    try (split; assumption).
  - destruct (velocity >? 0); [split; assumption|].
    destruct (velocity =? 0); split; assumption.
  - split; [apply dict_set_NoDup; exact H1|apply dict_set_In; exact H2].
Qed.

Lemma fold_on_message_table (msgs : list message) (st : Z * Z * extractor) :
  table_ok (tempo_changes (snd st)) ->
  table_ok (tempo_changes (snd (fold_left on_message msgs st))).
Proof.
  revert st. induction msgs as [|msg rest IH]; intros st H; [exact H|].
  cbn [fold_left]. apply IH. apply on_message_table. exact H.
Qed.

Lemma extract_table (mid : MidiFile) : table_ok (tempo_changes (extract mid)).
Proof.
  unfold extract. cbn [tempo_changes].
  assert (H : forall ts x, table_ok (tempo_changes x) ->
                           table_ok (tempo_changes (fold_left on_track ts x))).
  { induction ts as [|track rest IH]; intros x Hx; [exact Hx|].
    cbn [fold_left]. apply IH. unfold on_track.
    apply fold_on_message_table. exact Hx. }
  apply H. split; simpl; [apply NoDup_singleton|left; reflexivity].
Qed.

Lemma NoDup_keys_filter (f : Z * Z -> bool) (d : dict) :
  NoDup (map fst d) -> NoDup (map fst (List.filter f d)).
Proof.
  induction d as [|kv rest IH]; simpl; intros H; [constructor|].
  apply NoDup_cons in H as [H1 H2].
  destruct (f kv); simpl; [|apply IH; exact H2].
  apply NoDup_cons. split; [|apply IH; exact H2].
  intros Hin. apply H1. apply list_elem_of_In in Hin. apply list_elem_of_In.
  apply in_map_iff in Hin as (kv' & E & Hkv').
  apply filter_In in Hkv' as [Hkv' _]. apply in_map_iff. exists kv'. auto.
Qed.

Lemma fold_on_message_default (msgs : list message) (t p : Z) (x : extractor) :
  no_tempo_at_zero t msgs = true ->
  dict_get 0 500000 (tempo_changes (snd (fold_left on_message msgs (t, p, x))))
  = dict_get 0 500000 (tempo_changes x).
Proof.
  revert t p x. induction msgs as [|msg rest IH]; intros t p x H; [reflexivity|].
  cbn [fold_left]. cbn [no_tempo_at_zero] in H.
  apply andb_true_iff in H as [Hmsg Hrest].
  pose proof (on_message_state t p x msg) as Hs.
  destruct (on_message (t, p, x) msg) as [[t' p'] x'] eqn:E.
  cbn [fst] in Hs. injection Hs as -> _.
  rewrite IH by exact Hrest.
  destruct msg as [channel note velocity d|channel note velocity d
                  |channel program d|new_tempo d|d]; simpl in E.
  - destruct (velocity >? 0);
      [apply (f_equal snd) in E; cbn [snd] in E; subst x'; reflexivity|].
    destruct (velocity =? 0); apply (f_equal snd) in E; cbn [snd] in E; subst x';
      reflexivity.
  - apply (f_equal snd) in E; cbn [snd] in E; subst x'. reflexivity.
  - apply (f_equal snd) in E; cbn [snd] in E; subst x'. reflexivity.
  - apply (f_equal snd) in E; cbn [snd] in E; subst x'. simpl.
    apply dict_get_set_ne. apply negb_true_iff, Z.eqb_neq in Hmsg. exact Hmsg.
  - apply (f_equal snd) in E; cbn [snd] in E; subst x'. reflexivity.
Qed.

Lemma extract_default_tempo (mid : MidiFile) :
  forallb (no_tempo_at_zero 0) (tracks mid) = true ->
  dict_get 0 500000 (tempo_changes (extract mid)) = 500000.
Proof.
  unfold extract. cbn [tempo_changes].
  assert (H : forall ts x,
             forallb (no_tempo_at_zero 0) ts = true ->
             dict_get 0 500000 (tempo_changes (fold_left on_track ts x))
             = dict_get 0 500000 (tempo_changes x)).
  { induction ts as [|track rest IH]; intros x Hts; [reflexivity|].
    cbn [forallb] in Hts. apply andb_true_iff in Hts as [H1 H2].
    cbn [fold_left]. rewrite IH by exact H2. unfold on_track.
    apply fold_on_message_default. exact H1. }
  intros Hts. rewrite H by exact Hts. reflexivity.
Qed.

(** The lines of a conversion: the two initial lines and the timed lines. *)
Lemma convert_lines (mid : MidiFile) (x : extractor) (lines : list line) :
  convert mid x = Ok lines ->
  exists (bpm : Q) (trace : list (Z * line)),
    truediv 60000000 (inject_Z (dict_get 0 500000 (tempo_changes x))) = Ok bpm
    /\ convert_trace mid x = Ok trace
    /\ lines = Instr (first_instrument (events x)) :: BPM bpm :: map snd trace.
Proof.
  unfold convert. intros H.
  apply bind_Ok in H as (bpm & Hbpm & H).
  apply bind_Ok in H as (s & Hs & H). injection H as <-.
  destruct (serialize_trace_lines _ _ _ _ Hs) as (trace & Htr & Hlines).
  cbn [output_lines serializer_init app] in Hlines.
  exists bpm, trace. split; [exact Hbpm|]. split; [|exact Hlines].
  unfold convert_trace. rewrite Hbpm. exact Htr.
Qed.

Lemma lines_of_Some (mid : MidiFile) (lines : list line) :
  lines_of mid = Ok (Some lines) -> convert mid (extract mid) = Ok lines.
Proof.
  unfold lines_of. cbv zeta.
  destruct (events (extract mid)); [discriminate|].
  destruct (convert mid (extract mid)); simpl; [|discriminate].
  intros [= ->]. reflexivity.
Qed.

End TempoTable.

(** X7. The tempo table always has an entry for tick 0 and never two for
    one tick; the tempo changes handed to the last loop are those of the
    ticks after 0, at most one per tick. *)
Theorem tempo_table_keys (mid : MidiFile) :
  In 0 (map fst (tempo_changes (extract mid)))
  /\ NoDup (map fst (tempo_changes (extract mid)))
  /\ NoDup (map grouped_time (tempo_events (tempo_changes (extract mid))))
  /\ Forall (fun g => is_chord g = false /\ 0 < grouped_time g)
            (tempo_events (tempo_changes (extract mid))).
Proof.
  destruct (extract_table mid) as [Hnd H0].
  split; [exact H0|]. split; [exact Hnd|]. split.
  - unfold tempo_events. rewrite map_map. simpl.
    apply (NoDup_keys_filter _ _ Hnd).
  - unfold tempo_events. apply List.Forall_forall. intros g Hin.
    apply in_map_iff in Hin as (kv & <- & Hkv).
    apply filter_In in Hkv as [_ Hpos]. simpl. split; [reflexivity|lia].
Qed.

(** X8. Default tempo.  When no set_tempo message falls on tick 0, the
    second line of every output is [BPM: 120.0]. *)
Theorem default_tempo_line (mid : MidiFile) (lines : list line) :
  forallb (no_tempo_at_zero 0) (tracks mid) = true ->
  lines_of mid = Ok (Some lines) ->
  exists (first : Z) (rest : list line),
    lines = Instr first :: BPM 120 :: rest
    /\ line_text (BPM 120) = "BPM: 120.0".
Proof.
  intros Hno Hlines. apply lines_of_Some in Hlines.
  apply convert_lines in Hlines as (bpm & trace & Hbpm & _ & ->).
  rewrite (extract_default_tempo mid Hno) in Hbpm.
  assert (E : truediv 60000000 (inject_Z 500000) = Ok 120%Q)
    by (vm_compute; reflexivity).
  rewrite E in Hbpm. injection Hbpm as <-.
  eexists _, _. split; [reflexivity|]. vm_compute. reflexivity.
Qed.

Lemma default_tempo_line_witness :
  exists (first : Z) (rest : list line),
    [Instr 1; BPM 120; Note [60; 64]] = Instr first :: BPM 120 :: rest
    /\ line_text (BPM 120) = "BPM: 120.0".
Proof.
  apply (default_tempo_line (Examples.two_notes 15)).
  - vm_compute. reflexivity.
  - vm_compute. reflexivity.
Defined.

(* ===================================================================== *)
(** * More on the chord grouping *)
(* ===================================================================== *)

Section GroupMore.
Variable tolerance : Q.
Variable all : list event.

Lemma within_sym (a b : Z) : within tolerance a b = within tolerance b a.
Proof.
  unfold within. replace (b - a) with (- (a - b)) by lia.
  rewrite Z.abs_opp. reflexivity.
Qed.

Lemma near_time (time : Z) (e : event) :
  near tolerance time e = true ->
  is_note_on e = true /\ within tolerance time (event_time e) = true.
Proof. destruct e; simpl; [auto|discriminate]. Qed.

Lemma ForallOrdPairs_snoc {A : Type} (R : A -> A -> Prop) (l : list A) (x : A) :
  ForallOrdPairs R l -> Forall (fun a => R a x) l ->
  ForallOrdPairs R (l ++ [x]).
Proof.
  induction 1 as [|a l Ha Hl IH]; simpl; intros Hx.
  - constructor; constructor.
  - apply Forall_cons in Hx as [Hax Hx]. constructor.
    + apply Forall_app. split; [exact Ha|]. constructor; [exact Hax|constructor].
    + apply IH. exact Hx.
Qed.

(** What the loop keeps: the shape of the chords, the meaning of the
    processed times, and the distance between the anchors. *)
Lemma group_loop_spec (todo : list event) (grouped : list grouped_event)
    (P : gset Z) :
  (forall e, In e todo -> In e all) ->
  Forall (anchored tolerance all) grouped ->
  processed_ok tolerance all grouped P ->
  ForallOrdPairs (apart_times tolerance) grouped ->
  let r := group_loop tolerance all todo grouped P in
  Forall (anchored tolerance all) (fst r)
  /\ processed_ok tolerance all (fst r) (snd r)
  /\ ForallOrdPairs (apart_times tolerance) (fst r).
Proof.
  revert grouped P.
  induction todo as [|e rest IH]; intros grouped P Hsub Ha Hp Hd; simpl.
  - auto.
  - assert (Hrest : forall e', In e' rest -> In e' all)
      by (intros e' He'; apply Hsub; right; exact He').
    destruct e as [time note velocity channel program|t n c];
      [|apply IH; assumption].
    destruct (decide (time ∈ P)) as [Hin|Hnin]; [apply IH; assumption|].
    pose proof (scan_notes tolerance time all [] P) as Hn.
    pose proof (scan_processed tolerance time all [] P) as Hs.
    destruct (scan tolerance time all [] P) as [chord_notes P'].
    simpl in Hn, Hs. subst chord_notes P'.
    assert (Hanchor : In (note_on time note velocity channel program) all)
      by (apply Hsub; left; reflexivity).
    apply IH; [exact Hrest| | |].
    + apply Forall_app. split; [exact Ha|]. constructor; [|constructor].
      exists time, note, velocity, channel, program. split; [exact Hanchor|reflexivity].
    + intros x. rewrite elem_of_union, elem_of_list_to_set, list_elem_of_In, (Hp x).
      split.
      * intros [Hx|(g & e & Hg & He & Hne & Ht)].
        -- apply in_map_iff in Hx as (e & Ht & He).
           apply filter_In in He as [He Hne].
           exists (chord time (map event_note (List.filter (near tolerance time) all)) program), e.
           split; [apply in_or_app; right; left; reflexivity|]. auto.
        -- exists g, e. split; [apply in_or_app; left; exact Hg|]. auto.
      * intros (g & e & Hg & He & Hne & Ht).
        apply in_app_or in Hg as [Hg|[<-|[]]].
        -- right. exists g, e. auto.
        -- left. apply in_map_iff. exists e. split; [exact Ht|].
           apply filter_In. split; [exact He|exact Hne].
    + apply ForallOrdPairs_snoc; [exact Hd|].
      apply List.Forall_forall. intros g Hg. unfold apart_times. simpl.
      destruct (within tolerance (grouped_time g) time) eqn:E; [|reflexivity].
      exfalso. apply Hnin. apply Hp.
      exists g, (note_on time note velocity channel program).
      split; [exact Hg|]. split; [exact Hanchor|]. split; [exact E|reflexivity].
Qed.

(** The processed times only grow, and with a tolerance that is not
    negative they hold, at the end, the time of every note_on met. *)
Lemma group_loop_processed (todo : list event) (grouped : list grouped_event)
    (P : gset Z) :
  (0 <= tolerance)%Q ->
  (forall e, In e todo -> In e all) ->
  let r := group_loop tolerance all todo grouped P in
  P ⊆ snd r
  /\ forall e, In e todo -> is_note_on e = true -> event_time e ∈ snd r.
Proof.
  intros Htol. revert grouped P.
  induction todo as [|e rest IH]; intros grouped P Hsub; simpl.
  - split; [reflexivity|intros e []].
  - assert (Hrest : forall e', In e' rest -> In e' all)
      by (intros e' He'; apply Hsub; right; exact He').
    destruct e as [time note velocity channel program|t n c].
    + destruct (decide (time ∈ P)) as [Hin|Hnin].
      * destruct (IH grouped P Hrest) as [H1 H2]. split; [exact H1|].
        intros e [<-|He] Hon; [apply H1; exact Hin|apply H2; assumption].
      * pose proof (scan_processed tolerance time all [] P) as Hs.
        destruct (scan tolerance time all [] P) as [chord_notes P'].
        simpl in Hs. subst P'.
        match goal with
        | |- context [group_loop _ _ _ ?g ?p] =>
            destruct (IH g p Hrest) as [H1 H2]
        end.
        split.
        -- etransitivity; [|exact H1]. apply union_subseteq_r.
        -- intros e [<-|He] Hon; [|apply H2; assumption].
           apply H1. apply elem_of_union_l, elem_of_list_to_set, list_elem_of_In.
           change time with (event_time (note_on time note velocity channel program)) at 1.
           apply in_map. apply filter_In.
           split; [apply Hsub; left; reflexivity|].
           apply near_anchor. exact Htol.
    + destruct (IH grouped P Hrest) as [H1 H2]. split; [exact H1|].
      intros e [<-|He] Hon; [discriminate|apply H2; assumption].
Qed.

(** With the events in time order, the chords come out in time order. *)
Lemma group_loop_sorted (todo : list event) (grouped : list grouped_event)
    (P : gset Z) :
  StronglySorted (key_le event_time) todo ->
  Forall (fun g => Forall (fun e => grouped_time g <= event_time e) todo) grouped ->
  StronglySorted Z.le (map grouped_time grouped) ->
  StronglySorted Z.le
    (map grouped_time (fst (group_loop tolerance all todo grouped P))).
Proof.
  intros Hs. revert grouped P.
  induction Hs as [|e rest Hs IH He]; intros grouped P Hg Hgs; simpl.
  - exact Hgs.
  - assert (Hg' : Forall (fun g => Forall (fun e => grouped_time g <= event_time e) rest)
                         grouped).
    { eapply List.Forall_impl; [|exact Hg]. intros g H.
      apply Forall_cons in H as [_ H]. exact H. }
    destruct e as [time note velocity channel program|t n c];
      [|apply IH; assumption].
    destruct (decide (time ∈ P)); [apply IH; assumption|].
    destruct (scan tolerance time all [] P) as [chord_notes P'].
    apply IH.
    + apply Forall_app. split; [exact Hg'|]. constructor; [|constructor].
      simpl. eapply List.Forall_impl; [|exact He]. unfold key_le. simpl. auto.
    + rewrite map_app. apply StronglySorted_app_le; [exact Hgs| |].
      * simpl. repeat constructor.
      * intros a b Ha [<-|[]].
        apply in_map_iff in Ha as (g & <- & Hin).
        rewrite List.Forall_forall in Hg. specialize (Hg g Hin).
        apply Forall_cons in Hg as [Hg _]. exact Hg.
Qed.

End GroupMore.

Lemma sorted_NoDup_lt (l : list Z) :
  StronglySorted Z.le l -> NoDup l -> StronglySorted Z.lt l.
Proof.
  induction 1 as [|a l Hs IH Ha]; intros Hnd; constructor.
  - apply IH. apply NoDup_cons in Hnd as [_ Hnd]. exact Hnd.
  - apply NoDup_cons in Hnd as [Hna _].
    apply List.Forall_forall. intros b Hb.
    rewrite List.Forall_forall in Ha. specialize (Ha b Hb).
    assert (a <> b) by (intros ->; apply Hna; apply list_elem_of_In; exact Hb).
    lia.
Qed.

(** X9. What a chord holds.  Every chord is made of an anchor that is a
    note_on of the list: it has the time and the program of the anchor,
    and its notes are those of all the note_ons of the list within the
    tolerance of the anchor time, in list order. *)
Theorem chord_contents (ticks_per_beat : Z) (events : list event) :
  Forall (fun g =>
            exists time note velocity channel program,
              In (note_on time note velocity channel program) events
              /\ g = chord time
                       (map event_note
                          (List.filter (near (tolerance_of ticks_per_beat) time) events))
                       program)
         (group_chords ticks_per_beat events).
Proof.
  unfold group_chords.
  destruct (group_loop_spec (tolerance_of ticks_per_beat) events events [] ∅)
    as (H & _ & _).
  - auto.
  - constructor.
  - intros x. split; [intros Hx; exfalso; revert Hx; apply not_elem_of_empty|].
    intros (g & e & [] & _).
  - constructor.
  - exact H.
Qed.

(** X10. Any two chords have times further apart than the tolerance. *)
Theorem chords_apart (ticks_per_beat : Z) (events : list event) :
  ForallOrdPairs
    (fun g1 g2 =>
       (tolerance_of ticks_per_beat
        < inject_Z (Z.abs (grouped_time g2 - grouped_time g1)))%Q)
    (group_chords ticks_per_beat events).
Proof.
  unfold group_chords.
  destruct (group_loop_spec (tolerance_of ticks_per_beat) events events [] ∅)
    as (_ & _ & H).
  - auto.
  - constructor.
  - intros x. split; [intros Hx; exfalso; revert Hx; apply not_elem_of_empty|].
    intros (g & e & [] & _).
  - constructor.
  - induction H as [|g l Hg Hl IH]; constructor; [|exact IH].
    eapply List.Forall_impl; [|exact Hg].
    intros g' Hgg'. unfold apart_times, within in Hgg'.
    apply Qltb_lt. unfold Qltb. unfold Qleb in Hgg'. rewrite Hgg'. reflexivity.
Qed.

(** X11. No note is dropped.  When the resolution is not negative, the
    note of every note_on of the list is in a chord whose time is within
    the tolerance of the time of the event. *)
Theorem every_note_in_a_chord (ticks_per_beat : Z) (events : list event)
    (time note velocity channel program : Z) :
  0 <= ticks_per_beat ->
  In (note_on time note velocity channel program) events ->
  exists t notes p,
    In (chord t notes p) (group_chords ticks_per_beat events)
    /\ In note notes
    /\ within (tolerance_of ticks_per_beat) t time = true.
Proof.
  intros Htpb Hin. unfold group_chords.
  set (tol := tolerance_of ticks_per_beat).
  destruct (group_loop_spec tol events events [] ∅) as (Ha & Hp & _).
  { auto. }
  { constructor. }
  { intros x. split; [intros Hx; exfalso; revert Hx; apply not_elem_of_empty|].
    intros (g & e & [] & _). }
  { constructor. }
  destruct (group_loop_processed tol events events [] ∅) as [_ Hall].
  { apply tolerance_nonneg. exact Htpb. }
  { auto. }
  specialize (Hall _ Hin eq_refl). simpl in Hall.
  apply Hp in Hall as (g & e & Hg & He & Hne & Ht).
  rewrite List.Forall_forall in Ha.
  destruct (Ha g Hg) as (t & n & v & c & p & _ & ->).
  simpl in Hne, Ht.
  apply near_time in Hne as [_ Hw]. rewrite Ht in Hw.
  exists t, (map event_note (List.filter (near tol t) events)), p.
  split; [exact Hg|]. split; [|exact Hw].
  change note with (event_note (note_on time note velocity channel program)).
  apply in_map. apply filter_In. split; [exact Hin|exact Hw].
Qed.

Lemma every_note_in_a_chord_witness :
  exists t notes p,
    In (chord t notes p)
       (group_chords 480 [note_on 0 60 64 0 0; note_on 15 64 64 0 0;
                          note_on 30 67 64 0 0])
    /\ In 64 notes
    /\ within (tolerance_of 480) t 15 = true.
Proof.
  apply (every_note_in_a_chord 480 _ 15 64 64 0 0).
  - lia.
  - right. left. reflexivity.
Defined.

(** X12. For a file whose resolution is not negative, the chords are made
    in strictly increasing time order. *)
Theorem chords_in_time_order (mid : MidiFile) :
  0 <= ticks_per_beat mid ->
  StronglySorted Z.lt
    (map grouped_time (group_chords (ticks_per_beat mid) (events (extract mid)))).
Proof.
  intros Htpb. apply sorted_NoDup_lt.
  - unfold group_chords. apply group_loop_sorted.
    + unfold extract. cbn [events]. apply sort_by_sorted.
    + constructor.
    + constructor.
  - unfold group_chords.
    destruct (group_loop_invariant (tolerance_of (ticks_per_beat mid))
                (events (extract mid)) (events (extract mid)) [] ∅)
      as [_ Hnd].
    + apply tolerance_nonneg. exact Htpb.
    + auto.
    + constructor.
    + constructor.
    + exact Hnd.
Qed.

Lemma chords_in_time_order_witness :
  StronglySorted Z.lt
    (map grouped_time
       (group_chords (ticks_per_beat Examples.tempo_between_chords)
          (events (extract Examples.tempo_between_chords)))).
Proof.
  apply (chords_in_time_order Examples.tempo_between_chords). simpl. lia.
Defined.

(* ===================================================================== *)
(** * The lines one event appends *)
(* ===================================================================== *)

Section LineFacts.

Lemma instruments_app (l1 l2 : list line) :
  instruments (l1 ++ l2) = (instruments l1 ++ instruments l2)%list.
Proof.
  induction l1 as [|l l1 IH]; simpl; [reflexivity|].
  destruct l; simpl; rewrite IH; reflexivity.
Qed.

Lemma tempos_app (l1 l2 : list line) :
  tempos (l1 ++ l2) = (tempos l1 ++ tempos l2)%list.
Proof.
  induction l1 as [|l l1 IH]; simpl; [reflexivity|].
  destruct l; simpl; rewrite IH; reflexivity.
Qed.

Lemma note_lines_app (l1 l2 : list line) :
  note_lines (l1 ++ l2) = (note_lines l1 ++ note_lines l2)%list.
Proof.
  induction l1 as [|l l1 IH]; simpl; [reflexivity|].
  destruct l; simpl; rewrite IH; reflexivity.
Qed.

Lemma changes_snoc {A : Type} (R : A -> A -> Prop) (l : list A) (x : A) :
  changes R l ->
  (forall a, last l = Some a -> ~ R a x) ->
  changes R (l ++ [x]).
Proof.
  induction l as [|a l IH]; simpl; intros Hc Hl; [auto|].
  destruct Hc as [Hab Hc].
  destruct l as [|b l]; simpl in *.
  - split; [apply Hl; reflexivity|auto].
  - split; [exact Hab|]. apply IH; [exact Hc|]. exact Hl.
Qed.

Lemma rests_before_notes_app (l1 l2 : list line) :
  rests_before_notes l1 ->
  (forall l, last l1 = Some l -> is_Rest l = false) ->
  rests_before_notes l2 ->
  rests_before_notes (l1 ++ l2).
Proof.
  induction l1 as [|l l1 IH]; simpl; intros H1 Hl H2; [exact H2|].
  destruct H1 as [Hhead H1].
  split.
  - destruct l; try exact I. destruct Hhead as [Hr Hn]. split; [exact Hr|].
    destruct l1 as [|l' l1]; [destruct Hn|exact Hn].
  - apply IH; [exact H1| |exact H2].
    intros l' Hl'. apply Hl. destruct l1; [discriminate|exact Hl'].
Qed.

End LineFacts.

Section SerializerMore.
Variable ticks_per_beat : Z.

Lemma on_grouped_chunk (s s' : serializer) (g : grouped_event) :
  on_grouped ticks_per_beat s g = Ok s' -> chunk s g s'.
Proof.
  intros H. destruct g as [time_point notes program|time_point new_tempo];
    unfold on_grouped in H.
  - apply bind_Ok in H as (s2 & Hrest & Hfin).
    injection Hfin as <-. cbn [output_lines append_line current_bpm last_instrument].
    destruct (negb (gm_to_scratch_instrument program =? last_instrument s)) eqn:E1.
    + apply negb_true_iff, Z.eqb_neq in E1.
      cbn [previous_time append_line output_lines current_bpm last_instrument] in Hrest.
      destruct (time_point >? previous_time s).
      * apply bind_Ok in Hrest as (rest_beats & _ & Hk).
        destruct (Qleb _ _); injection Hk as <-;
          cbn [output_lines append_line current_bpm last_instrument].
        -- rewrite <- !app_assoc.
           apply (chunk_chord s time_point notes program
                    [Instr (gm_to_scratch_instrument program)]
                    [Rest (round_to_musical_beat rest_beats)]).
           ++ right. auto.
           ++ right. eexists. split; [reflexivity|apply round_to_musical_beat_lower].
        -- rewrite <- !app_assoc.
           apply (chunk_chord s time_point notes program
                    [Instr (gm_to_scratch_instrument program)] []); auto.
      * injection Hrest as <-. cbn [output_lines append_line current_bpm last_instrument].
        rewrite <- !app_assoc.
        apply (chunk_chord s time_point notes program
                 [Instr (gm_to_scratch_instrument program)] []); auto.
    + apply negb_false_iff, Z.eqb_eq in E1.
      destruct (time_point >? previous_time s).
      * apply bind_Ok in Hrest as (rest_beats & _ & Hk).
        destruct (Qleb _ _); injection Hk as <-;
          cbn [output_lines append_line current_bpm last_instrument].
        -- rewrite <- !app_assoc. rewrite <- E1.
           apply (chunk_chord s time_point notes program []
                    [Rest (round_to_musical_beat rest_beats)]).
           ++ left. auto.
           ++ right. eexists. split; [reflexivity|apply round_to_musical_beat_lower].
        -- rewrite <- E1.
           apply (chunk_chord s time_point notes program [] []); auto.
      * injection Hrest as <-. rewrite <- E1.
        apply (chunk_chord s time_point notes program [] []); auto.
  - apply bind_Ok in H as (new_bpm & _ & Hk).
    destruct (negb (Qeq_bool new_bpm (current_bpm s))) eqn:E; injection Hk as <-.
    + cbn [append_line previous_time last_instrument output_lines].
      apply chunk_tempo_new.
      apply negb_true_iff in E. intros Heq. apply Qeq_bool_iff in Heq. congruence.
    + apply chunk_tempo_same.
Qed.

End SerializerMore.

(* ===================================================================== *)
(** * The shape of the output *)
(* ===================================================================== *)

Section OutputShape.

Lemma chunk_state_ok (s s' : serializer) (g : grouped_event) :
  state_ok s -> chunk s g s' -> state_ok s'.
Proof.
  intros (Hi & Hb & Hci & Hcb & Hr & Hl) Hc.
  destruct Hc as [time new_tempo|time new_tempo new_bpm Hne
                 |time notes program instr rest Hinstr Hrest];
    unfold state_ok; cbn [output_lines last_instrument current_bpm].
  - repeat split; assumption.
  - rewrite instruments_app, tempos_app. simpl. rewrite app_nil_r.
    split; [exact Hi|]. split; [apply last_snoc|]. split; [exact Hci|].
    split; [|split].
    + apply changes_snoc; [exact Hcb|].
      intros a Ha. rewrite Hb in Ha. injection Ha as <-.
      intros Heq. apply Hne. symmetry. exact Heq.
    + apply rests_before_notes_app; [exact Hr|exact Hl|simpl; auto].
    + intros l. rewrite last_snoc. intros [= <-]. reflexivity.
  - assert (Hnote : forall l,
               last (output_lines s ++ instr ++ rest ++ [Note notes]) = Some l ->
               is_Rest l = false).
    { intros l. rewrite !app_assoc, last_snoc. intros [= <-]. reflexivity. }
    assert (Hshape : rests_before_notes (instr ++ rest ++ [Note notes])).
    { destruct Hinstr as [[-> _]|[-> _]];
        destruct Hrest as [->|(r & -> & Hr1)]; simpl; auto. }
    assert (Htempos : tempos (output_lines s ++ instr ++ rest ++ [Note notes])
                      = tempos (output_lines s)).
    { rewrite !tempos_app.
      destruct Hinstr as [[-> _]|[-> _]];
        destruct Hrest as [->|(r & -> & _)]; simpl; rewrite ?app_nil_r; reflexivity. }
    assert (Hinstrs : instruments (output_lines s ++ instr ++ rest ++ [Note notes])
                      = (instruments (output_lines s) ++ instruments instr)%list).
    { rewrite !instruments_app.
      destruct Hrest as [->|(r & -> & _)]; simpl; rewrite ?app_nil_r; reflexivity. }
    rewrite Htempos, Hinstrs.
    split; [|split; [exact Hb|split; [|split; [exact Hcb|split; [|exact Hnote]]]]].
    + destruct Hinstr as [[-> E]|[-> E]]; simpl.
      * rewrite app_nil_r, E. exact Hi.
      * apply last_snoc.
    + destruct Hinstr as [[-> E]|[-> E]]; simpl.
      * rewrite app_nil_r. exact Hci.
      * apply changes_snoc; [exact Hci|].
        intros a Ha. rewrite Hi in Ha. injection Ha as <-.
        intros Heq. apply E. symmetry. exact Heq.
    + apply rests_before_notes_app; [exact Hr|exact Hl|exact Hshape].
Qed.

Lemma chunk_note_lines (s s' : serializer) (g : grouped_event) :
  chunk s g s' ->
  note_lines (output_lines s')
  = (note_lines (output_lines s) ++ chord_notes [g])%list.
Proof.
  intros Hc.
  destruct Hc as [time new_tempo|time new_tempo new_bpm Hne
                 |time notes program instr rest Hinstr Hrest];
    cbn [output_lines chord_notes].
  - rewrite app_nil_r. reflexivity.
  - rewrite note_lines_app. reflexivity.
  - rewrite !note_lines_app.
    destruct Hinstr as [[-> _]|[-> _]];
      destruct Hrest as [->|(r & -> & _)]; reflexivity.
Qed.

Lemma chord_notes_app (l1 l2 : list grouped_event) :
  chord_notes (l1 ++ l2) = (chord_notes l1 ++ chord_notes l2)%list.
Proof.
  induction l1 as [|g l1 IH]; simpl; [reflexivity|].
  destruct g; simpl; rewrite IH; reflexivity.
Qed.

Lemma serialize_shape (ticks_per_beat : Z) (gs : list grouped_event)
    (s s' : serializer) :
  serialize ticks_per_beat gs s = Ok s' ->
  state_ok s ->
  state_ok s'
  /\ note_lines (output_lines s')
     = (note_lines (output_lines s) ++ chord_notes gs)%list.
Proof.
  revert s. induction gs as [|g rest IH]; intros s H Hok; simpl in H.
  - injection H as <-. simpl. rewrite app_nil_r. auto.
  - apply bind_Ok in H as (s1 & Hg & Hrest).
    apply on_grouped_chunk in Hg.
    destruct (IH _ Hrest (chunk_state_ok _ _ _ Hok Hg)) as [H1 H2].
    split; [exact H1|].
    rewrite H2, (chunk_note_lines _ _ _ Hg), <- app_assoc.
    change (g :: rest) with ([g] ++ rest)%list. rewrite chord_notes_app.
    reflexivity.
Qed.

Lemma serializer_init_ok (first : Z) (bpm : Q) : state_ok (serializer_init first bpm).
Proof.
  unfold state_ok. simpl. repeat split; auto.
  intros l [= <-]. reflexivity.
Qed.

(** The state at the end of a conversion that gives lines. *)
Lemma lines_of_shape (mid : MidiFile) (lines : list line) :
  lines_of mid = Ok (Some lines) ->
  exists s, output_lines s = lines /\ state_ok s
            /\ note_lines lines
               = chord_notes (merged (ticks_per_beat mid) (extract mid)).
Proof.
  intros H. apply lines_of_Some in H. unfold convert in H.
  apply bind_Ok in H as (bpm & _ & H).
  apply bind_Ok in H as (s & Hs & H). injection H as <-.
  destruct (serialize_shape _ _ _ _ Hs (serializer_init_ok _ _)) as [H1 H2].
  exists s. split; [reflexivity|]. split; [exact H1|]. exact H2.
Qed.

Lemma chord_notes_tempos (ts : list grouped_event) :
  Forall (fun g => is_chord g = false) ts -> chord_notes ts = [].
Proof.
  induction 1 as [|g ts Hg _ IH]; [reflexivity|].
  destruct g; [discriminate|exact IH].
Qed.

Lemma chord_notes_insert (c : grouped_event) (l : list grouped_event) :
  Forall (fun g => is_chord g = true -> grouped_time c <= grouped_time g) l ->
  chord_notes (insert_by grouped_time c l) = chord_notes (c :: l).
Proof.
  induction 1 as [|y rest Hy Hrest IH]; [reflexivity|].
  simpl insert_by. destruct (grouped_time c <=? grouped_time y) eqn:E;
    [reflexivity|].
  apply Z.leb_gt in E.
  destruct y as [ty ny py|ty tp].
  - specialize (Hy eq_refl). simpl in Hy, E. lia.
  - change (chord_notes (tempo ty tp :: insert_by grouped_time c rest))
      with (chord_notes (insert_by grouped_time c rest)).
    rewrite IH. destruct c; reflexivity.
Qed.

Lemma chord_notes_sort (cs ts : list grouped_event) :
  StronglySorted Z.le (map grouped_time cs) ->
  Forall (fun g => is_chord g = false) ts ->
  chord_notes (sort_by grouped_time (cs ++ ts)) = chord_notes cs.
Proof.
  intros Hs Hts. induction cs as [|c cs IH]; simpl.
  - apply chord_notes_tempos. apply Forall_sort_by. exact Hts.
  - simpl in Hs. inversion Hs as [|? ? Hs' Hc]; subst.
    rewrite chord_notes_insert.
    + destruct c; cbn [chord_notes]; rewrite (IH Hs'); reflexivity.
    + apply Forall_sort_by. apply Forall_app. split.
      * apply List.Forall_forall. intros g Hg _.
        rewrite List.Forall_forall in Hc. apply Hc. apply in_map. exact Hg.
      * eapply List.Forall_impl; [|exact Hts]. simpl. intros g H1 H2. congruence.
Qed.

Lemma merged_chord_notes (mid : MidiFile) :
  chord_notes (merged (ticks_per_beat mid) (extract mid))
  = chord_notes (group_chords (ticks_per_beat mid) (events (extract mid))).
Proof.
  unfold merged. apply chord_notes_sort.
  - unfold group_chords. apply group_loop_sorted.
    + unfold extract. cbn [events]. apply sort_by_sorted.
    + constructor.
    + constructor.
  - apply tempo_events_tempos.
Qed.

End OutputShape.

(** X13. No line repeats the state in effect: two [Instr] lines that
    follow one another (with other lines in between or not) name
    different instruments, and two [BPM] lines that follow one another
    give different tempos. *)
Theorem no_redundant_lines (mid : MidiFile) (lines : list line) :
  lines_of mid = Ok (Some lines) ->
  changes eq (instruments lines) /\ changes Qeq (tempos lines).
Proof.
  intros H. apply lines_of_shape in H as (s & <- & Hok & _).
  destruct Hok as (_ & _ & H1 & H2 & _). auto.
Qed.

Lemma no_redundant_lines_witness :
  changes eq (instruments [Instr 1; BPM 120; Rest (Float (Float.lit 1.5));
                           Note [60]; BPM 100])
  /\ changes Qeq (tempos [Instr 1; BPM 120; Rest (Float (Float.lit 1.5));
                          Note [60]; BPM 100]).
Proof.
  apply (no_redundant_lines Examples.tempo_at_chord). vm_compute. reflexivity.
Defined.

(** X14. A [Rest] line is never shorter than a 128th note and is always
    followed at once by a [Note] line; no output ends with a rest. *)
Theorem rests_lead_to_notes (mid : MidiFile) (lines : list line) :
  lines_of mid = Ok (Some lines) ->
  rests_before_notes lines.
Proof.
  intros H. apply lines_of_shape in H as (s & <- & Hok & _).
  destruct Hok as (_ & _ & _ & _ & H & _). exact H.
Qed.

Lemma rests_lead_to_notes_witness :
  rests_before_notes
    [Instr 1; BPM 120; Note [60]; Rest (Float (Float.lit 0.04)); Note [64]].
Proof.
  apply (rests_lead_to_notes (Examples.two_notes 16)). vm_compute. reflexivity.
Defined.

(** X15. The [Note] lines are the chords of the grouping, one line for each
    chord and in the same order. *)
Theorem note_lines_are_chords (mid : MidiFile) (lines : list line) :
  lines_of mid = Ok (Some lines) ->
  note_lines lines
  = chord_notes (group_chords (ticks_per_beat mid) (events (extract mid))).
Proof.
  intros H. apply lines_of_shape in H as (s & <- & _ & H).
  rewrite H. apply merged_chord_notes.
Qed.

Lemma note_lines_are_chords_witness :
  note_lines [Instr 1; BPM 120; Note [60]; Rest (Float (Float.lit 0.04)); Note [64]]
  = chord_notes (group_chords (ticks_per_beat (Examples.two_notes 16))
                   (events (extract (Examples.two_notes 16)))).
Proof.
  apply (note_lines_are_chords (Examples.two_notes 16)). vm_compute. reflexivity.
Defined.

(* ===================================================================== *)
(** * Exceptions *)
(* ===================================================================== *)

Section Exceptions.


Lemma truediv_zero (x : Q) : truediv x (inject_Z 0) = Raise "ZeroDivisionError".
Proof. reflexivity. Qed.













End Exceptions.






(* ===================================================================== *)
(** * What the call writes, and what the output does not depend on *)
(* ===================================================================== *)

(** X18. The call changes at most one file, the output file: every other
    path keeps its content, and the reader and the errors of the world
    are untouched.  A call that raises leaves the world as it was, and so
    does a call that returns a failure, unless the writing failed once
    the file was open: then the output file holds what the failed write
    left.  On success the output file holds the lines that the conversion
    computed, joined by newlines. *)
Theorem only_output_file_written (midi_file output_file : string) (w : world) :
  midi_reader (snd (midi_to_scratch midi_file output_file w)) = midi_reader w
  /\ open_error (snd (midi_to_scratch midi_file output_file w)) = open_error w
  /\ write_error (snd (midi_to_scratch midi_file output_file w)) = write_error w
  /\ (forall path : string, path <> output_file ->
        files (snd (midi_to_scratch midi_file output_file w)) !! path
        = files w !! path)
  /\ (forall e : string,
        fst (midi_to_scratch midi_file output_file w) = Raise e ->
        snd (midi_to_scratch midi_file output_file w) = w)
  /\ (forall message : string,
        fst (midi_to_scratch midi_file output_file w) = Ok (false, message) ->
        snd (midi_to_scratch midi_file output_file w) = w
        \/ exists (mid : MidiFile) (lines : list line) (e remains : string),
             midi_reader w midi_file = Ok mid
             /\ lines_of mid = Ok (Some lines)
             /\ open_error w output_file = None
             /\ write_error w output_file (file_text lines) = Some (e, remains)
             /\ message = "Error writing output file: " ++ e
             /\ files (snd (midi_to_scratch midi_file output_file w)) !! output_file
                = Some remains)
  /\ (forall message : string,
        fst (midi_to_scratch midi_file output_file w) = Ok (true, message) ->
        exists (mid : MidiFile) (lines : list line),
          midi_reader w midi_file = Ok mid
          /\ lines_of mid = Ok (Some lines)
          /\ open_error w output_file = None
          /\ write_error w output_file (file_text lines) = None
          /\ files (snd (midi_to_scratch midi_file output_file w)) !! output_file
             = Some (file_text lines)).
Proof.
  unfold midi_to_scratch.
  destruct (midi_reader w midi_file) as [mid|e] eqn:Eread;
    [|repeat split; auto; intros; discriminate].
  destruct (events (extract mid)) as [|e0 rest] eqn:Eev;
    [repeat split; auto; intros; discriminate|].
  destruct (convert mid (extract mid)) as [lines|e1] eqn:Econv;
    [|repeat split; auto; intros; discriminate].
  assert (Hlines : lines_of mid = Ok (Some lines)).
  { unfold lines_of. cbv zeta. rewrite Eev, Econv. reflexivity. }
  destruct (open_error w output_file) as [e2|] eqn:Eopen;
    [repeat split; auto; intros; discriminate|].
  destruct (write_error w output_file (file_text lines)) as [[e3 remains]|] eqn:Ewrite;
    cbn [fst snd midi_reader open_error write_error files].
  - do 3 (split; [reflexivity|]). split; [|split; [|split]].
    + intros path Hne. apply lookup_insert_ne. congruence.
    + intros e. discriminate.
    + intros message [= <-]. right. exists mid, lines, e3, remains.
      repeat split; try assumption. apply lookup_insert_eq.
    + intros message. discriminate.
  - do 3 (split; [reflexivity|]). split; [|split; [|split]].
    + intros path Hne. apply lookup_insert_ne. congruence.
    + intros e. discriminate.
    + intros message. discriminate.
    + intros message _. exists mid, lines.
      repeat split; try assumption. apply lookup_insert_eq.
Qed.

Lemma only_output_file_written_witness :
  files (snd (midi_to_scratch "song.mid" "song_scratch.txt"
                (Examples.world_of (Examples.scenario 0 64)))) !! "other.txt"
  = files (Examples.world_of (Examples.scenario 0 64)) !! "other.txt".
Proof.
  apply (proj1 (proj2 (proj2 (proj2
           (only_output_file_written "song.mid" "song_scratch.txt"
              (Examples.world_of (Examples.scenario 0 64))))))).
  discriminate.
Defined.

Section SortMap.
Context {A B : Type} (keyA : A -> Z) (keyB : B -> Z) (f : A -> B).
Hypothesis key_f : forall a, keyB (f a) = keyA a.

Lemma insert_by_map (x : A) (l : list A) :
  insert_by keyB (f x) (map f l) = map f (insert_by keyA x l).
Proof.
  induction l as [|y rest IH]; simpl; [reflexivity|].
  rewrite !key_f. destruct (keyA x <=? keyA y); simpl; [reflexivity|].
  rewrite IH. reflexivity.
Qed.

Lemma sort_by_map (l : list A) :
  sort_by keyB (map f l) = map f (sort_by keyA l).
Proof.
  induction l as [|x rest IH]; simpl; [reflexivity|].
  rewrite IH. apply insert_by_map.
Qed.
End SortMap.

Section SortFilter.
Context {A : Type} (key : A -> Z) (f : A -> bool).

Lemma insert_by_filter_out (x : A) (l : list A) :
  f x = false ->
  List.filter f (insert_by key x l) = List.filter f l.
Proof.
  intros Hx. induction l as [|y rest IH]; simpl; [rewrite Hx; reflexivity|].
  destruct (key x <=? key y); simpl; [rewrite Hx; reflexivity|].
  rewrite IH. reflexivity.
Qed.

Lemma insert_by_filter_in (x : A) (l : list A) :
  f x = true ->
  StronglySorted (key_le key) l ->
  List.filter f (insert_by key x l) = insert_by key x (List.filter f l).
Proof.
  intros Hx. induction 1 as [|y rest Hs IH Hy]; simpl; [rewrite Hx; reflexivity|].
  destruct (key x <=? key y) eqn:E; simpl.
  - rewrite Hx. destruct (f y) eqn:Ey; simpl; [rewrite E; reflexivity|].
    clear IH. apply Z.leb_le in E.
    induction rest as [|z rest IHr]; simpl; [reflexivity|].
    apply Forall_cons in Hy as [Hyz Hy]. inversion Hs; subst.
    destruct (f z) eqn:Ez; simpl.
    + assert ((key x <=? key z) = true) as -> by (unfold key_le in Hyz; lia).
      reflexivity.
    + apply IHr; assumption.
  - rewrite IH. destruct (f y); simpl; [rewrite E; reflexivity|reflexivity].
Qed.

Lemma sort_by_filter (l : list A) :
  List.filter f (sort_by key l) = sort_by key (List.filter f l).
Proof.
  induction l as [|x rest IH]; simpl; [reflexivity|].
  destruct (f x) eqn:Ex; simpl.
  - rewrite insert_by_filter_in by (auto using sort_by_sorted). rewrite IH. reflexivity.
  - rewrite insert_by_filter_out by exact Ex. exact IH.
Qed.
End SortFilter.

Section Plain.

Lemma on_message_plain (t p : Z) (x : extractor) (msg : message) :
  on_message (t, p, plain_extractor x) (plain msg)
  = (fst (on_message (t, p, x) msg), plain_extractor (snd (on_message (t, p, x) msg))).
Proof.
  destruct msg as [channel note velocity d|channel note velocity d
                  |channel program d|new_tempo d|d]; simpl; try reflexivity.
  - destruct (velocity >? 0) eqn:E1; simpl.
    + unfold plain_extractor. simpl. rewrite map_app. reflexivity.
    + rewrite E1. destruct (velocity =? 0); simpl; [|reflexivity].
      unfold plain_extractor. simpl. rewrite map_app. reflexivity.
  - unfold plain_extractor. simpl. rewrite map_app. reflexivity.
Qed.

Lemma fold_on_message_plain (msgs : list message) (t p : Z) (x : extractor) :
  fold_left on_message (map plain msgs) (t, p, plain_extractor x)
  = (fst (fold_left on_message msgs (t, p, x)),
     plain_extractor (snd (fold_left on_message msgs (t, p, x)))).
Proof.
  revert t p x. induction msgs as [|msg rest IH]; intros t p x; [reflexivity|].
  cbn [map fold_left]. rewrite on_message_plain.
  destruct (on_message (t, p, x) msg) as [[t' p'] x']. cbn [fst snd].
  apply IH.
Qed.

Lemma fold_on_track_plain (ts : list (list message)) (x : extractor) :
  fold_left on_track (map (map plain) ts) (plain_extractor x)
  = plain_extractor (fold_left on_track ts x).
Proof.
  revert x. induction ts as [|track rest IH]; intros x; [reflexivity|].
  cbn [map fold_left]. unfold on_track at 2 4.
  rewrite fold_on_message_plain. cbn [snd]. apply IH.
Qed.

Lemma extract_plain (mid : MidiFile) :
  extract (plain_file mid) = plain_extractor (extract mid).
Proof.
  unfold extract, plain_file. cbn [tracks].
  change extractor_init with (plain_extractor extractor_init).
  rewrite fold_on_track_plain. unfold plain_extractor at 2 3 4.
  cbn [events current_tempo tempo_changes].
  unfold plain_extractor. cbn [events current_tempo tempo_changes].
  f_equal. apply sort_by_map. intros []; reflexivity.
Qed.

Lemma first_instrument_plain (l : list event) :
  first_instrument (map plain_event l) = first_instrument l.
Proof.
  induction l as [|e rest IH]; [reflexivity|]. destruct e; simpl; auto.
Qed.

Lemma scan_plain (tolerance : Q) (time : Z) (evs : list event)
    (acc : list Z) (P : gset Z) :
  scan tolerance time (map plain_event evs) acc P = scan tolerance time evs acc P.
Proof.
  revert acc P. induction evs as [|e rest IH]; intros acc P; [reflexivity|].
  destruct e; simpl; [destruct (within _ _ _)|]; apply IH.
Qed.

Lemma group_loop_plain (tolerance : Q) (all todo : list event)
    (grouped : list grouped_event) (P : gset Z) :
  group_loop tolerance (map plain_event all) (map plain_event todo) grouped P
  = group_loop tolerance all todo grouped P.
Proof.
  revert grouped P. induction todo as [|e rest IH]; intros grouped P; [reflexivity|].
  destruct e; simpl; [|apply IH].
  destruct (decide (_ ∈ P)); [apply IH|].
  rewrite scan_plain. destruct (scan _ _ _ _ _). apply IH.
Qed.

Lemma convert_plain (mid : MidiFile) (x : extractor) :
  convert (plain_file mid) (plain_extractor x) = convert mid x.
Proof.
  unfold convert, merged, group_chords. cbv zeta.
  cbn [plain_file plain_extractor ticks_per_beat events tempo_changes].
  rewrite first_instrument_plain, group_loop_plain. reflexivity.
Qed.

End Plain.

Section NoteOnsOnly.

Lemma on_message_without_note_off (t p : Z) (x : extractor) (msg : message) :
  on_message (t, p, note_ons_only x) (without_note_off msg)
  = (fst (on_message (t, p, x) msg), note_ons_only (snd (on_message (t, p, x) msg))).
Proof.
  destruct msg as [channel note velocity d|channel note velocity d
                  |channel program d|new_tempo d|d]; simpl; try reflexivity.
  - destruct (velocity =? 0) eqn:E0; simpl.
    + assert ((velocity >? 0) = false) as -> by lia. simpl.
      unfold note_ons_only. simpl. rewrite List.filter_app. simpl.
      rewrite app_nil_r. reflexivity.
    + destruct (velocity >? 0) eqn:E1; simpl; [|rewrite E0; reflexivity].
      unfold note_ons_only. simpl. rewrite List.filter_app. reflexivity.
  - unfold note_ons_only. simpl. rewrite List.filter_app. simpl.
    rewrite app_nil_r. reflexivity.
Qed.

Lemma fold_on_message_without_note_off (msgs : list message) (t p : Z)
    (x : extractor) :
  fold_left on_message (map without_note_off msgs) (t, p, note_ons_only x)
  = (fst (fold_left on_message msgs (t, p, x)),
     note_ons_only (snd (fold_left on_message msgs (t, p, x)))).
Proof.
  revert t p x. induction msgs as [|msg rest IH]; intros t p x; [reflexivity|].
  cbn [map fold_left]. rewrite on_message_without_note_off.
  destruct (on_message (t, p, x) msg) as [[t' p'] x']. cbn [fst snd].
  apply IH.
Qed.

Lemma fold_on_track_without_note_off (ts : list (list message)) (x : extractor) :
  fold_left on_track (map (map without_note_off) ts) (note_ons_only x)
  = note_ons_only (fold_left on_track ts x).
Proof.
  revert x. induction ts as [|track rest IH]; intros x; [reflexivity|].
  cbn [map fold_left]. unfold on_track at 2 4.
  rewrite fold_on_message_without_note_off. cbn [snd]. apply IH.
Qed.

Lemma extract_without_note_offs (mid : MidiFile) :
  extract (without_note_offs mid) = note_ons_only (extract mid).
Proof.
  unfold extract, without_note_offs. cbn [tracks].
  change extractor_init with (note_ons_only extractor_init).
  rewrite fold_on_track_without_note_off.
  unfold note_ons_only. cbn [events current_tempo tempo_changes].
  f_equal. symmetry. apply sort_by_filter.
Qed.

Lemma first_instrument_note_ons (l : list event) :
  first_instrument (List.filter is_note_on l) = first_instrument l.
Proof.
  induction l as [|e rest IH]; [reflexivity|]. destruct e; simpl; auto.
Qed.

Lemma scan_note_ons (tolerance : Q) (time : Z) (evs : list event)
    (acc : list Z) (P : gset Z) :
  scan tolerance time (List.filter is_note_on evs) acc P
  = scan tolerance time evs acc P.
Proof.
  revert acc P. induction evs as [|e rest IH]; intros acc P; [reflexivity|].
  destruct e; simpl; [destruct (within _ _ _)|]; apply IH.
Qed.

Lemma group_loop_note_ons (tolerance : Q) (all todo : list event)
    (grouped : list grouped_event) (P : gset Z) :
  group_loop tolerance (List.filter is_note_on all) (List.filter is_note_on todo)
             grouped P
  = group_loop tolerance all todo grouped P.
Proof.
  revert grouped P. induction todo as [|e rest IH]; intros grouped P; [reflexivity|].
  destruct e; simpl; [|apply IH].
  destruct (decide (_ ∈ P)); [apply IH|].
  rewrite scan_note_ons. destruct (scan _ _ _ _ _). apply IH.
Qed.

Lemma convert_note_ons (mid : MidiFile) (x : extractor) :
  convert (without_note_offs mid) (note_ons_only x) = convert mid x.
Proof.
  unfold convert, merged, group_chords. cbv zeta.
  cbn [without_note_offs note_ons_only ticks_per_beat events tempo_changes].
  rewrite first_instrument_note_ons, group_loop_note_ons. reflexivity.
Qed.

End NoteOnsOnly.

(** X19. Channels and velocities do not show in the output: a file and the
    same file with every channel set to 0 and every positive velocity set
    to 1 give the same lines (or the same exception). *)
Theorem output_ignores_channel_and_velocity (mid : MidiFile) :
  lines_of (plain_file mid) = lines_of mid.
Proof.
  unfold lines_of. cbv zeta. rewrite extract_plain, convert_plain.
  cbn [plain_extractor events].
  destruct (events (extract mid)); reflexivity.
Qed.

(** X20. The ends of the notes do not show in the output either: when the
    file has a note_on of positive velocity, replacing every note_off
    (and every note_on of velocity 0) by a message that only takes its
    delta time gives the same lines. *)
Theorem output_ignores_note_offs (mid : MidiFile) :
  existsb is_note_on (events (extract mid)) = true ->
  lines_of (without_note_offs mid) = lines_of mid.
Proof.
  intros Hon. unfold lines_of. cbv zeta.
  rewrite extract_without_note_offs, convert_note_ons.
  cbn [note_ons_only events].
  apply existsb_exists in Hon as (e & Hin & He).
  assert (Hf : In e (List.filter is_note_on (events (extract mid))))
    by (apply filter_In; auto).
  destruct (List.filter is_note_on (events (extract mid))); [destruct Hf|].
  destruct (events (extract mid)); [destruct Hin|]. reflexivity.
Qed.

Lemma output_ignores_note_offs_witness :
  lines_of (without_note_offs (Examples.scenario 0 64))
  = lines_of (Examples.scenario 0 64).
Proof.
  apply (output_ignores_note_offs (Examples.scenario 0 64)).
  vm_compute. reflexivity.
Defined.

(* ===================================================================== *)
(** * The window *)
(* ===================================================================== *)

Section GuiFacts.
Variable basename : string -> string.
Variable splitext_root : string -> string.

Lemma midi_to_scratch_frame (midi_file output_file path : string) (w : world) :
  path <> output_file ->
  files (snd (midi_to_scratch midi_file output_file w)) !! path = files w !! path.
Proof.
  intros Hne. unfold midi_to_scratch.
  destruct (midi_reader w midi_file) as [mid|e]; [|reflexivity].
  destruct (events (extract mid)) as [|e0 rest]; [reflexivity|].
  destruct (convert mid (extract mid)) as [lines|e1]; [|reflexivity].
  destruct (open_error w output_file) as [e2|]; [reflexivity|].
  destruct (write_error w output_file _) as [[e3 remains]|];
    cbn [snd files]; apply lookup_insert_ne; congruence.
Qed.

Lemma convert_frame (g : Gui.MidiConverterGUI) (w : world) (path : string) :
  (forall p, Gui.midi_file g = Some p -> path <> Gui.output_path splitext_root p) ->
  files (Gui.world_after (Gui.convert splitext_root g w)) !! path = files w !! path.
Proof.
  intros Hp. unfold Gui.convert.
  destruct (Gui.midi_file g) as [[|c s]|]; [reflexivity| |reflexivity].
  specialize (Hp _ eq_refl).
  pose proof (midi_to_scratch_frame (String c s)
                (Gui.output_path splitext_root (String c s)) path w Hp) as Hf.
  destruct (midi_to_scratch _ _ w) as [[[success message]|e] w']; exact Hf.
Qed.

Lemma output_paths_app (l1 l2 : list Gui.action) :
  Gui.output_paths splitext_root (l1 ++ l2)
  = (Gui.output_paths splitext_root l1 ++ Gui.output_paths splitext_root l2)%list.
Proof. unfold Gui.output_paths. apply flat_map_app. Qed.

Lemma step_session (done : list Gui.action) (a : Gui.action)
    (g : Gui.MidiConverterGUI) (w : world) :
  Gui.session_ok splitext_root done g ->
  Gui.session_ok splitext_root (done ++ [a]) (fst (Gui.step basename splitext_root (g, w) a))
  /\ forall path,
       ~ In path (Gui.output_paths splitext_root (done ++ [a])) ->
       files (snd (Gui.step basename splitext_root (g, w) a)) !! path
       = files w !! path.
Proof.
  intros [Hbtn Hfile].
  assert (Hkeep : forall p, Gui.midi_file g = Some p ->
            p <> EmptyString
            /\ In (Gui.output_path splitext_root p)
                  (Gui.output_paths splitext_root (done ++ [a]))).
  { intros p Hp. destruct (Hfile p Hp) as [H1 H2]. split; [exact H1|].
    rewrite output_paths_app. apply in_or_app. left. exact H2. }
  destruct a as [filename|]; cbn [Gui.step fst snd].
  - split; [|reflexivity].
    destruct filename as [|c s]; cbn [Gui.browse_file].
    + split; [exact Hbtn|exact Hkeep].
    + split; cbn [Gui.convert_btn_state Gui.midi_file].
      * intros _. eauto.
      * intros p [= <-]. split; [discriminate|].
        rewrite output_paths_app. apply in_or_app. right. left. reflexivity.
  - destruct (Gui.convert_btn_state g) eqn:Ebtn; cbn [fst snd].
    + destruct (Hbtn eq_refl) as (c & s & Efile). split.
      * unfold Gui.convert. rewrite Efile.
        destruct (midi_to_scratch _ _ w) as [[[success message]|e] w'];
          cbn [Gui.gui_after]; split;
          cbn [Gui.convert_btn_state Gui.midi_file];
          first [discriminate | intros _; eauto | rewrite <- Efile; exact Hkeep].
      * intros path Hpath. apply convert_frame.
        intros p Hp ->. apply Hpath. apply (Hkeep p Hp).
    + split; [|reflexivity]. split; [rewrite Ebtn; discriminate|exact Hkeep].
Qed.

Lemma run_session (actions : list Gui.action) (w : world) :
  Gui.session_ok splitext_root actions (fst (Gui.run basename splitext_root actions w))
  /\ forall path,
       ~ In path (Gui.output_paths splitext_root actions) ->
       files (snd (Gui.run basename splitext_root actions w)) !! path
       = files w !! path.
Proof.
  unfold Gui.run. induction actions as [|a actions IH] using rev_ind.
  - simpl. split; [|reflexivity]. split; [discriminate|intros p; discriminate].
  - rewrite fold_left_app. cbn [fold_left].
    destruct IH as [Hok Hframe].
    destruct (fold_left (Gui.step basename splitext_root) actions (Gui.init, w))
      as [g w1] eqn:E.
    cbn [fst snd] in Hok, Hframe.
    destruct (step_session actions a g w1 Hok) as [H1 H2].
    split; [exact H1|].
    intros path Hpath. rewrite (H2 path Hpath). apply Hframe.
    intros Hin. apply Hpath. rewrite output_paths_app. apply in_or_app. left. exact Hin.
Qed.

End GuiFacts.

(** X21. The window never touches a file that is not an output file: after
    any session, a path that is not the output path of a file name chosen
    in the session has the content it had before. *)
Theorem gui_writes_only_output_files (basename splitext_root : string -> string)
    (actions : list Gui.action) (w : world) (path : string) :
  ~ In path (Gui.output_paths splitext_root actions) ->
  files (snd (Gui.run basename splitext_root actions w)) !! path = files w !! path.
Proof.
  intros H. apply (proj2 (run_session basename splitext_root actions w)). exact H.
Qed.

Lemma gui_writes_only_output_files_witness :
  files (snd (Gui.run (fun p => p) (fun p => p)
                [Gui.Browse "song"; Gui.ClickConvert]
                (Examples.world_of (Examples.scenario 0 64)))) !! "song"
  = files (Examples.world_of (Examples.scenario 0 64)) !! "song".
Proof.
  apply (gui_writes_only_output_files (fun p => p) (fun p => p)
           [Gui.Browse "song"; Gui.ClickConvert]
           (Examples.world_of (Examples.scenario 0 64)) "song").
  simpl. intros [H|[]]. discriminate H.
Defined.

(** X22. After any session, the convert button is enabled only if a file
    has been chosen, and the file of the window is never the empty name. *)
Theorem gui_button_needs_file (basename splitext_root : string -> string)
    (actions : list Gui.action) (w : world) :
  (Gui.convert_btn_state (fst (Gui.run basename splitext_root actions w)) = Gui.NORMAL ->
   exists c s,
     Gui.midi_file (fst (Gui.run basename splitext_root actions w))
     = Some (String c s))
  /\ Gui.midi_file (fst (Gui.run basename splitext_root actions w)) <> Some EmptyString.
Proof.
  destruct (run_session basename splitext_root actions w) as [[H1 H2] _].
  split; [exact H1|]. intros H. destruct (H2 _ H) as [Hne _]. apply Hne. reflexivity.
Qed.

Lemma gui_button_needs_file_witness :
  exists c s,
    Gui.midi_file (fst (Gui.run (fun p => p) (fun p => p)
                          [Gui.Browse "song"; Gui.ClickConvert]
                          (Examples.world_of (Examples.scenario 0 64))))
    = Some (String c s).
Proof.
  apply (proj1 (gui_button_needs_file (fun p => p) (fun p => p)
                  [Gui.Browse "song"; Gui.ClickConvert]
                  (Examples.world_of (Examples.scenario 0 64)))).
  vm_compute. reflexivity.
Defined.





(* ===================================================================== *)
(** * Rests between chords *)
(* ===================================================================== *)

Section FloatExact.
Local Open Scope Q_scope.

Lemma round_half_even_eq_Z (x : Q) (z : Z) :
  x == inject_Z z -> round_half_even x = z.
Proof.
  intros E. unfold round_half_even.
  assert (Hf : Qfloor x = z) by (rewrite E; apply Qfloor_Z).
  rewrite Hf.
  assert (Hlt : Qltb (x - inject_Z z) (1 # 2) = true).
  { apply Qltb_lt. rewrite E. lra. }
  rewrite Hlt. reflexivity.
Qed.

(** A 32nd of an integer below 2^53 is a float. *)
Lemma fl_exact_32nd (n : Z) :
  (0 < n < 2 ^ 53)%Z -> fl (inject_Z n / 32) == inject_Z n / 32.
Proof.
  intros Hn.
  assert (Hq : 0 < inject_Z n / 32).
  { apply Qlt_shift_div_l; [reflexivity|]. rewrite Qmult_0_l.
    change 0 with (inject_Z 0). rewrite <- Zlt_Qlt. lia. }
  rewrite (fl_pos _ Hq).
  pose proof (floor_log2_le _ Hq) as Hlo.
  set (l := floor_log2 (inject_Z n / 32)) in *.
  assert (Hl : (l < 48)%Z).
  { assert (H : 2 ^ l < 2 ^ 48).
    { eapply Qle_lt_trans; [exact Hlo|].
      apply Qlt_shift_div_r; [reflexivity|].
      change (2 ^ 48 * 32) with (inject_Z (2 ^ 53)). rewrite <- Zlt_Qlt. lia. }
    apply Qpower_lt_compat_l_inv in H; [exact H|reflexivity]. }
  assert (E : inject_Z n / 32 * 2 ^ (- (l - 52))
              == inject_Z (n * 2 ^ (47 - l))).
  { rewrite inject_Z_mult, (Zpower_Qpower 2) by lia.
    change (inject_Z 2) with 2.
    replace (- (l - 52))%Z with (5 + (47 - l))%Z by lia.
    rewrite two_power_split. change (2 ^ 5) with 32. field. }
  rewrite (round_half_even_eq_Z _ _ E).
  rewrite inject_Z_mult, (Zpower_Qpower 2) by lia. change (inject_Z 2) with 2.
  assert (E2 : 2 ^ (47 - l) * 2 ^ (l - 52) == 1 # 32).
  { rewrite <- two_power_split. replace (47 - l + (l - 52))%Z with (-5)%Z by lia.
    reflexivity. }
  rewrite <- Qmult_assoc, E2. field.
Qed.

End FloatExact.

Section RestBetweenChords.

Lemma chords_of_tempos (ts : list grouped_event) :
  Forall (fun g => is_chord g = false) ts -> chords_of ts = [].
Proof.
  induction 1 as [|g ts Hg _ IH]; [reflexivity|].
  unfold chords_of in *. simpl. rewrite Hg. exact IH.
Qed.

Lemma chords_of_insert (c : grouped_event) (l : list grouped_event) :
  is_chord c = true ->
  Forall (fun g => is_chord g = true -> grouped_time c <= grouped_time g) l ->
  chords_of (insert_by grouped_time c l) = c :: chords_of l.
Proof.
  intros Hc. induction 1 as [|y rest Hy Hrest IH].
  - unfold chords_of. simpl. rewrite Hc. reflexivity.
  - simpl insert_by. destruct (grouped_time c <=? grouped_time y) eqn:E.
    + unfold chords_of. simpl. rewrite Hc. reflexivity.
    + apply Z.leb_gt in E. unfold chords_of in *. simpl.
      destruct (is_chord y) eqn:Ey; [specialize (Hy eq_refl); lia|].
      exact IH.
Qed.

Lemma chords_of_sort (cs ts : list grouped_event) :
  Forall (fun g => is_chord g = true) cs ->
  StronglySorted Z.le (map grouped_time cs) ->
  Forall (fun g => is_chord g = false) ts ->
  chords_of (sort_by grouped_time (cs ++ ts)) = cs.
Proof.
  intros Hcs Hs Hts. induction Hcs as [|c cs Hc Hcs IH]; simpl.
  - apply chords_of_tempos. apply Forall_sort_by. exact Hts.
  - simpl in Hs. inversion Hs as [|? ? Hs' Hle]; subst.
    rewrite chords_of_insert, (IH Hs'); [reflexivity|exact Hc|].
    apply Forall_sort_by. apply Forall_app. split.
    + apply List.Forall_forall. intros g Hg _.
      rewrite List.Forall_forall in Hle. apply Hle. apply in_map. exact Hg.
    + eapply List.Forall_impl; [|exact Hts]. simpl. intros g H1 H2. congruence.
Qed.

Lemma sorted_apart_later (tolerance : Q) (l : list grouped_event) :
  StronglySorted Z.le (map grouped_time l) ->
  ForallOrdPairs (apart_times tolerance) l ->
  StronglySorted (later_by tolerance) l.
Proof.
  induction l as [|g l IH]; intros Hs Ha; [constructor|].
  simpl in Hs. inversion Hs as [|? ? Hs' Hle]; subst.
  inversion Ha as [|? ? Hg Ha']; subst.
  constructor; [apply IH; assumption|].
  apply List.Forall_forall. intros g' Hin.
  rewrite List.Forall_forall in Hg, Hle.
  specialize (Hg g' Hin). specialize (Hle _ (in_map grouped_time _ _ Hin)).
  unfold apart_times, within in Hg. unfold later_by.
  rewrite Z.abs_eq in Hg by lia.
  apply Qltb_lt. unfold Qltb. unfold Qleb in Hg. rewrite Hg. reflexivity.
Qed.

(** The chords of the merged list are those of the grouping, each later
    than the one before by more than the tolerance. *)
Lemma merged_chords (mid : MidiFile) :
  chords_of (merged (ticks_per_beat mid) (extract mid))
  = group_chords (ticks_per_beat mid) (events (extract mid))
  /\ StronglySorted (later_by (tolerance_of (ticks_per_beat mid)))
       (group_chords (ticks_per_beat mid) (events (extract mid))).
Proof.
  assert (Hsorted : StronglySorted Z.le
            (map grouped_time
               (group_chords (ticks_per_beat mid) (events (extract mid))))).
  { unfold group_chords. apply group_loop_sorted.
    - unfold extract. cbn [events]. apply sort_by_sorted.
    - constructor.
    - constructor. }
  split.
  - unfold merged. apply chords_of_sort.
    + unfold group_chords. apply group_loop_chords. constructor.
    + exact Hsorted.
    + apply tempo_events_tempos.
  - apply sorted_apart_later; [exact Hsorted|].
    unfold group_chords.
    destruct (group_loop_spec (tolerance_of (ticks_per_beat mid))
                (events (extract mid)) (events (extract mid)) [] ∅)
      as (_ & _ & H).
    + auto.
    + constructor.
    + intros x. split; [intros Hx; exfalso; revert Hx; apply not_elem_of_empty|].
      intros (g & e & [] & _).
    + constructor.
    + exact H.
Qed.

Lemma has_note_app (l1 l2 : list line) :
  has_note (l1 ++ l2) = has_note l1 || has_note l2.
Proof. unfold has_note. apply existsb_app. Qed.

Lemma rested_app (prev : option line) (seen : bool) (l1 l2 : list line) :
  rested prev seen l1 ->
  rested (match last l1 with Some l => Some l | None => prev end)
         (seen || has_note l1) l2 ->
  rested prev seen (l1 ++ l2).
Proof.
  revert prev seen. induction l1 as [|l l1 IH]; intros prev seen H1 H2.
  - simpl in H2. rewrite orb_false_r in H2. exact H2.
  - simpl in H1. destruct H1 as [Hl H1]. simpl. split; [exact Hl|].
    apply IH; [exact H1|].
    replace (match last l1 with Some l0 => Some l0 | None => Some l end)
      with (match last (l :: l1) with Some l0 => Some l0 | None => prev end).
    + unfold has_note in *. simpl in H2. rewrite orb_assoc in H2. exact H2.
    + destruct l1 as [|l0 l1]; [reflexivity|].
      change (last (l :: l0 :: l1)) with (last (l0 :: l1)).
      destruct (last (l0 :: l1)) eqn:E; [reflexivity|].
      apply last_None in E. discriminate.
Qed.

Variable ticks_per_beat : Z.
Hypothesis resolution : 0 < ticks_per_beat < 2 ^ 53.

Lemma tolerance_exact :
  (tolerance_of ticks_per_beat == inject_Z ticks_per_beat / 32)%Q.
Proof. unfold tolerance_of. apply fl_exact_32nd. exact resolution. Qed.

(** A chord later than the last one by more than the tolerance is
    written after a rest. *)
Lemma on_grouped_rest (s s' : serializer) (time notes_program : Z)
    (notes : list Z) :
  (tolerance_of ticks_per_beat < inject_Z (time - previous_time s))%Q ->
  on_grouped ticks_per_beat s (chord time notes notes_program) = Ok s' ->
  exists instr r,
    output_lines s' = (output_lines s ++ instr ++ [Rest r; Note notes])%list
    /\ has_note instr = false
    /\ previous_time s' = time.
Proof.
  intros Hlate H.
  assert (Htol : (0 <= tolerance_of ticks_per_beat)%Q)
    by (apply tolerance_nonneg; lia).
  assert (Hpos : previous_time s < time).
  { assert (H0 : (inject_Z 0 < inject_Z (time - previous_time s))%Q)
      by (change (inject_Z 0) with 0%Q; lra).
    rewrite <- Zlt_Qlt in H0. lia. }
  assert (Hbeats : (0.03125 <= inject_Z (time - previous_time s)
                               / inject_Z ticks_per_beat)%Q).
  { rewrite tolerance_exact in Hlate.
    assert (Hq : (0 < inject_Z ticks_per_beat)%Q).
    { change 0%Q with (inject_Z 0). rewrite <- Zlt_Qlt. lia. }
    apply Qle_shift_div_l; [exact Hq|].
    assert (E : (0.03125 * inject_Z ticks_per_beat
                 == inject_Z ticks_per_beat / 32)%Q) by field.
    rewrite E. apply Qlt_le_weak. exact Hlate. }
  unfold on_grouped in H.
  apply bind_Ok in H as (s2 & Hrest & Hfin). injection Hfin as <-.
  cbn [output_lines append_line previous_time].
  match type of Hrest with
  | context [previous_time ?s1] => set (st := s1) in *
  end.
  assert (Hst : previous_time st = previous_time s
                /\ exists instr, output_lines st = (output_lines s ++ instr)%list
                                 /\ has_note instr = false).
  { subst st. destruct (negb _); cbn [previous_time output_lines append_line].
    - split; [reflexivity|]. eexists. split; reflexivity.
    - split; [reflexivity|]. exists []. rewrite app_nil_r. split; reflexivity. }
  clearbody st. destruct Hst as (Hprev & instr & Hlines & Hinstr).
  rewrite Hprev in Hrest.
  assert ((time >? previous_time s) = true) as E1 by lia. rewrite E1 in Hrest.
  apply bind_Ok in Hrest as (rest_beats & Hdiv & Hk).
  unfold truediv, div in Hdiv.
  destruct (Qeq_bool (inject_Z ticks_per_beat) 0); [discriminate|].
  injection Hdiv as <-.
  assert (E2 : Qleb (lit 0.03125)
                    (fl (inject_Z (time - previous_time s) / inject_Z ticks_per_beat))
               = true).
  { apply Qleb_le. unfold lit. apply fl_mono. exact Hbeats. }
  rewrite E2 in Hk. injection Hk as <-.
  cbn [output_lines append_line]. rewrite Hlines.
  exists instr. eexists. rewrite <- !app_assoc. split; [reflexivity|].
  split; [exact Hinstr|reflexivity].
Qed.

Lemma chunk_lines (s s' : serializer) (g : grouped_event) :
  chunk s g s' ->
  exists new,
    output_lines s' = (output_lines s ++ new)%list
    /\ (is_chord g = false -> has_note new = false /\ previous_time s' = previous_time s)
    /\ has_note (removelast new) = false
    /\ (is_chord g = true -> previous_time s' = grouped_time g /\ has_note new = true).
Proof.
  intros Hc.
  destruct Hc as [time new_tempo|time new_tempo new_bpm Hne
                 |time notes program instr rest Hinstr Hrest];
    cbn [output_lines previous_time is_chord grouped_time].
  - exists []. rewrite app_nil_r. split; [reflexivity|]. split; [auto|].
    split; [reflexivity|discriminate].
  - eexists. split; [reflexivity|]. split; [auto|]. split; [reflexivity|discriminate].
  - eexists. split; [reflexivity|]. split; [discriminate|]. split.
    + destruct Hinstr as [[-> _]|[-> _]];
        destruct Hrest as [->|(r & -> & _)]; reflexivity.
    + intros _. split; [reflexivity|].
      destruct Hinstr as [[-> _]|[-> _]];
        destruct Hrest as [->|(r & -> & _)]; reflexivity.
Qed.

Lemma rested_unseen (prev : option line) (new : list line) :
  has_note (removelast new) = false -> rested prev false new.
Proof.
  revert prev. induction new as [|l new IH]; intros prev H; [exact I|].
  destruct new as [|l' new].
  - simpl. split; [destruct l; try exact I; discriminate|exact I].
  - change (removelast (l :: l' :: new)) with (l :: removelast (l' :: new)) in H.
    unfold has_note in H. cbn [existsb] in H.
    apply orb_false_iff in H as [Hl H].
    cbn [rested]. rewrite Hl. split; [destruct l; try exact I; discriminate|].
    apply IH. exact H.
Qed.

Lemma rested_no_note (prev : option line) (seen : bool) (new : list line) :
  has_note new = false -> rested prev seen new.
Proof.
  revert prev seen. induction new as [|l new IH]; intros prev seen H; [exact I|].
  unfold has_note in H. cbn [existsb] in H.
  apply orb_false_iff in H as [Hl H]. cbn [rested]. split.
  - destruct l; try exact I. discriminate.
  - apply IH. exact H.
Qed.

(** The loop writes a rest before every chord but the first. *)
Lemma serialize_rested (gs : list grouped_event) (s s' : serializer) :
  StronglySorted (later_by (tolerance_of ticks_per_beat)) (chords_of gs) ->
  (has_note (output_lines s) = true ->
   Forall (fun g => (tolerance_of ticks_per_beat
                     < inject_Z (grouped_time g - previous_time s))%Q)
          (chords_of gs)) ->
  rested None false (output_lines s) ->
  serialize ticks_per_beat gs s = Ok s' ->
  rested None false (output_lines s').
Proof.
  revert s. induction gs as [|g rest IH]; intros s Hs Hseen Hr H; simpl in H.
  - injection H as <-. exact Hr.
  - apply bind_Ok in H as (s1 & Hg & Hrest).
    destruct g as [time notes program|time new_tempo].
    + unfold chords_of in Hs, Hseen. simpl in Hs, Hseen.
      inversion Hs as [|? ? Hs' Hlater]; subst.
      assert (Hnext : previous_time s1 = time /\ has_note (output_lines s1) = true
                      /\ rested None false (output_lines s1)).
      { destruct (has_note (output_lines s)) eqn:Eseen.
        - specialize (Hseen eq_refl). apply Forall_cons in Hseen as [Hlate _].
          destruct (on_grouped_rest _ _ _ _ _ Hlate Hg) as (instr & r & Hl & Hi & Hp).
          split; [exact Hp|]. rewrite Hl. split.
          + rewrite !has_note_app. simpl. rewrite !orb_true_r. reflexivity.
          + apply rested_app; [exact Hr|]. apply rested_app.
            * apply rested_no_note. exact Hi.
            * simpl. split; [exact I|]. split; [|exact I]. intros _. eauto.
        - apply on_grouped_chunk in Hg.
          destruct (chunk_lines _ _ _ Hg) as (new & Hl & _ & Hlast & Hch).
          destruct (Hch eq_refl) as [Hp Hn].
          split; [exact Hp|]. rewrite Hl. split.
          + rewrite has_note_app, Hn. apply orb_true_r.
          + apply rested_app; [exact Hr|]. rewrite Eseen. cbn [orb].
            apply rested_unseen. exact Hlast. }
      destruct Hnext as (Hp & Hn & Hr1).
      apply (IH s1); [exact Hs'| |exact Hr1|exact Hrest].
      intros _. rewrite Hp. exact Hlater.
    + apply on_grouped_chunk in Hg.
      destruct (chunk_lines _ _ _ Hg) as (new & Hl & Htempo & _ & _).
      destruct (Htempo eq_refl) as [Hn Hp].
      apply (IH s1); [exact Hs| | |exact Hrest].
      * rewrite Hl, has_note_app, Hn, orb_false_r, Hp. exact Hseen.
      * rewrite Hl. apply rested_app; [exact Hr|].
        apply rested_no_note. exact Hn.
Qed.

End RestBetweenChords.

(** X25. Between two chords there is always a rest.  For a resolution from
    1 to 2^53 - 1, every [Note] line but the first has a [Rest] line
    right before it: two chord times differ by more than the tolerance,
    a 32nd of a beat, so the test [rest_beats >= 0.03125] can only fail
    for the first chord. *)
Theorem rest_between_chords (mid : MidiFile) (lines : list line) :
  0 < ticks_per_beat mid < 2 ^ 53 ->
  lines_of mid = Ok (Some lines) ->
  rested None false lines.
Proof.
  intros Htpb H. apply lines_of_Some in H. unfold convert in H.
  apply bind_Ok in H as (bpm & _ & H).
  apply bind_Ok in H as (s & Hs & H). injection H as <-.
  destruct (merged_chords mid) as [Hch Hlater].
  eapply (serialize_rested (ticks_per_beat mid) Htpb); [| | |exact Hs].
  - rewrite Hch. exact Hlater.
  - discriminate.
  - simpl. auto.
Qed.

Lemma rest_between_chords_witness :
  rested None false
    [Instr 1; BPM 120; Note [60]; Rest (Float (Float.lit 0.04)); Note [64]].
Proof.
  apply (rest_between_chords (Examples.two_notes 16)).
  - simpl. lia.
  - vm_compute. reflexivity.
Defined.

Section SortedNotes.

Lemma sorted_unique (l1 l2 : list Z) :
  StronglySorted Z.le l1 -> StronglySorted Z.le l2 ->
  Permutation l1 l2 -> l1 = l2.
Proof.
  intros H1. revert l2. induction H1 as [|a l1 Hs1 IH Ha]; intros l2 H2 Hp.
  - apply Permutation_nil in Hp. subst. reflexivity.
  - destruct H2 as [|b l2 Hs2 Hb].
    + symmetry in Hp. apply Permutation_nil in Hp. discriminate.
    + assert (a = b).
      { assert (Hab : In a (b :: l2))
          by (eapply Permutation_in; [exact Hp|left; reflexivity]).
        assert (Hba : In b (a :: l1))
          by (eapply Permutation_in; [symmetry; exact Hp|left; reflexivity]).
        rewrite List.Forall_forall in Ha, Hb.
        destruct Hab as [->|Hab]; [reflexivity|].
        destruct Hba as [->|Hba]; [reflexivity|].
        specialize (Ha _ Hba). specialize (Hb _ Hab). lia. }
      subst b. f_equal. apply IH; [exact Hs2|].
      eapply Permutation_cons_inv. exact Hp.
Qed.

Lemma sorted_of_permutation (l1 l2 : list Z) :
  Permutation l1 l2 -> sorted l1 = sorted l2.
Proof.
  intros Hp. unfold sorted. apply sorted_unique.
  - apply (sort_by_sorted (fun x : Z => x)).
  - apply (sort_by_sorted (fun x : Z => x)).
  - rewrite !sort_by_perm. exact Hp.
Qed.

End SortedNotes.

(** X26. A [Note] line lists the notes of its chord in ascending order,
    whatever the order in which the events gave them, and keeps a note
    that occurs twice twice. *)
Theorem note_line_order (notes notes' : list Z) :
  (Permutation notes notes' -> line_text (Note notes) = line_text (Note notes'))
  /\ StronglySorted Z.le (sorted notes)
  /\ Permutation (sorted notes) notes
  /\ line_text (Note notes)
     = "Note: " ++ String.concat "~" (map Show.str_int (sorted notes)).
Proof.
  split; [|split; [|split]].
  - intros Hp. simpl. rewrite (sorted_of_permutation _ _ Hp). reflexivity.
  - apply (sort_by_sorted (fun x : Z => x)).
  - apply sort_by_perm.
  - reflexivity.
Qed.

Lemma note_line_order_witness :
  line_text (Note [64; 60; 67]) = line_text (Note [60; 67; 64]).
Proof.
  apply (proj1 (note_line_order [64; 60; 67] [60; 67; 64])).
  apply perm_trans with [60; 64; 67].
  - apply perm_swap.
  - apply perm_skip. apply perm_swap.
Defined.
(* ===================================================================== *)
(** * The progress reports of the grouping loop *)
(* ===================================================================== *)

Section ProgressFacts.
Local Open Scope Q_scope.

Lemma indices_sorted (start len : nat) :
  StronglySorted Z.lt (map Z.of_nat (seq start len)).
Proof.
  revert start. induction len as [|len IH]; intros start; cbn [seq map].
  - constructor.
  - constructor; [apply IH|].
    apply List.Forall_forall. intros z Hz.
    apply in_map_iff in Hz as (k & <- & Hk). apply in_seq in Hk. lia.
Qed.

Lemma StronglySorted_filter {A : Type} (R : A -> A -> Prop) (p : A -> bool)
    (l : list A) :
  StronglySorted R l -> StronglySorted R (List.filter p l).
Proof.
  induction 1 as [|a l Hl IH Ha]; cbn [List.filter]; [constructor|].
  destruct (p a); [|exact IH].
  constructor; [exact IH|].
  apply List.Forall_forall. intros x Hx. apply filter_In in Hx as [Hx _].
  rewrite List.Forall_forall in Ha. exact (Ha x Hx).
Qed.

Lemma StronglySorted_map {A B : Type} (R : A -> A -> Prop) (R' : B -> B -> Prop)
    (f : A -> B) (l : list A) :
  (forall x y, In x l -> In y l -> R x y -> R' (f x) (f y)) ->
  StronglySorted R l -> StronglySorted R' (map f l).
Proof.
  intros Hf Hs. induction Hs as [|a l Hl IH Ha]; cbn [map]; [constructor|].
  constructor.
  - apply IH. intros x y Hx Hy. apply Hf; right; assumption.
  - apply List.Forall_forall. intros b Hb.
    apply in_map_iff in Hb as (x & <- & Hx).
    rewrite List.Forall_forall in Ha.
    apply Hf; [left; reflexivity|right; exact Hx|exact (Ha x Hx)].
Qed.

(** The value reported at an index grows with the index. *)
Lemma progress_mono (total : Z) (i j : Z) :
  (0 < total)%Z -> (i <= j)%Z ->
  fl (fl (inject_Z i / inject_Z total) * 100)
  <= fl (fl (inject_Z j / inject_Z total) * 100).
Proof.
  intros Ht Hij. apply fl_mono.
  apply Qmult_le_compat_r; [|discriminate].
  apply fl_mono.
  apply Qmult_le_compat_r.
  - rewrite <- Zle_Qle. exact Hij.
  - apply Qlt_le_weak, Qinv_lt_0_compat.
    change 0 with (inject_Z 0). rewrite <- Zlt_Qlt. exact Ht.
Qed.

Lemma progress_first (total : Z) :
  fl (fl (inject_Z 0 / inject_Z total) * 100) = 0.
Proof.
  apply fl_zero.
  rewrite (fl_zero (inject_Z 0 / inject_Z total)); [reflexivity|].
  unfold Qdiv. apply Qmult_0_l.
Qed.

Lemma progress_le_100 (total : Z) (i : Z) :
  (0 <= i < total)%Z ->
  fl (fl (inject_Z i / inject_Z total) * 100) <= 100.
Proof.
  intros Hi.
  assert (Hpos : 0 < inject_Z total).
  { change 0 with (inject_Z 0). rewrite <- Zlt_Qlt. lia. }
  assert (H1 : inject_Z i / inject_Z total <= 1).
  { apply Qle_shift_div_r; [exact Hpos|]. rewrite Qmult_1_l.
    rewrite <- Zle_Qle. lia. }
  apply fl_mono in H1.
  assert (E1 : fl 1 == 1) by reflexivity.
  rewrite E1 in H1.
  assert (H2 : fl (inject_Z i / inject_Z total) * 100 <= 100).
  { apply (Qle_trans _ (1 * 100)); [|discriminate].
    apply Qmult_le_compat_r; [exact H1|discriminate]. }
  apply fl_mono in H2.
  assert (E2 : fl 100 == 100) by reflexivity.
  rewrite E2 in H2. exact H2.
Qed.

(** The greatest float below 1, and what it gives times 100. *)
Lemma progress_below_100 (total : Z) (i : Z) :
  (0 <= i < total)%Z -> (total < 2 ^ 53)%Z ->
  fl (fl (inject_Z i / inject_Z total) * 100) < 100.
Proof.
  intros Hi Ht.
  assert (Hpos : 0 < inject_Z total).
  { change 0 with (inject_Z 0). rewrite <- Zlt_Qlt. lia. }
  assert (H1 : inject_Z i / inject_Z total <= 1 - (1 # 2) ^ 53).
  { apply Qle_shift_div_r; [exact Hpos|].
    assert (Hi' : inject_Z i <= inject_Z total - 1).
    { assert (H : inject_Z i <= inject_Z (total + - 1)) by (rewrite <- Zle_Qle; lia).
      rewrite inject_Z_plus in H. exact H. }
    assert (Ht' : inject_Z total <= 2 ^ 53).
    { change (2 ^ 53) with (inject_Z (2 ^ 53)). rewrite <- Zle_Qle. lia. }
    eapply Qle_trans; [exact Hi'|].
    assert (Hut : inject_Z total * (1 # 2) ^ 53 <= 1).
    { apply (Qle_trans _ (2 ^ 53 * (1 # 2) ^ 53)); [|discriminate].
      apply Qmult_le_compat_r; [exact Ht'|discriminate]. }
    set (u := (1 # 2) ^ 53) in *. set (t := inject_Z total) in *.
    clearbody u t.
    assert (E' : (1 - u) * t == t - t * u) by ring.
    rewrite E'. set (tu := t * u) in *. clearbody tu. lra. }
  apply fl_mono in H1.
  assert (H2 : fl (inject_Z i / inject_Z total) * 100
               <= fl (1 - (1 # 2) ^ 53) * 100).
  { apply Qmult_le_compat_r; [exact H1|discriminate]. }
  apply fl_mono in H2.
  eapply Qle_lt_trans; [exact H2|].
  apply Qltb_lt. vm_compute. reflexivity.
Qed.

End ProgressFacts.

(** X27. The progress bar during the grouping: the values handed to
    [progress_callback] start at 0, never go down, and stay within 0 and
    100; for fewer than 2^53 events they stay below 100, which is only
    reached by the assignment after the call. *)
Theorem progress_reports_range (events : list event) :
  StronglySorted Qle (progress_reports events)
  /\ Forall (fun v => 0 <= v <= 100)%Q (progress_reports events)
  /\ (events <> [] ->
      exists rest, progress_reports events = 0%Q :: rest)
  /\ ((Z.of_nat (List.length events) < 2 ^ 53)%Z ->
      Forall (fun v => v < 100)%Q (progress_reports events)).
Proof.
  unfold progress_reports.
  set (n := List.length events).
  assert (Hidx : forall i, In i (List.filter (fun idx => idx mod 100 =? 0)
                                   (map Z.of_nat (seq 0 n))) ->
                           (0 <= i < Z.of_nat n)%Z).
  { intros i Hi. apply filter_In in Hi as [Hi _].
    apply in_map_iff in Hi as (k & <- & Hk). apply in_seq in Hk. lia. }
  repeat split.
  - apply (StronglySorted_map Z.lt).
    + intros x y Hx Hy Hxy. apply Hidx in Hx.
      apply progress_mono; lia.
    + apply StronglySorted_filter, indices_sorted.
  - apply List.Forall_forall. intros v Hv.
    apply in_map_iff in Hv as (i & <- & Hi). apply Hidx in Hi.
    split.
    + rewrite <- (progress_first (Z.of_nat n)) at 1.
      apply progress_mono; lia.
    + apply progress_le_100. exact Hi.
  - intros Hne. destruct events as [|e events]; [contradiction|].
    subst n. cbn [List.length seq map List.filter].
    change (Z.of_nat 0 mod 100 =? 0)%Z with true. cbn [map].
    change (Z.of_nat 0) with 0%Z. rewrite progress_first.
    eexists. reflexivity.
  - intros Hn. apply List.Forall_forall. intros v Hv.
    apply in_map_iff in Hv as (i & <- & Hi). apply Hidx in Hi.
    apply progress_below_100; assumption.
Qed.

Lemma progress_reports_range_witness :
  (exists rest,
     progress_reports [note_on 0 60 64 0 0; note_on 15 64 64 0 0] = 0%Q :: rest)
  /\ Forall (fun v => v < 100)%Q
            (progress_reports [note_on 0 60 64 0 0; note_on 15 64 64 0 0]).
Proof.
  pose proof (progress_reports_range
                [note_on 0 60 64 0 0; note_on 15 64 64 0 0])
    as (_ & _ & Hfirst & Hbelow).
  split.
  - apply Hfirst. discriminate.
  - apply Hbelow. cbn [List.length]. lia.
Defined.
